(** * A line-oriented interpreter for typed numeric variables and
      single-expression functions: shallow embedding of [main.go]

    The Go program keeps two global maps ([variables], [functions]), reads a
    script line by line and hands every line to [processLine].  Expressions are
    evaluated while they are parsed, by recursive descent over a lexer working
    on runes.

    Conventions of the embedding.
    - A Go [string] is represented by the sequence of its code points, that is
      by [[]rune(s)]; the input is taken to be valid UTF-8.  Every separator
      the program searches for is ASCII, so searching bytes and searching code
      points agree on such input.
    - [float64] is Rocq's primitive binary64 type [float]; [==] on floats is
      [PrimFloat.eqb].
    - The global maps are [gmap]s; the pointers stored in the Go maps are never
      shared between two keys, so values are stored directly.
    - Everything written to standard output is recorded as a list of [Output]
      events, in the order of the writes.
    - Recursion through function bodies need not terminate (a body may call
      its own function), hence the evaluator takes a [fuel] argument and
      returns [None] when it is exhausted; a result obtained with some fuel
      is the result with any larger fuel ([fuel_step]).
    - Of Go's standard library, [unicode.IsSpace], [strings.*],
      [strconv.ParseFloat] on number tokens and the conversions between
      [float64] and [int64] are written out; the tables of letters and
      digits above Latin-1 are parameters of the development. *)

From Stdlib Require Import ZArith Floats String Ascii List Lia Bool DecimalString.
From stdpp Require Import gmap list.

Abbreviation rune := Z (only parsing).
Abbreviation text := (list Z) (only parsing).

(** ** String literals *)

(** Decoder for the UTF-8 bytes of a literal of this file: [pending] counts
    the continuation bytes still expected, [acc] holds the bits read so far. *)
Fixpoint utf8_decode (pending : nat) (acc : Z) (bytes : list Z) : text :=
  match bytes with
  | [] => []
  | b :: bytes' =>
      match pending with
      | O =>
          if (b <? 128)%Z then b :: utf8_decode O 0%Z bytes'
          else if (b <? 224)%Z then utf8_decode 1 (Z.land b 31) bytes'
          else if (b <? 240)%Z then utf8_decode 2 (Z.land b 15) bytes'
          else utf8_decode 3 (Z.land b 7) bytes'
      | S O => (acc * 64 + Z.land b 63)%Z :: utf8_decode O 0%Z bytes'
      | S k => utf8_decode k (acc * 64 + Z.land b 63)%Z bytes'
      end
  end.

Definition lit (s : string) : text :=
  utf8_decode O 0%Z (map (fun a => Z.of_N (N_of_ascii a)) (list_ascii_of_string s)).

Arguments lit s%_string.

(** ** Package [unicode] *)

Definition MaxLatin1 : rune := 255%Z.

Definition in_range (lo hi r : rune) : bool := (lo <=? r)%Z && (r <=? hi)%Z.

(** [unicode.IsSpace] is closed: Latin-1 is a [switch], the rest is the
    [White_Space] table without its Latin-1 entries. *)
Definition IsSpace (r : rune) : bool :=
  if (r <=? MaxLatin1)%Z then
    in_range 9 13 r || (r =? 32)%Z || (r =? 133)%Z || (r =? 160)%Z
  else
    (r =? 5760)%Z || in_range 8192 8202 r || in_range 8232 8233 r
    || (r =? 8239)%Z || (r =? 8287)%Z || (r =? 12288)%Z.

(** The letters of Latin-1 as the table [unicode.properties] marks them. *)
Definition latin1Letter (r : rune) : bool :=
  in_range 65 90 r || in_range 97 122 r
  || (r =? 170)%Z || (r =? 181)%Z || (r =? 186)%Z
  || in_range 192 214 r || in_range 216 246 r || in_range 248 255 r.


(** ** Package [strings] *)

Fixpoint TrimLeftSpace (s : text) : text :=
  match s with
  | r :: s' => if IsSpace r then TrimLeftSpace s' else s
  | [] => []
  end.

Definition TrimSpace (s : text) : text :=
  rev (TrimLeftSpace (rev (TrimLeftSpace s))).

Fixpoint HasPrefix (s prefix : text) : bool :=
  match prefix, s with
  | [], _ => true
  | c :: prefix', r :: s' => (r =? c)%Z && HasPrefix s' prefix'
  | _ :: _, [] => false
  end.

Definition HasSuffix (s suffix : text) : bool :=
  HasPrefix (rev s) (rev suffix).

(** [strings.Index]: position of the first occurrence, [-1] when there is
    none.  [IndexFrom s sep i] searches [s], which starts at offset [i]. *)
Fixpoint IndexFrom (s sep : text) (i : Z) : Z :=
  if HasPrefix s sep then i
  else match s with
       | [] => (-1)%Z
       | _ :: s' => IndexFrom s' sep (i + 1)%Z
       end.

Definition Index (s sep : text) : Z := IndexFrom s sep 0%Z.

Definition Contains (s sep : text) : bool := (0 <=? Index s sep)%Z.

(** [strings.SplitN(s, sep, 2)]. *)
Definition SplitN2 (s sep : text) : list text :=
  let i := Index s sep in
  if (i <? 0)%Z then [s]
  else [take (Z.to_nat i) s; drop (Z.to_nat i + length sep) s].

(** [strings.Split(s, sep)] for a non-empty [sep]; a string has at most
    [length s] separators, which bounds the recursion. *)
Fixpoint SplitFrom (n : nat) (s sep : text) : list text :=
  let i := Index s sep in
  match n with
  | O => [s]
  | S n' =>
      if (i <? 0)%Z then [s]
      else take (Z.to_nat i) s :: SplitFrom n' (drop (Z.to_nat i + length sep) s) sep
  end.

Definition Split (s sep : text) : list text := SplitFrom (length s) s sep.

(** ** Numbers *)

(** Nearest binary64 value of the positive rational [p / q], ties to even;
    [None] when it rounds beyond the largest finite value. *)
Definition round_binary64 (p q : Z) : option float :=
  let e0 := (Z.log2 p - Z.log2 q)%Z in
  let e := if (Z.shiftl p (Z.max 0 (- e0)) <? Z.shiftl q (Z.max 0 e0))%Z
           then (e0 - 1)%Z else e0 in
  let ex := Z.max (e - 52) (-1074) in
  let num := Z.shiftl p (Z.max 0 (- ex)) in
  let den := Z.shiftl q (Z.max 0 ex) in
  let m := (num / den)%Z in
  let r := (num mod den)%Z in
  let m := if (den <? 2 * r)%Z || ((den =? 2 * r)%Z && Z.odd m)
           then (m + 1)%Z else m in
  if (Z.shiftl 1 1024 <=? Z.shiftl m ex)%Z then None
  else Some (Z.ldexp (of_uint63 (Uint63.of_Z m)) ex).

(** The conversion [int64(f)].  Go leaves the result open when [f] is not
    representable; this is what the amd64 compiler produces (the instruction
    CVTTSD2SI yields the minimal integer). *)
Definition int64 (f : float) : Z :=
  match Prim2SF f with
  | S754_zero _ => 0%Z
  | S754_finite s m e =>
      let z := if (0 <=? e)%Z then Z.shiftl (Zpos m) e else Z.shiftr (Zpos m) (- e) in
      let v := if s then (- z)%Z else z in
      if (- 2 ^ 63 <=? v)%Z && (v <? 2 ^ 63)%Z then v else (- 2 ^ 63)%Z
  | _ => (- 2 ^ 63)%Z
  end.

(** The conversion [float64(z)] of an [int64]. *)
Definition float64 (z : Z) : float :=
  if (z =? 0)%Z then PrimFloat.zero
  else match round_binary64 (Z.abs z) 1 with
       | Some f => if (z <? 0)%Z then (- f)%float else f
       | None => nan
       end.

(** [float64(int64(val))], truncation towards zero. *)
Definition truncate (val : float) : float := float64 (int64 val).


(** The value of a decimal digit rune, if it is one. *)
Definition digitValue (r : rune) : option Z :=
  if in_range 48 57 r then Some (r - 48)%Z else None.

(** Reads [digits [. digits]]: the digits as one integer and the number of
    those after the dot.  [None] on any other rune or a second dot. *)
Fixpoint readDecimal (s : text) (seenDot : bool) (n k : Z) : option (Z * Z) :=
  match s with
  | [] => Some (n, k)
  | r :: s' =>
      if (r =? 46)%Z then
        if seenDot then None else readDecimal s' true n k
      else match digitValue r with
           | Some d => readDecimal s' seenDot (10 * n + d)%Z (if seenDot then (k + 1)%Z else k)
           | None => None
           end
  end.

(** [strconv.ParseFloat(s, 64)] on the strings the lexer can produce as
    number tokens (they start with a digit and hold digits and at most one
    dot); [None] stands for a non-nil error: a rune that is not an ASCII digit,
    or a value out of range. *)
Definition ParseFloat (s : text) : option float :=
  if existsb (in_range 48 57) s then
    match readDecimal s false 0 0 with
    | Some (n, k) => if (n =? 0)%Z then Some PrimFloat.zero else round_binary64 n (10 ^ k)
    | None => None
    end
  else None.

(** [%d] of a length. *)
Definition decimal (n : nat) : text := lit (NilZero.string_of_uint (Nat.to_uint n)).

Fixpoint text_eqb (a b : text) : bool :=
  match a, b with
  | [], [] => true
  | x :: a', y :: b' => (x =? y)%Z && text_eqb a' b'
  | _, _ => false
  end.

(** [s[a:b]] *)
Definition slice (s : text) (a b : nat) : text := take (b - a) (drop a s).

(** ** The store *)

Record VariableT := { isInt : bool; value : float }.

Record FunctionT := { params : list text; expression : text }.

(** What the program writes to standard output, one constructor for each
    [fmt.Printf] and [fmt.Println] of the source. *)
Inductive Output :=
| UndeclaredFunction (name : text)
| UndeclaredVariable (name : text)
| FunctionError (msg : text)
| ExpressionError (msg : text)
| ListHeader
| PrintInt (name : text) (v : Z)
| PrintFloat (name : text) (v : float)
| NotDeclared (name : text)
| BadFunctionFormat (line : text)
| BadInitFormat (line : text)
| UnknownType (typeChar : text)
| CannotParse (line : text).

(** The global state: the maps [variables] and [functions], and the output
    written so far. *)
Record World := {
  variables : gmap text VariableT;
  functions : gmap text FunctionT;
  stdout : list Output }.

Definition withVariables (vs : gmap text VariableT) (w : World) : World :=
  {| variables := vs; functions := functions w; stdout := stdout w |}.

Definition print (o : Output) (w : World) : World :=
  {| variables := variables w; functions := functions w; stdout := stdout w ++ [o] |}.

Definition setVariable (name : text) (isInt0 : bool) (val : float) (w : World) : World :=
  match variables w !! name with
  | Some v =>
      let isInt0 := isInt v in
      if isInt0
      then withVariables (<[name := {| isInt := isInt v; value := truncate val |}]> (variables w)) w
      else withVariables (<[name := {| isInt := isInt v; value := val |}]> (variables w)) w
  | None =>
      let val := if isInt0 then truncate val else val in
      withVariables (<[name := {| isInt := isInt0; value := val |}]> (variables w)) w
  end.

Definition getVariable (name : text) (w : World) : option VariableT :=
  variables w !! name.

Definition setFunction (name : text) (params0 : list text) (expr : text) (w : World) : World :=
  {| variables := variables w;
     functions := <[name := {| params := params0; expression := expr |}]> (functions w);
     stdout := stdout w |}.

Definition getFunction (name : text) (w : World) : option FunctionT :=
  functions w !! name.

(** The first loop of [evaluateFunction]: every parameter is saved in
    [backup] when a variable of its name exists at that moment, then bound
    with [setVariable].  The caller has checked that [args] is as long as the
    parameter list, so [args[i]] is in range. *)
Fixpoint bindParams (ps : list text) (args : list float)
    (backup : gmap text VariableT) (w : World) : gmap text VariableT * World :=
  match ps, args with
  | paramName :: ps', arg :: args' =>
      let backup :=
        match getVariable paramName w with
        | Some orig => <[paramName := {| isInt := isInt orig; value := value orig |}]> backup
        | None => backup
        end in
      let isInteger := (truncate arg =? arg)%float in
      bindParams ps' args' backup (setVariable paramName isInteger arg w)
  | _, _ => (backup, w)
  end.

(** The last loop of [evaluateFunction]. *)
Fixpoint restoreParams (ps : list text) (backup : gmap text VariableT)
    (vs : gmap text VariableT) : gmap text VariableT :=
  match ps with
  | [] => vs
  | paramName :: ps' =>
      let vs := delete paramName vs in
      let vs := match backup !! paramName with
                | Some bkp => <[paramName := bkp]> vs
                | None => vs
                end in
      restoreParams ps' backup vs
  end.

(** ** Tokens *)

Inductive TokenType :=
| TokenNumber | TokenIdent | TokenPlus | TokenMinus | TokenStar | TokenSlash
| TokenLParen | TokenRParen | TokenComma | TokenEOF | TokenError.

Record Token := { typ : TokenType; tokValue : text }.

Record Lexer := { input : text; pos : nat }.

Definition NewLexer (s : text) : Lexer := {| input := s; pos := 0 |}.

(** The rune a call returns is used nowhere in the program; only the new
    state of the lexer is kept. *)
Definition nextRune (l : Lexer) : Lexer :=
  if Nat.leb (length (input l)) (pos l) then l
  else {| input := input l; pos := S (pos l) |}.

Definition peekRune (l : Lexer) : rune := nth (pos l) (input l) 0%Z.

(** Number of runes not yet read; it bounds every loop of the lexer, and when
    it is [0], [peekRune] is [0], on which each loop condition is false. *)
Definition remaining (l : Lexer) : nat := length (input l) - pos l.

Fixpoint skipSpaces (n : nat) (l : Lexer) : Lexer :=
  match n with
  | O => l
  | S n' => if IsSpace (peekRune l) then skipSpaces n' (nextRune l) else l
  end.

(** Messages of the parser. *)
Definition msgBadNumber : text := Eval vm_compute in lit "Невозможно преобразовать число: ".
Definition msgCallParen : text := Eval vm_compute in lit "Ожидалась закрывающая скобка в вызове функции".
Definition msgParen : text := Eval vm_compute in lit "Ожидалась закрывающая скобка )".
Definition msgUnexpected : text := Eval vm_compute in lit "Неожиданный токен: ".
Definition msgArityFunction : text := Eval vm_compute in lit "Функция ".
Definition msgArityExpected : text := Eval vm_compute in lit " ожидала ".
Definition msgArityPassed : text := Eval vm_compute in lit " аргументов, передано ".
Definition msgArity (identName : text) (nparams nargs : nat) : text :=
  msgArityFunction ++ identName ++ msgArityExpected ++ decimal nparams
  ++ msgArityPassed ++ decimal nargs.

(** The state at the start of a run. *)
Definition emptyWorld : World := {| variables := ∅; functions := ∅; stdout := [] |}.

(** Tables that know no letter and no digit above Latin-1: the instance at
    which statements are exercised on ASCII scripts, which never reach the
    tables. *)
Definition latinOnly : rune -> bool := fun _ => false.

Section Interpreter.

(** The range tables [unicode.Letter] and [unicode.Digit] of Go's standard
    library, consulted for code points above Latin-1 only.  They are not part
    of the program; the development is parametric in them. *)
Variable LetterTable : rune -> bool.
Variable DigitTable : rune -> bool.

Definition IsLetter (r : rune) : bool :=
  if (r <=? MaxLatin1)%Z then latin1Letter r else LetterTable r.

Definition IsDigit (r : rune) : bool :=
  if (r <=? MaxLatin1)%Z then in_range 48 57 r else DigitTable r.

(** ** The lexer *)

Fixpoint scanNumber (n : nat) (dotCount : nat) (l : Lexer) : Lexer :=
  match n with
  | O => l
  | S n' =>
      if IsDigit (peekRune l) || (peekRune l =? 46)%Z then
        if (peekRune l =? 46)%Z then
          let dotCount := S dotCount in
          if Nat.ltb 1 dotCount then l
          else scanNumber n' dotCount (nextRune l)
        else scanNumber n' dotCount (nextRune l)
      else l
  end.

Fixpoint scanIdent (n : nat) (l : Lexer) : Lexer :=
  match n with
  | O => l
  | S n' =>
      if IsLetter (peekRune l) || IsDigit (peekRune l) || (peekRune l =? 95)%Z
      then scanIdent n' (nextRune l)
      else l
  end.

Definition NextToken (l : Lexer) : Token * Lexer :=
  let l := skipSpaces (remaining l) l in
  let r := peekRune l in
  if (r =? 0)%Z then ({| typ := TokenEOF; tokValue := [] |}, l)
  else if (r =? 43)%Z then ({| typ := TokenPlus; tokValue := [r] |}, nextRune l)
  else if (r =? 45)%Z then ({| typ := TokenMinus; tokValue := [r] |}, nextRune l)
  else if (r =? 42)%Z then ({| typ := TokenStar; tokValue := [r] |}, nextRune l)
  else if (r =? 47)%Z then ({| typ := TokenSlash; tokValue := [r] |}, nextRune l)
  else if (r =? 40)%Z then ({| typ := TokenLParen; tokValue := [r] |}, nextRune l)
  else if (r =? 41)%Z then ({| typ := TokenRParen; tokValue := [r] |}, nextRune l)
  else if (r =? 44)%Z then ({| typ := TokenComma; tokValue := [r] |}, nextRune l)
  else if IsDigit r then
    let startPos := pos l in
    let l := scanNumber (remaining l) 0 l in
    ({| typ := TokenNumber; tokValue := slice (input l) startPos (pos l) |}, l)
  else if IsLetter r || (r =? 95)%Z then
    let startPos := pos l in
    let l := scanIdent (remaining l) l in
    ({| typ := TokenIdent; tokValue := slice (input l) startPos (pos l) |}, l)
  else ({| typ := TokenError; tokValue := [r] |}, l).

(** ** The parser, which evaluates as it goes *)

Record Parser := { lexer : Lexer; curr : Token; errMsg : text }.

Definition next (p : Parser) : Parser :=
  let (t, l) := NextToken (lexer p) in
  {| lexer := l; curr := t; errMsg := errMsg p |}.

Definition NewParser (s : text) : Parser :=
  next {| lexer := NewLexer s;
          curr := {| typ := TokenNumber; tokValue := [] |};
          errMsg := [] |}.

Definition error (msg : text) (p : Parser) : Parser :=
  {| lexer := lexer p; curr := curr p; errMsg := msg |}.

(** The quotient computed in [parseTerm]. *)
Definition divide (val right0 : float) : float :=
  if (right0 =? 0)%float then (val / 0)%float else (val / right0)%float.

Definition isPlusMinus (t : TokenType) : bool :=
  match t with TokenPlus | TokenMinus => true | _ => false end.

Definition isStarSlash (t : TokenType) : bool :=
  match t with TokenStar | TokenSlash => true | _ => false end.

Definition isRParen (t : TokenType) : bool :=
  match t with TokenRParen => true | _ => false end.

(** [parseExpressionLoop], [parseTermLoop] and [parseArgs] are the [for]
    loops of [parseExpression], [parseTerm] and [parseFactor]; [val] and
    [args] are the loop variables.  Each call, of a function or of a loop
    iteration, takes one unit of fuel. *)
Fixpoint parseExpression (fuel : nat) (p : Parser) (w : World) {struct fuel}
    : option (float * Parser * World) :=
  match fuel with
  | O => None
  | S fuel =>
      match parseTerm fuel p w with
      | Some (val, p, w) => parseExpressionLoop fuel val p w
      | None => None
      end
  end
with parseExpressionLoop (fuel : nat) (val : float) (p : Parser) (w : World) {struct fuel}
    : option (float * Parser * World) :=
  match fuel with
  | O => None
  | S fuel =>
      if isPlusMinus (typ (curr p)) then
        let op := typ (curr p) in
        let p := next p in
        match parseTerm fuel p w with
        | Some (right0, p, w) =>
            let val := match op with
                       | TokenPlus => (val + right0)%float
                       | _ => (val - right0)%float
                       end in
            parseExpressionLoop fuel val p w
        | None => None
        end
      else Some (val, p, w)
  end
with parseTerm (fuel : nat) (p : Parser) (w : World) {struct fuel}
    : option (float * Parser * World) :=
  match fuel with
  | O => None
  | S fuel =>
      match parseFactor fuel p w with
      | Some (val, p, w) => parseTermLoop fuel val p w
      | None => None
      end
  end
with parseTermLoop (fuel : nat) (val : float) (p : Parser) (w : World) {struct fuel}
    : option (float * Parser * World) :=
  match fuel with
  | O => None
  | S fuel =>
      if isStarSlash (typ (curr p)) then
        let op := typ (curr p) in
        let p := next p in
        match parseFactor fuel p w with
        | Some (right0, p, w) =>
            let val := match op with
                       | TokenStar => (val * right0)%float
                       | _ => divide val right0
                       end in
            parseTermLoop fuel val p w
        | None => None
        end
      else Some (val, p, w)
  end
with parseFactor (fuel : nat) (p : Parser) (w : World) {struct fuel}
    : option (float * Parser * World) :=
  match fuel with
  | O => None
  | S fuel =>
      match typ (curr p) with
      | TokenNumber =>
          match ParseFloat (tokValue (curr p)) with
          | None => Some (0%float, error (msgBadNumber ++ tokValue (curr p)) p, w)
          | Some f => Some (f, next p, w)
          end
      | TokenIdent =>
          let identName := tokValue (curr p) in
          let p := next p in
          match typ (curr p) with
          | TokenLParen =>
              let p := next p in
              match (if isRParen (typ (curr p)) then Some ([], p, w)
                     else parseArgs fuel [] p w) with
              | None => None
              | Some (args, p, w) =>
                  if negb (isRParen (typ (curr p))) then
                    Some (0%float, error msgCallParen p, w)
                  else
                    let p := next p in
                    match getFunction identName w with
                    | None => Some (0%float, p, print (UndeclaredFunction identName) w)
                    | Some fn =>
                        if negb (Nat.eqb (length (params fn)) (length args)) then
                          Some (0%float,
                                error (msgArity identName (length (params fn)) (length args)) p,
                                w)
                        else
                          match evaluateFunction fuel fn args w with
                          | Some (val, w) => Some (val, p, w)
                          | None => None
                          end
                    end
              end
          | _ =>
              match getVariable identName w with
              | None => Some (0%float, p, print (UndeclaredVariable identName) w)
              | Some v => Some (value v, p, w)
              end
          end
      | TokenLParen =>
          let p := next p in
          match parseExpression fuel p w with
          | None => None
          | Some (val, p, w) =>
              if negb (isRParen (typ (curr p))) then Some (val, error msgParen p, w)
              else Some (val, next p, w)
          end
      | _ => Some (0%float, error (msgUnexpected ++ tokValue (curr p)) p, w)
      end
  end
with parseArgs (fuel : nat) (args : list float) (p : Parser) (w : World) {struct fuel}
    : option (list float * Parser * World) :=
  match fuel with
  | O => None
  | S fuel =>
      match parseExpression fuel p w with
      | None => None
      | Some (argVal, p, w) =>
          let args := args ++ [argVal] in
          match typ (curr p) with
          | TokenComma => parseArgs fuel args (next p) w
          | _ => Some (args, p, w)
          end
      end
  end
with evaluateFunction (fuel : nat) (fn : FunctionT) (args : list float) (w : World)
    {struct fuel} : option (float * World) :=
  match fuel with
  | O => None
  | S fuel =>
      let (backup, w) := bindParams (params fn) args ∅ w in
      let p := NewParser (expression fn) in
      match parseExpression fuel p w with
      | None => None
      | Some (val, p, w) =>
          let w := match errMsg p with
                   | [] => w
                   | _ :: _ => print (FunctionError (errMsg p)) w
                   end in
          Some (val, withVariables (restoreParams (params fn) backup (variables w)) w)
      end
  end.

Definition evaluateExpression (fuel : nat) (expr : text) (w : World)
    : option (float * bool * World) :=
  let p := NewParser expr in
  match parseExpression fuel p w with
  | None => None
  | Some (val, p, w) =>
      match errMsg p with
      | [] => Some (val, true, w)
      | _ :: _ => Some (0%float, false, print (ExpressionError (errMsg p)) w)
      end
  end.

(** ** Statements *)

Definition kwPrint : text := Eval vm_compute in lit "print".
Definition semicolon : text := Eval vm_compute in lit ";".
Definition colon : text := Eval vm_compute in lit ":".
Definition lparen : text := Eval vm_compute in lit "(".
Definition rparen : text := Eval vm_compute in lit ")".
Definition comma : text := Eval vm_compute in lit ",".
Definition rparenEquals : text := Eval vm_compute in lit ")=".
Definition equals : text := Eval vm_compute in lit "=".
Definition tagInt : text := Eval vm_compute in lit "i".
Definition tagFloat : text := Eval vm_compute in lit "f".

(** The line as [processLine] dispatches on it: trimmed, one trailing [;]
    removed, trimmed again. *)
Definition stripLine (line : text) : text :=
  let line := if HasSuffix line semicolon then take (length line - 1) line else line in
  TrimSpace line.

(** [fmt.Printf] of one variable, in [print]. *)
Definition printVariable (name : text) (v : VariableT) (w : World) : World :=
  if isInt v then print (PrintInt name (int64 (value v))) w
  else print (PrintFloat name (value v)) w.

(** Block 1 of [processLine], the [print] statement; [line] starts with
    [print].  The order in which Go ranges over a map is unspecified; the
    listing is given in the order of [map_to_list]. *)
Definition printStatement (line : text) (w : World) : World :=
  let rest := TrimSpace (drop (length kwPrint) line) in
  match rest with
  | [] =>
      fold_left (fun w nv => printVariable (fst nv) (snd nv) w)
                (map_to_list (variables w)) (print ListHeader w)
  | _ :: _ =>
      let rest := TrimSpace rest in
      let rest := match rest with
                  | r :: rest' => if (r =? 61)%Z then TrimSpace rest' else rest
                  | [] => rest
                  end in
      let varName := rest in
      match getVariable varName w with
      | Some v => printVariable varName v w
      | None => print (NotDeclared varName) w
      end
  end.

(** Block 2, the definition of a function; [line] contains [:]. *)
Definition functionDefinition (line : text) (w : World) : World :=
  let parts := SplitN2 line colon in
  let left0 := TrimSpace (nth 0 parts []) in
  let right0 := TrimSpace (nth 1 parts []) in
  let idxOpenParen := Index left0 lparen in
  let idxCloseParen := Index left0 rparen in
  if (idxOpenParen =? -1)%Z || (idxCloseParen =? -1)%Z || (idxCloseParen <? idxOpenParen)%Z
  then print (BadFunctionFormat line) w
  else
    let funcName := TrimSpace (take (Z.to_nat idxOpenParen) left0) in
    let paramsStr := slice left0 (Z.to_nat idxOpenParen + 1) (Z.to_nat idxCloseParen) in
    let paramsStr := TrimSpace paramsStr in
    let paramNames := match paramsStr with
                      | [] => []
                      | _ :: _ => map TrimSpace (Split paramsStr comma)
                      end in
    setFunction funcName paramNames right0 w.

(** The name a typed initialization writes to, its type tag and its
    expression. *)
Definition typedTarget (line : text) : text :=
  let left0 := nth 0 (SplitN2 line rparenEquals) [] in
  TrimSpace (take (Z.to_nat (Index left0 lparen)) left0).

Definition typedTag (line : text) : text :=
  let left0 := nth 0 (SplitN2 line rparenEquals) [] in
  TrimSpace (drop (Z.to_nat (Index left0 lparen) + 1) left0).

Definition typedExpr (line : text) : text :=
  TrimSpace (nth 1 (SplitN2 line rparenEquals) []).

(** Block 3, the initialization with a type; [line] contains [)=]. *)
Definition typedInitialization (fuel : nat) (line : text) (w : World) : option World :=
  let parts := SplitN2 line rparenEquals in
  let left0 := nth 0 parts [] in
  let right0 := typedExpr line in
  let idxOpenParen := Index left0 lparen in
  if (idxOpenParen =? -1)%Z then Some (print (BadInitFormat line) w)
  else
    let varName := typedTarget line in
    let typeChar := typedTag line in
    match evaluateExpression fuel right0 w with
    | None => None
    | Some (val, ok, w) =>
        if negb ok then Some w
        else if text_eqb typeChar tagInt then Some (setVariable varName true val w)
        else if text_eqb typeChar tagFloat then Some (setVariable varName false val w)
        else Some (print (UnknownType typeChar) w)
    end.

(** The name a plain assignment writes to. *)
Definition assignTarget (line : text) : text :=
  TrimSpace (nth 0 (SplitN2 line equals) []).

(** The expression of a plain assignment. *)
Definition assignExpr (line : text) : text :=
  TrimSpace (nth 1 (SplitN2 line equals) []).

(** Block 4, the plain assignment; [line] contains [=]. *)
Definition plainAssignment (fuel : nat) (line : text) (w : World) : option World :=
  let varName := assignTarget line in
  let expr := assignExpr line in
  match evaluateExpression fuel expr w with
  | None => None
  | Some (val, ok, w) =>
      if negb ok then Some w
      else
        match getVariable varName w with
        | Some v =>
            if isInt v
            then Some (withVariables
                         (<[varName := {| isInt := isInt v; value := truncate val |}]> (variables w)) w)
            else Some (withVariables
                         (<[varName := {| isInt := isInt v; value := val |}]> (variables w)) w)
        | None =>
            let isInt0 := (truncate val =? val)%float in
            Some (setVariable varName isInt0 val w)
        end
  end.

Definition processLine (fuel : nat) (line : text) (w : World) : option World :=
  let line := TrimSpace line in
  match line with
  | [] => Some w
  | _ :: _ =>
      let line := stripLine line in
      if HasPrefix line kwPrint then Some (printStatement line w)
      else if Contains line colon then Some (functionDefinition line w)
      else if Contains line rparenEquals then typedInitialization fuel line w
      else if Contains line equals then plainAssignment fuel line w
      else Some (print (CannotParse line) w)
  end.

(** A script: the lines are processed in order. *)
Fixpoint processLines (fuel : nat) (lines : list text) (w : World) : option World :=
  match lines with
  | [] => Some w
  | line :: lines' =>
      match processLine fuel line w with
      | Some w => processLines fuel lines' w
      | None => None
      end
  end.

(** The argument list of a call, read by [parseFactor] once it stands behind
    the opening parenthesis. *)
Definition callArguments (fuel : nat) (p : Parser) (w : World)
    : option (list float * Parser * World) :=
  if isRParen (typ (curr p)) then Some ([], p, w) else parseArgs fuel [] p w.

(** ** Scripts used as examples *)

Definition run (fuel : nat) (lines : list text) : option World :=
  processLines fuel lines emptyWorld.

Definition variableOf (name : string) (w : option World) : option VariableT :=
  w ≫= (fun w => variables w !! lit name).

Arguments variableOf name%_string w.

Definition number (isInt0 : bool) (val : float) : VariableT :=
  {| isInt := isInt0; value := val |}.

(** A parser operation keeps a recorded error recorded. *)
Definition sticky {A : Type} (f : Parser -> World -> option (A * Parser * World)) : Prop :=
  forall p w v p' w', f p w = Some (v, p', w') -> errMsg p <> [] -> errMsg p' <> [].

(** Every function of the store has pairwise distinct parameter names. *)
Definition distinctParams (w : World) : Prop :=
  forall name fn, functions w !! name = Some fn -> NoDup (params fn).

(** [w'] has the functions of [w], and its variables when the parameters of
    all functions are distinct. *)
Definition sameStore (w w' : World) : Prop :=
  functions w' = functions w /\ (distinctParams w -> variables w' = variables w).

Definition preserving {A : Type} (f : Parser -> World -> option (A * Parser * World)) : Prop :=
  forall p w v p' w', f p w = Some (v, p', w') -> sameStore w w'.

(** The runes the lexer knows: white space, the seven one-rune tokens,
    digits, letters and the underscore. *)
Definition recognized (r : rune) : bool :=
  IsSpace r
  || (r =? 43)%Z || (r =? 45)%Z || (r =? 42)%Z || (r =? 47)%Z
  || (r =? 40)%Z || (r =? 41)%Z || (r =? 44)%Z
  || IsDigit r || IsLetter r || (r =? 95)%Z.

(** [g] returns whatever [f] returns. *)
Definition extends {S A : Type} (f g : S -> World -> option A) : Prop :=
  forall p w r, f p w = Some r -> g p w = Some r.

(** ** Notions used by the further properties *)

(** Every operation of the parser relates the world it starts in to the world
    it ends in by [R]. *)
Definition respects {A : Type} (R : World -> World -> Prop)
    (f : Parser -> World -> option (A * Parser * World)) : Prop :=
  forall p w v p' w', f p w = Some (v, p', w') -> R w w'.

(** Every variable of [w] is a variable of [w'], with the same flag. *)
Definition keepsFlags (w w' : World) : Prop :=
  forall name v, variables w !! name = Some v ->
    exists v', variables w' !! name = Some v' /\ isInt v' = isInt v.

(** Every integer variable of the map holds some [float64(int64(x))]. *)
Definition integersConverted (vs : gmap text VariableT) : Prop :=
  forall name v, vs !! name = Some v -> isInt v = true -> exists x, value v = truncate x.

(** [w'] has the output of [w], followed by more. *)
Definition outputGrows (w w' : World) : Prop :=
  exists out, stdout w' = stdout w ++ out.

(** The tokens on which the lexer does not move: the end and an error. *)
Definition isEndToken (t : TokenType) : bool :=
  match t with TokenEOF | TokenError => true | _ => false end.

(** The runes of an identifier and of a number. *)
Definition identRune (r : rune) : bool := IsLetter r || IsDigit r || (r =? 95)%Z.

Definition numberRune (r : rune) : bool := IsDigit r || (r =? 46)%Z.

Fixpoint countDots (s : text) : nat :=
  match s with
  | [] => 0
  | r :: s' => (if (r =? 46)%Z then 1 else 0) + countDots s'
  end.

(** ** Expressions without calls, as the grammar of the source has them

    The comment above the parser reads [expr = term { ("+" | "-") term }],
    [term = factor { ("*" | "/") factor }], [factor = number | ident |
    "(" expr ")"].  The types below are the derivations of that grammar, with
    the repetitions as lists of their own. *)
Inductive Expr :=
| MkExpr (t : Term) (rest : ExprRest)
with ExprRest :=
| ExprEnd
| PlusThen (t : Term) (rest : ExprRest)
| MinusThen (t : Term) (rest : ExprRest)
with Term :=
| MkTerm (f : Factor) (rest : TermRest)
with TermRest :=
| TermEnd
| TimesThen (f : Factor) (rest : TermRest)
| DivThen (f : Factor) (rest : TermRest)
with Factor :=
| Number (tok : text)
| Var (name : text)
| Paren (e : Expr).

Scheme Expr_mut := Induction for Expr Sort Prop
  with ExprRest_mut := Induction for ExprRest Sort Prop
  with Term_mut := Induction for Term Sort Prop
  with TermRest_mut := Induction for TermRest Sort Prop
  with Factor_mut := Induction for Factor Sort Prop.

Combined Scheme Expr_mutind from Expr_mut, ExprRest_mut, Term_mut, TermRest_mut, Factor_mut.

Definition token (t : TokenType) (s : string) : Token := {| typ := t; tokValue := lit s |}.

Arguments token t s%_string.

(** The tokens of a derivation, in the order of the input. *)
Fixpoint tokensExpr (e : Expr) : list Token :=
  match e with MkExpr t rest => tokensTerm t ++ tokensExprRest rest end
with tokensExprRest (r : ExprRest) : list Token :=
  match r with
  | ExprEnd => []
  | PlusThen t rest => token TokenPlus "+" :: tokensTerm t ++ tokensExprRest rest
  | MinusThen t rest => token TokenMinus "-" :: tokensTerm t ++ tokensExprRest rest
  end
with tokensTerm (t : Term) : list Token :=
  match t with MkTerm f rest => tokensFactor f ++ tokensTermRest rest end
with tokensTermRest (r : TermRest) : list Token :=
  match r with
  | TermEnd => []
  | TimesThen f rest => token TokenStar "*" :: tokensFactor f ++ tokensTermRest rest
  | DivThen f rest => token TokenSlash "/" :: tokensFactor f ++ tokensTermRest rest
  end
with tokensFactor (f : Factor) : list Token :=
  match f with
  | Number tok => [{| typ := TokenNumber; tokValue := tok |}]
  | Var name => [{| typ := TokenIdent; tokValue := name |}]
  | Paren e => token TokenLParen "(" :: tokensExpr e ++ [token TokenRParen ")"]
  end.

(** The value of a derivation: the repetitions fold from the left. *)
Fixpoint valueExpr (w : World) (e : Expr) : float :=
  match e with MkExpr t rest => valueExprRest w (valueTerm w t) rest end
with valueExprRest (w : World) (val : float) (r : ExprRest) : float :=
  match r with
  | ExprEnd => val
  | PlusThen t rest => valueExprRest w (val + valueTerm w t)%float rest
  | MinusThen t rest => valueExprRest w (val - valueTerm w t)%float rest
  end
with valueTerm (w : World) (t : Term) : float :=
  match t with MkTerm f rest => valueTermRest w (valueFactor w f) rest end
with valueTermRest (w : World) (val : float) (r : TermRest) : float :=
  match r with
  | TermEnd => val
  | TimesThen f rest => valueTermRest w (val * valueFactor w f)%float rest
  | DivThen f rest => valueTermRest w (divide val (valueFactor w f)) rest
  end
with valueFactor (w : World) (f : Factor) : float :=
  match f with
  | Number tok => match ParseFloat tok with Some x => x | None => 0%float end
  | Var name => match variables w !! name with Some v => value v | None => 0%float end
  | Paren e => valueExpr w e
  end.

(** Every number of the derivation converts and every variable is declared. *)
Fixpoint closedExpr (w : World) (e : Expr) : Prop :=
  match e with MkExpr t rest => closedTerm w t /\ closedExprRest w rest end
with closedExprRest (w : World) (r : ExprRest) : Prop :=
  match r with
  | ExprEnd => True
  | PlusThen t rest | MinusThen t rest => closedTerm w t /\ closedExprRest w rest
  end
with closedTerm (w : World) (t : Term) : Prop :=
  match t with MkTerm f rest => closedFactor w f /\ closedTermRest w rest end
with closedTermRest (w : World) (r : TermRest) : Prop :=
  match r with
  | TermEnd => True
  | TimesThen f rest | DivThen f rest => closedFactor w f /\ closedTermRest w rest
  end
with closedFactor (w : World) (f : Factor) : Prop :=
  match f with
  | Number tok => ParseFloat tok <> None
  | Var name => variables w !! name <> None
  | Paren e => closedExpr w e
  end.

(** The parser after [n] calls of [next]. *)
Fixpoint after (n : nat) (p : Parser) : Parser :=
  match n with
  | O => p
  | S n' => after n' (next p)
  end.

(** The tokens [ts] are what the parser holds and reads next. *)
Fixpoint reads (ts : list Token) (p : Parser) : Prop :=
  match ts with
  | [] => True
  | t :: ts' => curr p = t /\ reads ts' (next p)
  end.

(** The tokens at which [parseExpression] returns without a word: whatever
    continues neither a term nor an expression nor a call. *)
Definition endsExpression (t : TokenType) : bool :=
  match t with
  | TokenPlus | TokenMinus | TokenStar | TokenSlash | TokenLParen => false
  | _ => true
  end.

(** The number of parameters of every function of the store. *)
Definition arities (w : World) : gmap text nat :=
  (fun fn => length (params fn)) <$> functions w.

(** Two runs of a parser operation, in worlds whose functions have the same
    arities, leave the parser in the same state. *)
Definition samePath {A : Type}
    (f g : Parser -> World -> option (A * Parser * World)) : Prop :=
  forall p w w' v p1 w1 v' p1' w1',
    arities w = arities w' ->
    f p w = Some (v, p1, w1) -> g p w' = Some (v', p1', w1') ->
    p1 = p1' /\ arities w1 = arities w1'.

(** What the parser has yet to consume: the runes the lexer has not read,
    and the current token when it is one the parser can take. *)
Definition pending (p : Parser) : nat :=
  remaining (lexer p) + (if isEndToken (typ (curr p)) then 0 else 1).

Definition wellPlaced (p : Parser) : Prop :=
  pos (lexer p) <= length (input (lexer p)).

(** [r] is a result, in a world without functions, whose parser has at most
    [m] runes and tokens pending. *)
Definition returns {A : Type} (m : nat) (r : option (A * Parser * World)) : Prop :=
  exists v p' w',
    r = Some (v, p', w') /\ wellPlaced p' /\ pending p' <= m /\ functions w' = ∅.

(** The line is dispatched to the definition of a function. *)
Definition definesFunction (line : text) : bool :=
  match TrimSpace line with
  | [] => false
  | _ :: _ =>
      negb (HasPrefix (stripLine (TrimSpace line)) kwPrint)
      && Contains (stripLine (TrimSpace line)) colon
  end.

(** [strings.Join(elems, sep)], in which the headers of function
    definitions are written down. *)
Fixpoint Join (elems : list text) (sep : text) : text :=
  match elems with
  | [] => []
  | e :: rest =>
      match rest with
      | [] => e
      | _ :: _ => e ++ sep ++ Join rest sep
      end
  end.

(** The runes of which the names in a header are made here: no white space,
    no parenthesis, no comma, no colon. *)
Definition headerRune (r : rune) : bool :=
  negb (IsSpace r || (r =? 40)%Z || (r =? 41)%Z || (r =? 44)%Z || (r =? 58)%Z).

Definition headerName (s : text) : Prop := Forall (fun r => headerRune r = true) s.

(** * Properties *)

(** ** The loops of the lexer run to their end *)

Lemma peekRune_end l : remaining l = 0 -> peekRune l = 0%Z.
Proof.
  unfold remaining, peekRune. intros H. apply nth_overflow. lia.
Qed.

Lemma remaining_nextRune l : peekRune l <> 0%Z -> S (remaining (nextRune l)) = remaining l.
Proof.
  unfold remaining, peekRune, nextRune. intros H.
  destruct (Nat.leb_spec (length (input l)) (pos l)) as [Hle|Hlt].
  - exfalso. apply H. apply nth_overflow. exact Hle.
  - simpl. lia.
Qed.

Lemma skipSpaces_done n : forall l,
  remaining l <= n -> IsSpace (peekRune (skipSpaces n l)) = false.
Proof.
  induction n as [|n IH]; intros l Hn; simpl.
  - rewrite peekRune_end by lia. reflexivity.
  - destruct (IsSpace (peekRune l)) eqn:E; [|exact E].
    apply IH. assert (Hr : peekRune l <> 0%Z) by (intros H0; rewrite H0 in E; discriminate).
    pose proof (remaining_nextRune l Hr). lia.
Qed.

Lemma scanIdent_done n : forall l,
  remaining l <= n ->
  IsLetter (peekRune (scanIdent n l)) || IsDigit (peekRune (scanIdent n l))
  || (peekRune (scanIdent n l) =? 95)%Z = false.
Proof.
  induction n as [|n IH]; intros l Hn; simpl.
  - rewrite peekRune_end by lia. reflexivity.
  - destruct (IsLetter (peekRune l) || IsDigit (peekRune l) || (peekRune l =? 95)%Z) eqn:E;
      [|exact E].
    apply IH. assert (Hr : peekRune l <> 0%Z) by (intros H0; rewrite H0 in E; discriminate).
    pose proof (remaining_nextRune l Hr). lia.
Qed.

(** The scan of a number stops in front of a rune that is neither a digit nor
    a dot, or in front of a dot when [dotCount] dots have gone by. *)
Lemma scanNumber_done n : forall dotCount l,
  remaining l <= n ->
  IsDigit (peekRune (scanNumber n dotCount l)) = false.
Proof.
  induction n as [|n IH]; intros dotCount l Hn; simpl.
  - rewrite peekRune_end by lia. reflexivity.
  - destruct (IsDigit (peekRune l)) eqn:Ed; simpl.
    + assert (Hr : peekRune l <> 0%Z) by (intros H0; rewrite H0 in Ed; discriminate).
      pose proof (remaining_nextRune l Hr).
      destruct (peekRune l =? 46)%Z eqn:E46.
      * apply Z.eqb_eq in E46. rewrite E46 in Ed. discriminate.
      * apply IH. lia.
    + destruct (peekRune l =? 46)%Z eqn:E46; [|exact Ed].
      destruct (Nat.ltb 1 (S dotCount)); [exact Ed|].
      apply IH. apply Z.eqb_eq in E46.
      assert (Hr : peekRune l <> 0%Z) by (rewrite E46; discriminate).
      pose proof (remaining_nextRune l Hr). lia.
Qed.

(** A rune the lexer does not know, other than U+0000, gives an error token
    that holds it, and the lexer stays in front of it. *)
Lemma NextToken_unrecognized l :
  peekRune (skipSpaces (remaining l) l) <> 0%Z ->
  recognized (peekRune (skipSpaces (remaining l) l)) = false ->
  NextToken l
  = ({| typ := TokenError; tokValue := [peekRune (skipSpaces (remaining l) l)] |},
     skipSpaces (remaining l) l).
Proof.
  intros H0 Hr. unfold NextToken, recognized in *.
  set (r := peekRune (skipSpaces (remaining l) l)) in *.
  apply Z.eqb_neq in H0. rewrite H0.
  repeat (apply orb_false_iff in Hr; destruct Hr as [Hr ?]).
  repeat match goal with H : _ = false |- _ => rewrite H; clear H end.
  reflexivity.
Qed.

(** U+0000 in the input reads as the end of the input. *)
Lemma NextToken_nul l :
  peekRune (skipSpaces (remaining l) l) = 0%Z ->
  NextToken l = ({| typ := TokenEOF; tokValue := [] |}, skipSpaces (remaining l) l).
Proof. intros H. unfold NextToken. rewrite H. reflexivity. Qed.

(** ** Unfolding equations of the evaluator *)

Lemma parseExpression_S fuel p w :
  parseExpression (S fuel) p w =
  match parseTerm fuel p w with
  | Some (val, p, w) => parseExpressionLoop fuel val p w
  | None => None
  end.
Proof. reflexivity. Qed.

Lemma parseExpressionLoop_S fuel val p w :
  parseExpressionLoop (S fuel) val p w =
  if isPlusMinus (typ (curr p)) then
    match parseTerm fuel (next p) w with
    | Some (right0, p', w') =>
        parseExpressionLoop fuel
          (match typ (curr p) with
           | TokenPlus => (val + right0)%float
           | _ => (val - right0)%float
           end) p' w'
    | None => None
    end
  else Some (val, p, w).
Proof. reflexivity. Qed.

Lemma parseTerm_S fuel p w :
  parseTerm (S fuel) p w =
  match parseFactor fuel p w with
  | Some (val, p, w) => parseTermLoop fuel val p w
  | None => None
  end.
Proof. reflexivity. Qed.

Lemma parseTermLoop_S fuel val p w :
  parseTermLoop (S fuel) val p w =
  if isStarSlash (typ (curr p)) then
    match parseFactor fuel (next p) w with
    | Some (right0, p', w') =>
        parseTermLoop fuel
          (match typ (curr p) with
           | TokenStar => (val * right0)%float
           | _ => divide val right0
           end) p' w'
    | None => None
    end
  else Some (val, p, w).
Proof. reflexivity. Qed.

Lemma parseArgs_S fuel args p w :
  parseArgs (S fuel) args p w =
  match parseExpression fuel p w with
  | None => None
  | Some (argVal, p, w) =>
      match typ (curr p) with
      | TokenComma => parseArgs fuel (args ++ [argVal]) (next p) w
      | _ => Some (args ++ [argVal], p, w)
      end
  end.
Proof. reflexivity. Qed.

Lemma evaluateFunction_S fuel fn args w :
  evaluateFunction (S fuel) fn args w =
  match parseExpression fuel (NewParser (expression fn))
          (snd (bindParams (params fn) args ∅ w)) with
  | None => None
  | Some (val, p, w1) =>
      let w2 := match errMsg p with
                | [] => w1
                | _ :: _ => print (FunctionError (errMsg p)) w1
                end in
      Some (val, withVariables
                   (restoreParams (params fn) (fst (bindParams (params fn) args ∅ w))
                      (variables w2)) w2)
  end.
Proof. simpl. destruct (bindParams (params fn) args ∅ w). reflexivity. Qed.

Lemma parseFactor_S fuel p w :
  parseFactor (S fuel) p w =
  match typ (curr p) with
  | TokenNumber =>
      match ParseFloat (tokValue (curr p)) with
      | None => Some (0%float, error (msgBadNumber ++ tokValue (curr p)) p, w)
      | Some f => Some (f, next p, w)
      end
  | TokenIdent =>
      match typ (curr (next p)) with
      | TokenLParen =>
          match callArguments fuel (next (next p)) w with
          | None => None
          | Some (args, p2, w2) =>
              if negb (isRParen (typ (curr p2))) then
                Some (0%float, error msgCallParen p2, w2)
              else
                match getFunction (tokValue (curr p)) w2 with
                | None =>
                    Some (0%float, next p2, print (UndeclaredFunction (tokValue (curr p))) w2)
                | Some fn =>
                    if negb (Nat.eqb (length (params fn)) (length args)) then
                      Some (0%float,
                            error (msgArity (tokValue (curr p)) (length (params fn))
                                     (length args)) (next p2),
                            w2)
                    else
                      match evaluateFunction fuel fn args w2 with
                      | Some (val, w3) => Some (val, next p2, w3)
                      | None => None
                      end
                end
          end
      | _ =>
          match getVariable (tokValue (curr p)) w with
          | None =>
              Some (0%float, next p, print (UndeclaredVariable (tokValue (curr p))) w)
          | Some v => Some (value v, next p, w)
          end
      end
  | TokenLParen =>
      match parseExpression fuel (next p) w with
      | None => None
      | Some (val, p1, w1) =>
          if negb (isRParen (typ (curr p1))) then Some (val, error msgParen p1, w1)
          else Some (val, next p1, w1)
      end
  | _ => Some (0%float, error (msgUnexpected ++ tokValue (curr p)) p, w)
  end.
Proof. reflexivity. Qed.

(** ** More fuel changes no result *)

Ltac more_fuel IH E :=
  match type of E with
  | ?f ?p ?w = Some ?r => rewrite (IH p w r E)
  end.

Lemma fuel_step fuel :
  extends (parseExpression fuel) (parseExpression (S fuel))
  /\ (forall val, extends (parseExpressionLoop fuel val) (parseExpressionLoop (S fuel) val))
  /\ extends (parseTerm fuel) (parseTerm (S fuel))
  /\ (forall val, extends (parseTermLoop fuel val) (parseTermLoop (S fuel) val))
  /\ extends (parseFactor fuel) (parseFactor (S fuel))
  /\ (forall args, extends (parseArgs fuel args) (parseArgs (S fuel) args))
  /\ (forall fn, extends (evaluateFunction fuel fn) (evaluateFunction (S fuel) fn)).
Proof.
  induction fuel as [|n (IHe & IHel & IHt & IHtl & IHf & IHa & IHc)].
  { repeat split; repeat intro; discriminate. }
  split; [|split; [|split; [|split; [|split; [|split]]]]];
    [intros p w r H|intros val0 p w r H
    |intros p w r H|intros val0 p w r H
    |intros p w r H|intros val0 p w r H
    |intros fn args w r H].
  - rewrite parseExpression_S in H. rewrite parseExpression_S.
    destruct (parseTerm n p w) as [[[v1 p1] w1]|] eqn:E; [|discriminate].
    more_fuel IHt E. apply IHel. exact H.
  - rewrite parseExpressionLoop_S in H. rewrite parseExpressionLoop_S.
    destruct (isPlusMinus _); [|exact H].
    destruct (parseTerm n (next p) w) as [[[v1 p1] w1]|] eqn:E; [|discriminate].
    more_fuel IHt E. apply IHel. exact H.
  - rewrite parseTerm_S in H. rewrite parseTerm_S.
    destruct (parseFactor n p w) as [[[v1 p1] w1]|] eqn:E; [|discriminate].
    more_fuel IHf E. apply IHtl. exact H.
  - rewrite parseTermLoop_S in H. rewrite parseTermLoop_S.
    destruct (isStarSlash _); [|exact H].
    destruct (parseFactor n (next p) w) as [[[v1 p1] w1]|] eqn:E; [|discriminate].
    more_fuel IHf E. apply IHtl. exact H.
  - rewrite parseFactor_S in H. rewrite parseFactor_S.
    destruct (typ (curr p)); try exact H.
    + destruct (typ (curr (next p))); try exact H.
      destruct (callArguments n (next (next p)) w) as [[[args p2] w2]|] eqn:E;
        [|discriminate].
      assert (E' : callArguments (S n) (next (next p)) w = Some (args, p2, w2)).
      { unfold callArguments in *.
        destruct (isRParen (typ (curr (next (next p))))); [exact E|].
        apply IHa. exact E. }
      rewrite E'.
      destruct (negb (isRParen (typ (curr p2)))); [exact H|].
      destruct (getFunction _ w2) as [fn|]; [|exact H].
      destruct (negb _); [exact H|].
      destruct (evaluateFunction n fn args w2) as [[v3 w3]|] eqn:Ev; [|discriminate].
      rewrite (IHc fn args w2 _ Ev). exact H.
    + destruct (parseExpression n (next p) w) as [[[v1 p1] w1]|] eqn:E; [|discriminate].
      more_fuel IHe E. exact H.
  - rewrite parseArgs_S in H. rewrite parseArgs_S.
    destruct (parseExpression n p w) as [[[v1 p1] w1]|] eqn:E; [|discriminate].
    more_fuel IHe E.
    destruct (typ (curr p1)); try exact H. apply IHa. exact H.
  - rewrite evaluateFunction_S in H. rewrite evaluateFunction_S.
    destruct (parseExpression n _ _) as [[[v1 p1] w1]|] eqn:E; [|discriminate].
    more_fuel IHe E. exact H.
Qed.

Lemma parseExpression_more_fuel n m p w r :
  n <= m -> parseExpression n p w = Some r -> parseExpression m p w = Some r.
Proof.
  intros Hle. induction Hle as [|m Hle IH]; [auto|].
  intros H. apply (proj1 (fuel_step m)). apply IH. exact H.
Qed.

Lemma evaluateExpression_more_fuel n m expr w r :
  n <= m -> evaluateExpression n expr w = Some r -> evaluateExpression m expr w = Some r.
Proof.
  intros Hle H. unfold evaluateExpression in *.
  destruct (parseExpression n (NewParser expr) w) as [[[v p] w1]|] eqn:E; [|discriminate].
  rewrite (parseExpression_more_fuel n m _ _ _ Hle E). exact H.
Qed.

Lemma processLine_more_fuel n m line w w' :
  n <= m -> processLine n line w = Some w' -> processLine m line w = Some w'.
Proof.
  intros Hle. unfold processLine.
  destruct (TrimSpace line); [auto|].
  destruct (HasPrefix _ kwPrint); [auto|].
  destruct (Contains _ colon); [auto|].
  destruct (Contains _ rparenEquals).
  - unfold typedInitialization.
    destruct (Index _ lparen =? -1)%Z; [auto|].
    destruct (evaluateExpression n _ w) as [[[v ok] w1]|] eqn:E; [|discriminate].
    rewrite (evaluateExpression_more_fuel n m _ _ _ Hle E). auto.
  - destruct (Contains _ equals); [|auto].
    unfold plainAssignment.
    destruct (evaluateExpression n _ w) as [[[v ok] w1]|] eqn:E; [|discriminate].
    rewrite (evaluateExpression_more_fuel n m _ _ _ Hle E). auto.
Qed.

(** ** The error message of a parser *)

Lemma errMsg_next p : errMsg (next p) = errMsg p.
Proof. unfold next. destruct (NextToken (lexer p)). reflexivity. Qed.

Lemma errMsg_error msg p : errMsg (error msg p) = msg.
Proof. reflexivity. Qed.

Lemma msgArity_nonempty name n m : msgArity name n m <> [].
Proof. discriminate. Qed.

Ltac sticky_close H Hnext :=
  inversion H; subst;
  first [ discriminate | apply msgArity_nonempty | apply Hnext; assumption | assumption ].

Lemma sticky_evaluator fuel :
  sticky (parseExpression fuel)
  /\ (forall val, sticky (parseExpressionLoop fuel val))
  /\ sticky (parseTerm fuel)
  /\ (forall val, sticky (parseTermLoop fuel val))
  /\ sticky (parseFactor fuel)
  /\ (forall args, sticky (parseArgs fuel args)).
Proof.
  induction fuel as [|n (IHe & IHel & IHt & IHtl & IHf & IHa)].
  { repeat split; intros; intros ? ? ? ? ? H; discriminate H. }
  assert (Hnext : forall p, errMsg p <> [] -> errMsg (next p) <> []).
  { intros p Hp. rewrite errMsg_next. exact Hp. }
  split; [|split; [|split; [|split; [|split]]]];
    [|intros val0| |intros val0| |intros val0]; intros p w v p' w' H Hp.
  - rewrite parseExpression_S in H.
    destruct (parseTerm n p w) as [[[v1 p1] w1]|] eqn:E; [|discriminate].
    eapply IHel; [exact H|]. eapply IHt; eauto.
  - rewrite parseExpressionLoop_S in H.
    destruct (isPlusMinus _); [|congruence].
    destruct (parseTerm n (next p) w) as [[[v1 p1] w1]|] eqn:E; [|discriminate].
    eapply IHel; [exact H|]. eapply IHt; eauto.
  - rewrite parseTerm_S in H.
    destruct (parseFactor n p w) as [[[v1 p1] w1]|] eqn:E; [|discriminate].
    eapply IHtl; [exact H|]. eapply IHf; eauto.
  - rewrite parseTermLoop_S in H.
    destruct (isStarSlash _); [|congruence].
    destruct (parseFactor n (next p) w) as [[[v1 p1] w1]|] eqn:E; [|discriminate].
    eapply IHtl; [exact H|]. eapply IHf; eauto.
  - rewrite parseFactor_S in H.
    destruct (typ (curr p)); try (sticky_close H Hnext; fail).
    + destruct (ParseFloat _); sticky_close H Hnext.
    + destruct (typ (curr (next p)));
        try (destruct (getVariable _ w); sticky_close H Hnext; fail).
      destruct (callArguments n (next (next p)) w) as [[[args p2] w2]|] eqn:E;
        [|discriminate].
      assert (Hp2 : errMsg p2 <> []).
      { unfold callArguments in E.
        destruct (isRParen (typ (curr (next (next p))))).
        - inversion E; subst. auto.
        - eapply IHa; eauto. }
      destruct (negb (isRParen (typ (curr p2)))); [sticky_close H Hnext|].
      destruct (getFunction _ w2); [|sticky_close H Hnext].
      destruct (negb _); [sticky_close H Hnext|].
      destruct (evaluateFunction n _ _ _) as [[v3 w3]|]; sticky_close H Hnext.
    + destruct (parseExpression n (next p) w) as [[[v1 p1] w1]|] eqn:E; [|discriminate].
      assert (Hp1 : errMsg p1 <> []) by (eapply IHe; eauto).
      destruct (negb _); sticky_close H Hnext.
  - rewrite parseArgs_S in H.
    destruct (parseExpression n p w) as [[[v1 p1] w1]|] eqn:E; [|discriminate].
    assert (Hp1 : errMsg p1 <> []) by (eapply IHe; eauto).
    destruct (typ (curr p1)); try (inversion H; subst; auto; fail).
    eapply IHa; [exact H|]. auto.
Qed.

(** ** Writing a variable *)

Lemma setVariable_existing name isInt0 val w v :
  variables w !! name = Some v ->
  variables (setVariable name isInt0 val w) !! name
  = Some (number (isInt v) (if isInt v then truncate val else val)).
Proof.
  intros Hv. unfold setVariable. rewrite Hv.
  destruct (isInt v) eqn:E; simpl; rewrite lookup_insert_eq; unfold number; congruence.
Qed.

Lemma setVariable_fresh name isInt0 val w :
  variables w !! name = None ->
  variables (setVariable name isInt0 val w) !! name
  = Some (number isInt0 (if isInt0 then truncate val else val)).
Proof.
  intros Hv. unfold setVariable. rewrite Hv. simpl. rewrite lookup_insert_eq. reflexivity.
Qed.

Lemma setVariable_other name isInt0 val w other :
  name <> other ->
  variables (setVariable name isInt0 val w) !! other = variables w !! other.
Proof.
  intros Hne. unfold setVariable.
  destruct (variables w !! name) as [v|]; [destruct (isInt v)|]; simpl;
    rewrite lookup_insert_ne; auto.
Qed.

Lemma setVariable_functions name isInt0 val w :
  functions (setVariable name isInt0 val w) = functions w.
Proof.
  unfold setVariable.
  destruct (variables w !! name) as [v|]; [destruct (isInt v)|]; reflexivity.
Qed.

Lemma setVariable_stdout name isInt0 val w :
  stdout (setVariable name isInt0 val w) = stdout w.
Proof.
  unfold setVariable.
  destruct (variables w !! name) as [v|]; [destruct (isInt v)|]; reflexivity.
Qed.

(** ** Saving and restoring the parameters of a call *)

Lemma bindParams_frame ps : forall args backup w,
  functions (snd (bindParams ps args backup w)) = functions w
  /\ stdout (snd (bindParams ps args backup w)) = stdout w
  /\ forall k, k ∉ ps ->
       fst (bindParams ps args backup w) !! k = backup !! k
       /\ variables (snd (bindParams ps args backup w)) !! k = variables w !! k.
Proof.
  induction ps as [|x ps IH]; intros args backup w.
  { simpl. repeat split; reflexivity. }
  destruct args as [|a args]; [simpl; repeat split; reflexivity|].
  cbn [bindParams].
  match goal with |- context [bindParams ps args ?b ?w1] =>
    destruct (IH args b w1) as (Hf & Ho & Hk) end.
  rewrite Hf, Ho, setVariable_functions, setVariable_stdout.
  split; [reflexivity|]. split; [reflexivity|].
  intros k Hin. apply not_elem_of_cons in Hin as [Hne Hin].
  destruct (Hk k Hin) as [Hb Hv]. rewrite Hb, Hv.
  split.
  - unfold getVariable. destruct (variables w !! x); [rewrite lookup_insert_ne|]; auto.
  - apply setVariable_other. auto.
Qed.

Lemma bindParams_backup ps : forall args backup w,
  NoDup ps -> length ps = length args ->
  forall k, k ∈ ps ->
    fst (bindParams ps args backup w) !! k
    = match variables w !! k with
      | Some v => Some v
      | None => backup !! k
      end.
Proof.
  induction ps as [|x ps IH]; intros args backup w Hnd Hlen k Hin.
  { apply elem_of_nil in Hin. contradiction. }
  destruct args as [|a args]; [discriminate|].
  apply NoDup_cons in Hnd as [Hx Hnd]. injection Hlen as Hlen.
  cbn [bindParams]. unfold getVariable.
  destruct (decide (k = x)) as [->|Hne].
  - match goal with |- context [bindParams ps args ?b ?w1] =>
      destruct (bindParams_frame ps args b w1) as (_ & _ & Hk) end.
    rewrite (proj1 (Hk x Hx)).
    destruct (variables w !! x) as [[i v]|]; [rewrite lookup_insert_eq|]; reflexivity.
  - apply elem_of_cons in Hin as [Heq|Hin]; [contradiction|].
    rewrite (IH _ _ _ Hnd Hlen k Hin).
    rewrite setVariable_other by auto.
    destruct (variables w !! k); [reflexivity|].
    destruct (variables w !! x); [rewrite lookup_insert_ne|]; auto.
Qed.

(** The binding of a parameter whose name is the name of a variable takes
    the flag of that variable, not the one computed from the argument. *)
Lemma bindParams_existing paramName arg w v :
  variables w !! paramName = Some v ->
  variables (snd (bindParams [paramName] [arg] ∅ w)) !! paramName
  = Some (number (isInt v) (if isInt v then truncate arg else arg)).
Proof. intros Hv. cbn [bindParams snd]. apply setVariable_existing. exact Hv. Qed.

Lemma restoreParams_other ps backup : forall vs k,
  k ∉ ps -> restoreParams ps backup vs !! k = vs !! k.
Proof.
  induction ps as [|x ps IH]; intros vs k Hin; [reflexivity|].
  apply not_elem_of_cons in Hin as [Hne Hin]. cbn [restoreParams].
  rewrite (IH _ k Hin).
  destruct (backup !! x); [rewrite lookup_insert_ne by auto|]; apply lookup_delete_ne; auto.
Qed.

Lemma restoreParams_param ps backup : forall vs k,
  k ∈ ps -> restoreParams ps backup vs !! k = backup !! k.
Proof.
  induction ps as [|x ps IH]; intros vs k Hin.
  { apply elem_of_nil in Hin. contradiction. }
  cbn [restoreParams].
  destruct (decide (k ∈ ps)) as [Hk|Hk]; [apply IH; exact Hk|].
  apply elem_of_cons in Hin as [->|Hin]; [|contradiction].
  rewrite (restoreParams_other _ _ _ _ Hk).
  destruct (backup !! x) eqn:E; [apply lookup_insert_eq|apply lookup_delete_eq].
Qed.

(** A call of a function whose parameter names are distinct leaves every
    parameter name as it was before the call, whatever the body did. *)
Lemma evaluateFunction_restores fuel fn args w val w' :
  NoDup (params fn) ->
  length (params fn) = length args ->
  evaluateFunction fuel fn args w = Some (val, w') ->
  forall name, name ∈ params fn -> variables w' !! name = variables w !! name.
Proof.
  intros Hnd Hlen Hev name Hin. destruct fuel as [|n]; [discriminate|].
  rewrite evaluateFunction_S in Hev.
  destruct (parseExpression n _ _) as [[[v p] w1]|]; [|discriminate].
  inversion Hev; subst. cbn [variables withVariables].
  rewrite (restoreParams_param _ _ _ _ Hin).
  rewrite (bindParams_backup _ _ _ _ Hnd Hlen name Hin).
  rewrite lookup_empty. destruct (variables w !! name); reflexivity.
Qed.

(** ** Evaluation and the store *)

Lemma sameStore_refl w : sameStore w w.
Proof. split; auto. Qed.

Lemma sameStore_trans w1 w2 w3 : sameStore w1 w2 -> sameStore w2 w3 -> sameStore w1 w3.
Proof.
  intros [Hf1 Hv1] [Hf2 Hv2]. split; [congruence|].
  intros Hd. rewrite Hv2, Hv1; auto.
  intros name fn. rewrite Hf1. apply Hd.
Qed.

Lemma sameStore_print o w : sameStore w (print o w).
Proof. split; auto. Qed.

Lemma evaluateFunction_functions n fn args w val w' :
  preserving (parseExpression n) ->
  evaluateFunction (S n) fn args w = Some (val, w') ->
  functions w' = functions w.
Proof.
  intros IHe Hev. rewrite evaluateFunction_S in Hev.
  destruct (bindParams_frame (params fn) args ∅ w) as (Hbf & _ & _).
  destruct (parseExpression n _ _) as [[[v p] w1]|] eqn:E; [|discriminate].
  apply IHe in E as [Hf _].
  inversion Hev; subst. destruct (errMsg p); cbn; congruence.
Qed.

Lemma evaluateFunction_variables n fn args w val w' :
  preserving (parseExpression n) ->
  NoDup (params fn) ->
  length (params fn) = length args ->
  distinctParams w ->
  evaluateFunction (S n) fn args w = Some (val, w') ->
  variables w' = variables w.
Proof.
  intros IHe Hnd Hlen Hd Hev.
  pose proof (evaluateFunction_restores _ _ _ _ _ _ Hnd Hlen Hev) as Hres.
  rewrite evaluateFunction_S in Hev.
  destruct (bindParams_frame (params fn) args ∅ w) as (Hbf & _ & Hbk).
  destruct (parseExpression n _ _) as [[[v p] w1]|] eqn:E; [|discriminate].
  apply IHe in E as [Hf Hv].
  inversion Hev; subst; clear Hev. cbn [functions variables withVariables] in *.
  apply map_eq. intros k.
  destruct (decide (k ∈ params fn)) as [Hk|Hk].
  - rewrite <- (Hres k Hk). reflexivity.
  - rewrite (restoreParams_other _ _ _ _ Hk).
    assert (Hv2 : variables
                    (match errMsg p with
                     | [] => w1
                     | _ :: _ => print (FunctionError (errMsg p)) w1
                     end) = variables w1) by (destruct (errMsg p); reflexivity).
    rewrite Hv2, Hv.
    + apply (Hbk k Hk).
    + intros name fn'. rewrite Hbf. apply Hd.
Qed.

Ltac store_close H :=
  inversion H; subst;
  first [ apply sameStore_refl | apply sameStore_print | assumption ].

(** The evaluator never touches the functions, and it leaves the variables
    as they were when no function of the store repeats a parameter name. *)
Lemma evaluator_preserves_store fuel :
  preserving (parseExpression fuel)
  /\ (forall val, preserving (parseExpressionLoop fuel val))
  /\ preserving (parseTerm fuel)
  /\ (forall val, preserving (parseTermLoop fuel val))
  /\ preserving (parseFactor fuel)
  /\ (forall args, preserving (parseArgs fuel args))
  /\ (forall fn args w val w',
        evaluateFunction fuel fn args w = Some (val, w') ->
        functions w' = functions w
        /\ (NoDup (params fn) -> length (params fn) = length args ->
            distinctParams w -> variables w' = variables w)).
Proof.
  induction fuel as [|n (IHe & IHel & IHt & IHtl & IHf & IHa & IHc)].
  { repeat split; repeat intro; discriminate. }
  split; [|split; [|split; [|split; [|split; [|split]]]]];
    [intros p w v p' w' H|intros val0 p w v p' w' H
    |intros p w v p' w' H|intros val0 p w v p' w' H
    |intros p w v p' w' H|intros val0 p w v p' w' H
    |intros fn args w val w' H].
  - rewrite parseExpression_S in H.
    destruct (parseTerm n p w) as [[[v1 p1] w1]|] eqn:E; [|discriminate].
    eapply sameStore_trans; [eapply IHt|eapply IHel]; eauto.
  - rewrite parseExpressionLoop_S in H.
    destruct (isPlusMinus _); [|store_close H].
    destruct (parseTerm n (next p) w) as [[[v1 p1] w1]|] eqn:E; [|discriminate].
    eapply sameStore_trans; [eapply IHt|eapply IHel]; eauto.
  - rewrite parseTerm_S in H.
    destruct (parseFactor n p w) as [[[v1 p1] w1]|] eqn:E; [|discriminate].
    eapply sameStore_trans; [eapply IHf|eapply IHtl]; eauto.
  - rewrite parseTermLoop_S in H.
    destruct (isStarSlash _); [|store_close H].
    destruct (parseFactor n (next p) w) as [[[v1 p1] w1]|] eqn:E; [|discriminate].
    eapply sameStore_trans; [eapply IHf|eapply IHtl]; eauto.
  - rewrite parseFactor_S in H.
    destruct (typ (curr p)); try (store_close H; fail).
    + destruct (ParseFloat _); store_close H.
    + destruct (typ (curr (next p)));
        try (destruct (getVariable _ w); store_close H; fail).
      destruct (callArguments n (next (next p)) w) as [[[args p2] w2]|] eqn:E;
        [|discriminate].
      assert (H2 : sameStore w w2).
      { unfold callArguments in E.
        destruct (isRParen (typ (curr (next (next p))))).
        - inversion E; subst. apply sameStore_refl.
        - eapply IHa; eauto. }
      destruct (negb (isRParen (typ (curr p2)))); [store_close H|].
      destruct (getFunction _ w2) as [fn|] eqn:Efn.
      2:{ inversion H; subst. eapply sameStore_trans; [exact H2|apply sameStore_print]. }
      destruct (Nat.eqb (length (params fn)) (length args)) eqn:Elen;
        cbn [negb] in H; [|store_close H].
      apply Nat.eqb_eq in Elen.
      destruct (evaluateFunction n fn args w2) as [[v3 w3]|] eqn:Ev; [|discriminate].
      inversion H; subst; clear H.
      eapply sameStore_trans; [exact H2|].
      destruct (IHc _ _ _ _ _ Ev) as [Hfun Hvar].
      split; [exact Hfun|].
      intros Hd. apply Hvar; auto. eapply Hd. exact Efn.
    + destruct (parseExpression n (next p) w) as [[[v1 p1] w1]|] eqn:E; [|discriminate].
      apply IHe in E. destruct (negb _); store_close H.
  - rewrite parseArgs_S in H.
    destruct (parseExpression n p w) as [[[v1 p1] w1]|] eqn:E; [|discriminate].
    apply IHe in E.
    destruct (typ (curr p1)); try (store_close H; fail).
    eapply sameStore_trans; [exact E|eapply IHa; eauto].
  - split.
    + eapply evaluateFunction_functions; eauto.
    + intros Hnd Hlen Hd. eapply evaluateFunction_variables; eauto.
Qed.

Lemma evaluateExpression_sameStore fuel expr w val ok w1 :
  evaluateExpression fuel expr w = Some (val, ok, w1) -> sameStore w w1.
Proof.
  unfold evaluateExpression. intros H.
  destruct (parseExpression fuel (NewParser expr) w) as [[[v p] w2]|] eqn:E; [|discriminate].
  apply (proj1 (evaluator_preserves_store fuel)) in E.
  destruct (errMsg p); inversion H; subst; [exact E|].
  eapply sameStore_trans; [exact E|apply sameStore_print].
Qed.

(** ** Trimming and prefixes *)

Lemma TrimLeftSpace_suffix s : exists pre, s = pre ++ TrimLeftSpace s.
Proof.
  induction s as [|r s [pre IH]]; [exists []; reflexivity|].
  simpl. destruct (IsSpace r).
  - exists (r :: pre). simpl. congruence.
  - exists []. reflexivity.
Qed.

Lemma TrimLeftSpace_head s r t : TrimLeftSpace s = r :: t -> IsSpace r = false.
Proof.
  induction s as [|x s IH]; simpl; [discriminate|].
  destruct (IsSpace x) eqn:E; [exact IH|]. intros H. inversion H; subst. exact E.
Qed.

Lemma TrimLeftSpace_fixed r t : IsSpace r = false -> TrimLeftSpace (r :: t) = r :: t.
Proof. intros H. simpl. rewrite H. reflexivity. Qed.

(** What [TrimSpace] returns is a prefix of what is left once the leading
    spaces are gone. *)
Lemma TrimSpace_prefix s : exists post, TrimLeftSpace s = TrimSpace s ++ post.
Proof.
  unfold TrimSpace.
  destruct (TrimLeftSpace_suffix (rev (TrimLeftSpace s))) as [pre H].
  exists (rev pre).
  rewrite <- rev_app_distr, <- H, rev_involutive. reflexivity.
Qed.

(** A trimmed string is empty or starts with a rune that is no space. *)
Lemma TrimSpace_head s r t : TrimSpace s = r :: t -> IsSpace r = false.
Proof.
  intros H. destruct (TrimSpace_prefix s) as [post Hp]. rewrite H in Hp.
  simpl in Hp. eapply TrimLeftSpace_head. exact Hp.
Qed.

Lemma HasPrefix_app s post prefix :
  HasPrefix s prefix = true -> HasPrefix (s ++ post) prefix = true.
Proof.
  revert s. induction prefix as [|c prefix IH]; intros s.
  { intros _. destruct (s ++ post); reflexivity. }
  destruct s as [|r s]; simpl; [discriminate|].
  intros H. apply andb_true_iff in H as [H1 H2].
  rewrite H1. simpl. apply IH. exact H2.
Qed.

(** Trimming a prefix of a trimmed line gives a prefix of that line again, so
    it cannot start with a word the line does not start with. *)
Lemma trimmed_prefix_has_no_new_prefix l x post word :
  (forall r t, l = r :: t -> IsSpace r = false) ->
  l = x ++ post ->
  HasPrefix l word = false ->
  HasPrefix (TrimSpace x) word = false.
Proof.
  intros Hhead Hl Hw.
  destruct (HasPrefix (TrimSpace x) word) eqn:E; [|reflexivity].
  destruct (TrimSpace_prefix x) as [post' Hx].
  destruct x as [|r t].
  - destruct word; [|discriminate E]. subst l. simpl in Hw.
    destruct post; discriminate Hw.
  - assert (Hr : IsSpace r = false) by (eapply Hhead; rewrite Hl; reflexivity).
    rewrite (TrimLeftSpace_fixed r t Hr) in Hx.
    assert (Hl' : l = TrimSpace (r :: t) ++ (post' ++ post)).
    { rewrite app_assoc, <- Hx. exact Hl. }
    rewrite Hl' in Hw. rewrite (HasPrefix_app _ _ _ E) in Hw. discriminate.
Qed.

Lemma SplitN2_first_prefix s sep : exists post, s = nth 0 (SplitN2 s sep) [] ++ post.
Proof.
  unfold SplitN2. destruct (Index s sep <? 0)%Z; simpl.
  - exists []. rewrite app_nil_r. reflexivity.
  - exists (drop (Z.to_nat (Index s sep)) s). rewrite take_drop. reflexivity.
Qed.

Lemma stripLine_head line r t : stripLine line = r :: t -> IsSpace r = false.
Proof. unfold stripLine. apply TrimSpace_head. Qed.

(** ** Scenarios of the specification *)

Example scenario_assign_print :
  stdout <$> run 10 [lit "x = 5;"; lit "print x;"] = Some [PrintInt (lit "x") 5].
Proof. vm_compute. reflexivity. Qed.

Example scenario_float_persists :
  stdout <$> run 10 [lit "y(f)=3;"; lit "y = 7;"; lit "print y;"] = Some [PrintFloat (lit "y") 7].
Proof. vm_compute. reflexivity. Qed.

Example scenario_square :
  stdout <$> run 10 [lit "sq(n): n*n"; lit "r = sq(4);"; lit "print r;"] = Some [PrintInt (lit "r") 16].
Proof. vm_compute. reflexivity. Qed.

Example scenario_missing :
  stdout <$> run 10 [lit "print missingVar;"] = Some [NotDeclared (lit "missingVar")].
Proof. vm_compute. reflexivity. Qed.

Example scenario_unexpected_token :
  run 10 [lit "a = 1 + * 2;"]
  = Some (print (ExpressionError (msgUnexpected ++ lit "*")) emptyWorld).
Proof. vm_compute. reflexivity. Qed.

(** ** Typed initialization of a variable that exists *)

(** A line that reaches the third block of [processLine] with the tag [i] or
    [f], and whose expression evaluates without error, hands the tag's type
    to [setVariable]; a variable that exists keeps its own flag all the same. *)
Lemma typed_initialization_keeps_flag fuel line l w val w1 v :
  TrimSpace line <> [] ->
  l = stripLine (TrimSpace line) ->
  HasPrefix l kwPrint = false ->
  Contains l colon = false ->
  Contains l rparenEquals = true ->
  Index (nth 0 (SplitN2 l rparenEquals) []) lparen <> (-1)%Z ->
  typedTag l = tagInt \/ typedTag l = tagFloat ->
  evaluateExpression fuel (typedExpr l) w = Some (val, true, w1) ->
  variables w1 !! typedTarget l = Some v ->
  exists w2,
    processLine fuel line w = Some w2
    /\ w2 = setVariable (typedTarget l) (text_eqb (typedTag l) tagInt) val w1
    /\ variables w2 !! typedTarget l
       = Some (number (isInt v) (if isInt v then truncate val else val)).
Proof.
  intros Hne Hl Hp Hc Hr Hidx Htag Hev Hv.
  exists (setVariable (typedTarget l) (text_eqb (typedTag l) tagInt) val w1).
  split; [|split; [reflexivity|apply setVariable_existing; exact Hv]].
  unfold processLine. destruct (TrimSpace line) as [|r t] eqn:Ht; [congruence|].
  rewrite <- Hl, Hp, Hc, Hr. unfold typedInitialization.
  apply Z.eqb_neq in Hidx. rewrite Hidx, Hev. cbn [negb].
  destruct Htag as [Htag|Htag]; rewrite Htag; reflexivity.
Qed.

(** C1, on the script [x(f)=3; x(i)=5.5;]: the second line is a typed
    initialization with tag [i] of a variable that exists as a float; the
    program leaves the variable a float and stores 5.5 untruncated, where the
    claim has it become the integer 5.  [setVariable] takes the type of the
    existing variable whatever type it is asked for. *)
Theorem typed_initialization_of_existing_variable :
  variableOf "x" (run 10 [lit "x(f)=3;"]) = Some (number false 3)
  /\ variableOf "x" (run 10 [lit "x(f)=3;"; lit "x(i)=5.5;"]) = Some (number false 5.5)
  /\ variableOf "x" (run 10 [lit "x(i)=3;"; lit "x(f)=5.5;"]) = Some (number true 5).
Proof. vm_compute. repeat split; reflexivity. Qed.

(** ** Parameters that meet a variable of their name *)

(** C2, on the script [n(i)=7; sq(n): n*n; r = sq(2.5);]: the parameter [n]
    is bound while an integer variable [n] exists, so the argument 2.5 is
    stored truncated to 2 under the flag of that variable, and the call
    yields 4; the claim has it bound as the float 2.5. *)
Theorem parameter_binding_over_existing_variable :
  (fun w => variables (snd (bindParams [lit "n"] [2.5%float] ∅ w)) !! lit "n")
    <$> run 10 [lit "n(i)=7;"; lit "sq(n): n*n"]
  = Some (Some (number true 2))
  /\ variableOf "r" (run 10 [lit "n(i)=7;"; lit "sq(n): n*n"; lit "r = sq(2.5);"])
     = Some (number true 4)
  /\ variableOf "r" (run 10 [lit "sq(n): n*n"; lit "r = sq(2.5);"])
     = Some (number false 6.25).
Proof. vm_compute. repeat split; reflexivity. Qed.

(** ** Parameters of the same name *)

(** C3, on a function whose parameter list is [a, a]: after the call
    [f(1, 2)] a variable [a] that did not exist is left in the store with the
    value of the first argument, and a variable [a] that existed as the float
    9.5 comes back as the float 1. *)
Theorem duplicate_parameter_is_not_restored :
  variableOf "a" (run 10 [lit "f(a,a): a"]) = None
  /\ variableOf "a" (run 10 [lit "f(a,a): a"; lit "r = f(1,2);"]) = Some (number true 1)
  /\ variableOf "a" (run 10 [lit "a(f)=9.5;"; lit "f(a,a): a"]) = Some (number false 9.5)
  /\ variableOf "a" (run 10 [lit "a(f)=9.5;"; lit "f(a,a): a"; lit "r = f(1,2);"])
     = Some (number false 1).
Proof. vm_compute. repeat split; reflexivity. Qed.

(** ** Plain assignment *)



(** The test [float64(int64(val)) == val] on some values. *)
Example exact_integer_test :
  (truncate 5 =? 5)%float = true
  /\ (truncate 2.5 =? 2.5)%float = false
  /\ (truncate (-0) =? (-0))%float = true
  /\ (truncate infinity =? infinity)%float = false
  /\ (truncate nan =? nan)%float = false
  /\ (truncate 1e19 =? 1e19)%float = false.
Proof. vm_compute. repeat split; reflexivity. Qed.

(** In the setting of C4, when no function of the store repeats a parameter
    name, the store the assignment looks the name up in has the variables of
    the store before the line. *)
Lemma plain_assignment_initial_store fuel line w val w1 :
  distinctParams w ->
  evaluateExpression fuel (assignExpr line) w = Some (val, true, w1) ->
  variables w1 = variables w /\ functions w1 = functions w.
Proof.
  intros Hd He. destruct (evaluateExpression_sameStore _ _ _ _ _ _ He) as [Hf Hv].
  split; auto.
Qed.

(** ** Undeclared names and wrong arity *)


(** ** The error flag *)

(** C6, as amended.  An error message that is recorded is never cleared:
    every operation of the parser that starts with a non-empty message ends
    with a non-empty one.  (The message itself is replaced by every later
    error.) *)
Theorem error_flag_is_never_cleared :
  forall fuel,
    sticky (parseExpression fuel)
    /\ (forall val, sticky (parseExpressionLoop fuel val))
    /\ sticky (parseTerm fuel)
    /\ (forall val, sticky (parseTermLoop fuel val))
    /\ sticky (parseFactor fuel)
    /\ (forall args, sticky (parseArgs fuel args))
    /\ (forall msg p, errMsg (error msg p) = msg).
Proof.
  intros fuel. destruct (sticky_evaluator fuel) as (He & Hel & Ht & Htl & Hf & Ha).
  repeat (split; [assumption|]). reflexivity.
Qed.

(** ** A statement whose expression fails *)

(** When no function of the store repeats a parameter name, a typed
    initialization or a plain assignment whose expression ends with the error
    flag set leaves both maps as they were. *)
Lemma failed_statement_keeps_store fuel line w val w1 :
  distinctParams w ->
  (evaluateExpression fuel (typedExpr line) w = Some (val, false, w1) ->
   Index (nth 0 (SplitN2 line rparenEquals) []) lparen <> (-1)%Z ->
   typedInitialization fuel line w = Some w1
   /\ variables w1 = variables w /\ functions w1 = functions w)
  /\ (evaluateExpression fuel (assignExpr line) w = Some (val, false, w1) ->
      plainAssignment fuel line w = Some w1
      /\ variables w1 = variables w /\ functions w1 = functions w).
Proof.
  intros Hd. split.
  - intros He Hidx. pose proof (evaluateExpression_sameStore _ _ _ _ _ _ He) as [Hf Hv].
    unfold typedInitialization. apply Z.eqb_neq in Hidx. rewrite Hidx, He.
    repeat split; auto.
  - intros He. pose proof (evaluateExpression_sameStore _ _ _ _ _ _ He) as [Hf Hv].
    unfold plainAssignment. rewrite He. repeat split; auto.
Qed.

(** C7, on the script [f(a,a): a; r = f(1,2) +;]: the expression of the
    second line ends in a parse error and the assignment is dropped, but the
    call made on the way has left the variable [a] behind, so the store is
    not the one before the line. *)
Theorem discarded_line_after_call_changes_store :
  variables <$> run 10 [lit "f(a,a): a"] = Some ∅
  /\ stdout <$> run 10 [lit "f(a,a): a"; lit "r = f(1,2) +;"]
     = Some [ExpressionError msgUnexpected]
  /\ variableOf "r" (run 10 [lit "f(a,a): a"; lit "r = f(1,2) +;"]) = None
  /\ variableOf "a" (run 10 [lit "f(a,a): a"; lit "r = f(1,2) +;"]) = Some (number true 1).
Proof. vm_compute. repeat split; reflexivity. Qed.

(** ** Division *)

(** The expression [x / y] over two variables, on a parser that stands at
    its first token. *)
Lemma quotient_step fuel p w va vb :
  typ (curr p) = TokenIdent ->
  typ (curr (next p)) = TokenSlash ->
  typ (curr (next (next p))) = TokenIdent ->
  typ (curr (next (next (next p)))) = TokenEOF ->
  variables w !! tokValue (curr p) = Some va ->
  variables w !! tokValue (curr (next (next p))) = Some vb ->
  parseExpression (S (S (S (S fuel)))) p w
  = Some (divide (value va) (value vb), next (next (next p)), w).
Proof.
  intros H0 H1 H2 H3 Ha Hb.
  rewrite parseExpression_S, parseTerm_S, parseFactor_S, H0, H1.
  unfold getVariable. rewrite Ha.
  rewrite parseTermLoop_S, H1. cbn [isStarSlash].
  rewrite parseFactor_S, H2, H3. unfold getVariable. rewrite Hb.
  rewrite parseTermLoop_S, H3. cbn [isStarSlash].
  rewrite parseExpressionLoop_S, H3. reflexivity.
Qed.

(** C8, as amended.  A division sets no error: the loop of [parseTerm] goes
    on from the state in which the divisor was parsed; the quotient is the
    IEEE quotient by [+0.0] when the divisor is [== 0], and the IEEE quotient
    by the divisor otherwise.  For any two variables [a] and [b], [a / b]
    evaluates without error to that quotient; [1 / 0], [(0 - 1) / 0] and
    [0 / 0] evaluate without error to positive infinity, negative infinity
    and NaN. *)
Theorem division_sets_no_error :
  (forall fuel val p w right0 p' w',
      typ (curr p) = TokenSlash ->
      parseFactor fuel (next p) w = Some (right0, p', w') ->
      parseTermLoop (S fuel) val p w = parseTermLoop fuel (divide val right0) p' w')
  /\ (forall val right0,
      (right0 =? 0)%float = true -> divide val right0 = (val / 0)%float)
  /\ (forall val right0,
      (right0 =? 0)%float = false -> divide val right0 = (val / right0)%float)
  /\ (forall fuel w va vb,
      variables w !! lit "a" = Some va ->
      variables w !! lit "b" = Some vb ->
      evaluateExpression (4 + fuel) (lit "a / b") w
      = Some (divide (value va) (value vb), true, w))
  /\ evaluateExpression 10 (lit "1 / 0") emptyWorld = Some (infinity, true, emptyWorld)
  /\ evaluateExpression 10 (lit "(0 - 1) / 0") emptyWorld
     = Some (neg_infinity, true, emptyWorld)
  /\ evaluateExpression 10 (lit "0 / 0") emptyWorld = Some (nan, true, emptyWorld).
Proof.
  split; [|split; [|split; [|split]]].
  - intros fuel val p w right0 p' w' Hs Hf.
    rewrite parseTermLoop_S, Hs, Hf. reflexivity.
  - intros val right0 H. unfold divide. rewrite H. reflexivity.
  - intros val right0 H. unfold divide. rewrite H. reflexivity.
  - intros fuel w va vb Ha Hb. unfold evaluateExpression.
    change (4 + fuel)%nat with (S (S (S (S fuel)))).
    assert (Ea : tokValue (curr (NewParser (lit "a / b"))) = lit "a")
      by (vm_compute; reflexivity).
    assert (Eb : tokValue (curr (next (next (NewParser (lit "a / b"))))) = lit "b")
      by (vm_compute; reflexivity).
    rewrite <- Ea in Ha. rewrite <- Eb in Hb.
    rewrite (quotient_step fuel (NewParser (lit "a / b")) w va vb);
      [|vm_compute; reflexivity..|exact Ha|exact Hb].
    rewrite !errMsg_next. reflexivity.
  - vm_compute. repeat split; reflexivity.
Qed.

(** ** Unrecognized characters *)

(** An error token where a factor must start is a parse error. *)
Lemma error_token_in_factor fuel p w :
  typ (curr p) = TokenError ->
  parseFactor (S fuel) p w = Some (0%float, error (msgUnexpected ++ tokValue (curr p)) p, w).
Proof. intros H. rewrite parseFactor_S, H. reflexivity. Qed.

(** An error token after a complete expression ends the expression without
    any error. *)
Lemma error_token_after_expression fuel val p w :
  typ (curr p) = TokenError ->
  parseTermLoop (S fuel) val p w = Some (val, p, w)
  /\ parseExpressionLoop (S fuel) val p w = Some (val, p, w).
Proof.
  intros H. rewrite parseTermLoop_S, parseExpressionLoop_S, H. split; reflexivity.
Qed.

(** C9, on the expression [1 $]: the lexer answers [$] with an error token,
    but [parseExpression] returns at the first token that continues no term,
    and nothing looks at that token afterwards; the evaluation succeeds with
    the value 1 and the line [x = 1 $] assigns it. *)
Theorem trailing_unrecognized_character_is_accepted :
  curr (next (NewParser (lit "1 $"))) = {| typ := TokenError; tokValue := lit "$" |}
  /\ evaluateExpression 10 (lit "1 $") emptyWorld = Some (1%float, true, emptyWorld)
  /\ run 10 [lit "x = 1 $"] = Some (setVariable (lit "x") true 1 emptyWorld).
Proof. vm_compute. repeat split; reflexivity. Qed.

(** ** Lines that start with [print] *)

Lemma printVariables_store l w :
  variables (fold_left (fun w nv => printVariable (fst nv) (snd nv) w) l w) = variables w
  /\ functions (fold_left (fun w nv => printVariable (fst nv) (snd nv) w) l w) = functions w.
Proof.
  revert w. induction l as [|[name v] l IH]; intros w; [split; reflexivity|].
  simpl. destruct (IH (printVariable name v w)) as [H1 H2]. rewrite H1, H2.
  unfold printVariable. destruct (isInt v); split; reflexivity.
Qed.

Lemma printStatement_store line w :
  variables (printStatement line w) = variables w
  /\ functions (printStatement line w) = functions w.
Proof.
  unfold printStatement.
  destruct (TrimSpace (drop (length kwPrint) line)) as [|r rest] eqn:E.
  - destruct (printVariables_store (map_to_list (variables w)) (print ListHeader w))
      as [H1 H2].
    rewrite H1, H2. split; reflexivity.
  - match goal with |- context [getVariable ?n w] => destruct (getVariable n w) as [v|] end.
    + unfold printVariable. destruct (isInt v); split; reflexivity.
    + split; reflexivity.
Qed.

(** The dispatch on [print]: a line whose dispatched form starts with
    [print] is handled by the [print] block whatever follows the five
    letters, and that block leaves both maps as they are; on every other
    line, neither the name a plain assignment writes to nor the name a typed
    initialization writes to starts with [print]. *)
Theorem print_prefix_routes_to_print :
  (forall fuel line w,
      HasPrefix (stripLine (TrimSpace line)) kwPrint = true ->
      processLine fuel line w = Some (printStatement (stripLine (TrimSpace line)) w)
      /\ variables (printStatement (stripLine (TrimSpace line)) w) = variables w
      /\ functions (printStatement (stripLine (TrimSpace line)) w) = functions w)
  /\ (forall line,
      HasPrefix (stripLine (TrimSpace line)) kwPrint = false ->
      HasPrefix (assignTarget (stripLine (TrimSpace line))) kwPrint = false
      /\ HasPrefix (typedTarget (stripLine (TrimSpace line))) kwPrint = false).
Proof.
  split.
  - intros fuel line w Hp. split; [|apply printStatement_store].
    unfold processLine. destruct (TrimSpace line) as [|r t] eqn:E.
    + vm_compute in Hp. discriminate.
    + rewrite Hp. reflexivity.
  - intros line Hp.
    pose proof (stripLine_head (TrimSpace line)) as Hhead.
    set (l := stripLine (TrimSpace line)) in *.
    split.
    + unfold assignTarget.
      destruct (SplitN2_first_prefix l equals) as [post Hl].
      eapply trimmed_prefix_has_no_new_prefix; eauto.
    + unfold typedTarget.
      destruct (SplitN2_first_prefix l rparenEquals) as [post Hl].
      set (left0 := nth 0 (SplitN2 l rparenEquals) []) in *.
      eapply (trimmed_prefix_has_no_new_prefix l _
                (drop (Z.to_nat (Index left0 lparen)) left0 ++ post)); eauto.
      rewrite app_assoc, take_drop. exact Hl.
Qed.

(** The line [printer = 5]: the [print] block looks for a variable named
    [er = 5]. *)
Example printer_line :
  run 10 [lit "printer = 5"] = Some (print (NotDeclared (lit "er = 5")) emptyWorld).
Proof. vm_compute. reflexivity. Qed.

(** Names that start with [print] are still names of parameters: [printer]
    is a variable of the store while the body below is evaluated, and is
    removed after the call. *)
Example parameter_named_printer :
  variableOf "x" (run 10 [lit "f(printer): printer*2"; lit "x = f(3)"]) = Some (number true 6)
  /\ variableOf "printer" (run 10 [lit "f(printer): printer*2"; lit "x = f(3)"]) = None.
Proof. vm_compute. split; reflexivity. Qed.

(** When no function of the store repeats a parameter name, no line creates,
    removes or changes a variable whose name starts with [print]: the
    [print] block and the definition of a function write to no variable, the
    evaluation of an expression undoes the bindings of its calls, and the
    name the statement writes to does not start with [print]. *)
Lemma print_names_kept fuel line w w' :
  distinctParams w ->
  processLine fuel line w = Some w' ->
  forall name, HasPrefix name kwPrint = true -> variables w' !! name = variables w !! name.
Proof.
  intros Hd H name Hname.
  pose proof (proj2 print_prefix_routes_to_print line) as Htargets.
  unfold processLine in H. destruct (TrimSpace line) as [|r t].
  { inversion H; reflexivity. }
  set (l := stripLine (r :: t)) in *.
  destruct (HasPrefix l kwPrint) eqn:Ep.
  { inversion H; subst. rewrite (proj1 (printStatement_store l w)). reflexivity. }
  destruct (Htargets eq_refl) as [Ha Ht].
  destruct (Contains l colon).
  { inversion H; subst. unfold functionDefinition. destruct (_ || _); reflexivity. }
  destruct (Contains l rparenEquals).
  { unfold typedInitialization in H.
    destruct (Index _ lparen =? -1)%Z; [inversion H; reflexivity|].
    destruct (evaluateExpression fuel _ w) as [[[val ok] w1]|] eqn:E; [|discriminate].
    destruct (evaluateExpression_sameStore _ _ _ _ _ _ E) as [_ Hv]. specialize (Hv Hd).
    destruct ok; cbn [negb] in H; [|inversion H; subst; rewrite Hv; reflexivity].
    assert (Hne : typedTarget l <> name) by (intros Heq; rewrite Heq in Ht; congruence).
    destruct (text_eqb _ tagInt); [|destruct (text_eqb _ tagFloat)];
      inversion H; subst; rewrite ?setVariable_other by exact Hne;
      cbn [variables print]; rewrite Hv; reflexivity. }
  destruct (Contains l equals); [|inversion H; reflexivity].
  unfold plainAssignment in H.
  destruct (evaluateExpression fuel _ w) as [[[val ok] w1]|] eqn:E; [|discriminate].
  destruct (evaluateExpression_sameStore _ _ _ _ _ _ E) as [_ Hv]. specialize (Hv Hd).
  destruct ok; cbn [negb] in H; [|inversion H; subst; rewrite Hv; reflexivity].
  assert (Hne : assignTarget l <> name) by (intros Heq; rewrite Heq in Ha; congruence).
  unfold getVariable in H.
  destruct (variables w1 !! assignTarget l) as [v|]; [destruct (isInt v)|];
    inversion H; subst; cbn [variables withVariables];
    rewrite ?lookup_insert_ne by exact Hne; rewrite ?setVariable_other by exact Hne;
    rewrite Hv; reflexivity.
Qed.


(** * Further properties *)

(** ** A scheme for what evaluation does to the world *)

Section Respects.

Variable R : World -> World -> Prop.
Hypothesis R_refl : forall w, R w w.
Hypothesis R_trans : forall w1 w2 w3, R w1 w2 -> R w2 w3 -> R w1 w3.
Hypothesis R_print : forall o w, R w (print o w).
Hypothesis R_call : forall ps args w w2,
  length ps = length args ->
  R (snd (bindParams ps args ∅ w)) w2 ->
  R w (withVariables (restoreParams ps (fst (bindParams ps args ∅ w)) (variables w2)) w2).

Ltac respects_close H :=
  inversion H; subst; first [ apply R_refl | apply R_print | assumption ].

(** A relation that holds across printing and across the saving, binding
    and restoring of parameters holds across every operation of the
    evaluator. *)
Lemma evaluator_respects fuel :
  respects R (parseExpression fuel)
  /\ (forall val, respects R (parseExpressionLoop fuel val))
  /\ respects R (parseTerm fuel)
  /\ (forall val, respects R (parseTermLoop fuel val))
  /\ respects R (parseFactor fuel)
  /\ (forall args, respects R (parseArgs fuel args))
  /\ (forall fn args w val w',
        length (params fn) = length args ->
        evaluateFunction fuel fn args w = Some (val, w') -> R w w').
Proof.
  induction fuel as [|n (IHe & IHel & IHt & IHtl & IHf & IHa & IHc)].
  { repeat split; repeat intro; discriminate. }
  split; [|split; [|split; [|split; [|split; [|split]]]]];
    [intros p w v p' w' H|intros val0 p w v p' w' H
    |intros p w v p' w' H|intros val0 p w v p' w' H
    |intros p w v p' w' H|intros val0 p w v p' w' H
    |intros fn args w val w' Hlen H].
  - rewrite parseExpression_S in H.
    destruct (parseTerm n p w) as [[[v1 p1] w1]|] eqn:E; [|discriminate].
    eapply R_trans; [eapply IHt|eapply IHel]; eauto.
  - rewrite parseExpressionLoop_S in H.
    destruct (isPlusMinus _); [|respects_close H].
    destruct (parseTerm n (next p) w) as [[[v1 p1] w1]|] eqn:E; [|discriminate].
    eapply R_trans; [eapply IHt|eapply IHel]; eauto.
  - rewrite parseTerm_S in H.
    destruct (parseFactor n p w) as [[[v1 p1] w1]|] eqn:E; [|discriminate].
    eapply R_trans; [eapply IHf|eapply IHtl]; eauto.
  - rewrite parseTermLoop_S in H.
    destruct (isStarSlash _); [|respects_close H].
    destruct (parseFactor n (next p) w) as [[[v1 p1] w1]|] eqn:E; [|discriminate].
    eapply R_trans; [eapply IHf|eapply IHtl]; eauto.
  - rewrite parseFactor_S in H.
    destruct (typ (curr p)); try (respects_close H; fail).
    + destruct (ParseFloat _); respects_close H.
    + destruct (typ (curr (next p)));
        try (destruct (getVariable _ w); respects_close H; fail).
      destruct (callArguments n (next (next p)) w) as [[[args p2] w2]|] eqn:E;
        [|discriminate].
      assert (H2 : R w w2).
      { unfold callArguments in E.
        destruct (isRParen (typ (curr (next (next p))))).
        - inversion E; subst. apply R_refl.
        - eapply IHa; eauto. }
      destruct (negb (isRParen (typ (curr p2)))); [respects_close H|].
      destruct (getFunction _ w2) as [fn|] eqn:Efn.
      2:{ inversion H; subst. eapply R_trans; [exact H2|apply R_print]. }
      destruct (Nat.eqb (length (params fn)) (length args)) eqn:Elen;
        cbn [negb] in H; [|respects_close H].
      apply Nat.eqb_eq in Elen.
      destruct (evaluateFunction n fn args w2) as [[v3 w3]|] eqn:Ev; [|discriminate].
      inversion H; subst; clear H.
      eapply R_trans; [exact H2|]. eapply IHc; eauto.
    + destruct (parseExpression n (next p) w) as [[[v1 p1] w1]|] eqn:E; [|discriminate].
      apply IHe in E. destruct (negb _); respects_close H.
  - rewrite parseArgs_S in H.
    destruct (parseExpression n p w) as [[[v1 p1] w1]|] eqn:E; [|discriminate].
    apply IHe in E.
    destruct (typ (curr p1)); try (respects_close H; fail).
    eapply R_trans; [exact E|eapply IHa; eauto].
  - rewrite evaluateFunction_S in H.
    destruct (parseExpression n _ _) as [[[v p] w1]|] eqn:E; [|discriminate].
    apply IHe in E. inversion H; subst; clear H.
    apply R_call; [exact Hlen|].
    destruct (errMsg p); [exact E|].
    eapply R_trans; [exact E|apply R_print].
Qed.

Lemma evaluateExpression_respects fuel expr w val ok w1 :
  evaluateExpression fuel expr w = Some (val, ok, w1) -> R w w1.
Proof.
  unfold evaluateExpression. intros H.
  destruct (parseExpression fuel (NewParser expr) w) as [[[v p] w2]|] eqn:E; [|discriminate].
  apply (proj1 (evaluator_respects fuel)) in E.
  destruct (errMsg p); inversion H; subst; [exact E|].
  eapply R_trans; [exact E|apply R_print].
Qed.

End Respects.

(** ** Variables stay, and keep their type *)

Lemma keepsFlags_refl w : keepsFlags w w.
Proof. intros name v Hv. exists v. auto. Qed.

Lemma keepsFlags_trans w1 w2 w3 : keepsFlags w1 w2 -> keepsFlags w2 w3 -> keepsFlags w1 w3.
Proof.
  intros H1 H2 name v Hv.
  destruct (H1 name v Hv) as (v2 & Hv2 & Hf2).
  destruct (H2 name v2 Hv2) as (v3 & Hv3 & Hf3).
  exists v3. split; [exact Hv3|congruence].
Qed.

Lemma keepsFlags_print o w : keepsFlags w (print o w).
Proof. intros name v Hv. exists v. auto. Qed.

Lemma keepsFlags_setVariable name isInt0 val w : keepsFlags w (setVariable name isInt0 val w).
Proof.
  intros other v Hv. destruct (decide (name = other)) as [->|Hne].
  - rewrite (setVariable_existing _ isInt0 val _ _ Hv). eexists. split; reflexivity.
  - rewrite setVariable_other by exact Hne. exists v. auto.
Qed.

Lemma keepsFlags_bindParams ps : forall args backup w,
  keepsFlags w (snd (bindParams ps args backup w)).
Proof.
  induction ps as [|x ps IH]; intros args backup w; [apply keepsFlags_refl|].
  destruct args as [|a args]; [apply keepsFlags_refl|].
  cbn [bindParams]. eapply keepsFlags_trans; [apply keepsFlags_setVariable|apply IH].
Qed.

(** A parameter whose name is the name of a variable is saved with the flag
    of that variable, however often the name occurs. *)
Lemma bindParams_backup_flag ps : forall args backup w name v,
  length ps = length args ->
  variables w !! name = Some v ->
  name ∈ ps \/ (exists b, backup !! name = Some b /\ isInt b = isInt v) ->
  exists b, fst (bindParams ps args backup w) !! name = Some b /\ isInt b = isInt v.
Proof.
  induction ps as [|x ps IH]; intros args backup w name v Hlen Hv Hin.
  { destruct Hin as [Hin|Hin]; [apply elem_of_nil in Hin; contradiction|exact Hin]. }
  destruct args as [|a args]; [discriminate|]. injection Hlen as Hlen.
  cbn [bindParams].
  destruct (keepsFlags_setVariable x (truncate a =? a)%float a w name v Hv) as (v1 & Hv1 & Hf1).
  rewrite <- Hf1. apply (IH args _ _ name v1 Hlen Hv1).
  unfold getVariable. destruct (decide (name = x)) as [->|Hne].
  - right. rewrite Hv. rewrite lookup_insert_eq. eexists. split; [reflexivity|].
    simpl. congruence.
  - destruct Hin as [Hin|(b & Hb & Hfb)].
    + apply elem_of_cons in Hin as [Heq|Hin]; [contradiction|]. left. exact Hin.
    + right. exists b. split; [|congruence].
      destruct (variables w !! x); [rewrite lookup_insert_ne by auto|]; exact Hb.
Qed.

Lemma keepsFlags_call ps args w w2 :
  length ps = length args ->
  keepsFlags (snd (bindParams ps args ∅ w)) w2 ->
  keepsFlags w
    (withVariables (restoreParams ps (fst (bindParams ps args ∅ w)) (variables w2)) w2).
Proof.
  intros Hlen Hbody name v Hv. cbn [variables withVariables].
  destruct (decide (name ∈ ps)) as [Hin|Hin].
  - rewrite (restoreParams_param _ _ _ _ Hin).
    apply (bindParams_backup_flag ps args ∅ w name v Hlen Hv). left. exact Hin.
  - rewrite (restoreParams_other _ _ _ _ Hin).
    apply (keepsFlags_trans _ _ _ (keepsFlags_bindParams ps args ∅ w) Hbody name v Hv).
Qed.

Lemma processLine_keepsFlags fuel line w w' :
  processLine fuel line w = Some w' -> keepsFlags w w'.
Proof.
  pose proof (evaluateExpression_respects keepsFlags keepsFlags_refl keepsFlags_trans
                keepsFlags_print keepsFlags_call) as Hev.
  unfold processLine. destruct (TrimSpace line) as [|r t].
  { intros H. inversion H. apply keepsFlags_refl. }
  destruct (HasPrefix _ kwPrint).
  { intros H. inversion H. intros name v Hv. exists v.
    rewrite (proj1 (printStatement_store _ w)). auto. }
  destruct (Contains _ colon).
  { intros H. inversion H. intros name v Hv. exists v. split; [|reflexivity].
    unfold functionDefinition. destruct (_ || _); exact Hv. }
  destruct (Contains _ rparenEquals).
  { unfold typedInitialization. destruct (Index _ lparen =? -1)%Z.
    { intros H. inversion H. apply keepsFlags_print. }
    destruct (evaluateExpression fuel _ w) as [[[val ok] w1]|] eqn:E; [|discriminate].
    apply Hev in E. destruct ok; cbn [negb]; [|intros H; inversion H; subst; exact E].
    destruct (text_eqb _ tagInt); [|destruct (text_eqb _ tagFloat)];
      intros H; inversion H; subst;
      (eapply keepsFlags_trans; [exact E|]);
      first [apply keepsFlags_setVariable|apply keepsFlags_print]. }
  destruct (Contains _ equals); [|intros H; inversion H; apply keepsFlags_print].
  unfold plainAssignment.
  destruct (evaluateExpression fuel _ w) as [[[val ok] w1]|] eqn:E; [|discriminate].
  apply Hev in E. destruct ok; cbn [negb]; [|intros H; inversion H; subst; exact E].
  unfold getVariable.
  destruct (variables w1 !! assignTarget _) as [v|] eqn:Ev.
  - intros H. eapply keepsFlags_trans; [exact E|].
    intros name u Hu.
    destruct (isInt v) eqn:Ei; inversion H; subst; cbn [variables withVariables];
      (destruct (decide (assignTarget (stripLine (r :: t)) = name)) as [Heq|Hne];
       [rewrite Heq in *; rewrite lookup_insert_eq; eexists; split; [reflexivity|];
        simpl; congruence
       |rewrite lookup_insert_ne by exact Hne; exists u; auto]).
  - intros H. inversion H; subst.
    eapply keepsFlags_trans; [exact E|apply keepsFlags_setVariable].
Qed.

(** X1.  No script removes a variable or changes the type of one: a variable
    of the store before a run of lines is a variable of the store after it,
    with the same [isInt] flag, whatever the lines are (typed
    initializations, calls of functions whose parameters carry its name,
    lines that fail). *)
Theorem variables_keep_their_type :
  forall fuel lines w w' name v,
    processLines fuel lines w = Some w' ->
    variables w !! name = Some v ->
    exists v', variables w' !! name = Some v' /\ isInt v' = isInt v.
Proof.
  intros fuel lines. induction lines as [|line lines IH]; intros w w' name v H Hv.
  - inversion H; subst. exists v. auto.
  - cbn [processLines] in H.
    destruct (processLine fuel line w) as [w1|] eqn:E; [|discriminate].
    destruct (processLine_keepsFlags _ _ _ _ E name v Hv) as (v1 & Hv1 & Hf1).
    destruct (IH w1 w' name v1 H Hv1) as (v' & Hv' & Hf').
    exists v'. split; [exact Hv'|congruence].
Qed.

(** ** Integer variables hold converted integers *)

Lemma integersConverted_insert name v vs :
  integersConverted vs ->
  (isInt v = true -> exists x, value v = truncate x) ->
  integersConverted (<[name := v]> vs).
Proof.
  intros Hvs Hv other u Hu Hi. destruct (decide (name = other)) as [->|Hne].
  - rewrite lookup_insert_eq in Hu. inversion Hu; subst. auto.
  - rewrite lookup_insert_ne in Hu by exact Hne. eauto.
Qed.

Lemma integersConverted_delete name vs :
  integersConverted vs -> integersConverted (delete name vs).
Proof.
  intros Hvs other u Hu Hi. destruct (decide (name = other)) as [->|Hne].
  - rewrite lookup_delete_eq in Hu. discriminate.
  - rewrite lookup_delete_ne in Hu by exact Hne. eauto.
Qed.

Lemma integersConverted_setVariable name isInt0 val w :
  integersConverted (variables w) ->
  integersConverted (variables (setVariable name isInt0 val w)).
Proof.
  intros Hw. unfold setVariable.
  destruct (variables w !! name) as [v|] eqn:Ev; [destruct (isInt v) eqn:Ei|];
    cbn [variables withVariables]; apply integersConverted_insert; auto; cbn [isInt value].
  - eauto.
  - discriminate.
  - destruct isInt0; [eauto|discriminate].
Qed.

Lemma integersConverted_bindParams ps : forall args backup w,
  integersConverted backup ->
  integersConverted (variables w) ->
  integersConverted (fst (bindParams ps args backup w))
  /\ integersConverted (variables (snd (bindParams ps args backup w))).
Proof.
  induction ps as [|x ps IH]; intros args backup w Hb Hw; [split; assumption|].
  destruct args as [|a args]; [split; assumption|].
  cbn [bindParams]. apply IH; [|apply integersConverted_setVariable; exact Hw].
  unfold getVariable. destruct (variables w !! x) as [[i u]|] eqn:Ex; [|exact Hb].
  apply integersConverted_insert; [exact Hb|]. cbn [isInt value]. intros Hi.
  apply (Hw x _ Ex Hi).
Qed.

Lemma integersConverted_restoreParams ps backup : forall vs,
  integersConverted backup ->
  integersConverted vs ->
  integersConverted (restoreParams ps backup vs).
Proof.
  induction ps as [|x ps IH]; intros vs Hb Hvs; [exact Hvs|].
  cbn [restoreParams]. apply IH; [exact Hb|].
  destruct (backup !! x) as [b|] eqn:Eb.
  - apply integersConverted_insert; [apply integersConverted_delete; exact Hvs|].
    intros Hi. apply (Hb x b Eb Hi).
  - apply integersConverted_delete. exact Hvs.
Qed.

Lemma integersConverted_empty : integersConverted ∅.
Proof. intros name v Hv. rewrite lookup_empty in Hv. discriminate. Qed.

Lemma evaluateExpression_integersConverted fuel expr w val ok w1 :
  evaluateExpression fuel expr w = Some (val, ok, w1) ->
  integersConverted (variables w) -> integersConverted (variables w1).
Proof.
  apply (evaluateExpression_respects
           (fun w w' => integersConverted (variables w) -> integersConverted (variables w'))).
  - auto.
  - auto.
  - auto.
  - intros ps args w0 w2 Hlen Hbody Hw0. cbn [variables withVariables].
    destruct (integersConverted_bindParams ps args ∅ w0 integersConverted_empty Hw0)
      as [Hb Hwb].
    apply integersConverted_restoreParams; auto.
Qed.

Lemma processLine_integersConverted fuel line w w' :
  processLine fuel line w = Some w' ->
  integersConverted (variables w) -> integersConverted (variables w').
Proof.
  intros H Hw. revert H. unfold processLine. destruct (TrimSpace line) as [|r t].
  { intros H. inversion H; subst. exact Hw. }
  destruct (HasPrefix _ kwPrint).
  { intros H. inversion H. rewrite (proj1 (printStatement_store _ w)). exact Hw. }
  destruct (Contains _ colon).
  { intros H. inversion H. unfold functionDefinition. destruct (_ || _); exact Hw. }
  destruct (Contains _ rparenEquals).
  { unfold typedInitialization. destruct (Index _ lparen =? -1)%Z.
    { intros H. inversion H. exact Hw. }
    destruct (evaluateExpression fuel _ w) as [[[val ok] w1]|] eqn:E; [|discriminate].
    apply evaluateExpression_integersConverted in E; [|exact Hw].
    destruct ok; cbn [negb]; [|intros H; inversion H; subst; exact E].
    destruct (text_eqb _ tagInt); [|destruct (text_eqb _ tagFloat)];
      intros H; inversion H; subst;
      first [apply integersConverted_setVariable; exact E|exact E]. }
  destruct (Contains _ equals); [|intros H; inversion H; exact Hw].
  unfold plainAssignment.
  destruct (evaluateExpression fuel _ w) as [[[val ok] w1]|] eqn:E; [|discriminate].
  apply evaluateExpression_integersConverted in E; [|exact Hw].
  destruct ok; cbn [negb]; [|intros H; inversion H; subst; exact E].
  unfold getVariable.
  destruct (variables w1 !! assignTarget _) as [v|] eqn:Ev.
  - destruct (isInt v) eqn:Ei; intros H; inversion H; subst; cbn [variables withVariables];
      apply integersConverted_insert; auto; cbn [isInt value]; [eauto|congruence].
  - intros H. inversion H; subst. apply integersConverted_setVariable. exact E.
Qed.

(** X2.  In every state a script can reach from the empty store, a variable
    whose [isInt] flag is set holds a value of the form [float64(int64(x))]:
    every write to such a variable goes through the conversion, and saving
    and restoring around calls only copies what is there. *)
Theorem integer_variables_hold_integers :
  forall fuel lines w' name v,
    processLines fuel lines emptyWorld = Some w' ->
    variables w' !! name = Some v ->
    isInt v = true ->
    exists x, value v = truncate x.
Proof.
  intros fuel lines w' name v H.
  assert (Hgen : forall w, integersConverted (variables w) ->
                           processLines fuel lines w = Some w' ->
                           integersConverted (variables w')).
  { clear H. induction lines as [|line lines IH]; intros w Hw H.
    - inversion H; subst. exact Hw.
    - cbn [processLines] in H.
      destruct (processLine fuel line w) as [w1|] eqn:E; [|discriminate].
      apply (IH w1); [|exact H].
      eapply processLine_integersConverted; eauto. }
  apply (Hgen emptyWorld integersConverted_empty H).
Qed.

(** ** Searching and splitting *)

Lemma HasPrefix_spec s prefix :
  HasPrefix s prefix = true <-> s = prefix ++ drop (length prefix) s.
Proof.
  revert s. induction prefix as [|c prefix IH]; intros s.
  - simpl. rewrite drop_0. split; [reflexivity|]. intros _. destruct s; reflexivity.
  - destruct s as [|r s]; simpl.
    + split; discriminate.
    + rewrite andb_true_iff, Z.eqb_eq, IH. split.
      * intros [-> H]. f_equal. exact H.
      * intros H. inversion H as [[H1 H2]]. rewrite <- H2. auto.
Qed.

(** [IndexFrom] answers [-1] when no suffix of [s] starts with [sep], and
    otherwise the offset of the first suffix that does. *)
Lemma IndexFrom_spec sep s : forall i,
  (IndexFrom s sep i = (-1)%Z /\ forall j, HasPrefix (drop j s) sep = false)
  \/ (exists k,
        IndexFrom s sep i = (i + Z.of_nat k)%Z
        /\ k + length sep <= length s
        /\ HasPrefix (drop k s) sep = true
        /\ forall j, j < k -> HasPrefix (drop j s) sep = false).
Proof.
  induction s as [|r s IH]; intros i.
  - cbn [IndexFrom]. destruct (HasPrefix [] sep) eqn:E.
    + right. exists 0. rewrite Z.add_0_r. repeat split; [|exact E|intros j Hj; lia].
      apply HasPrefix_spec in E. destruct sep; [simpl; lia|discriminate].
    + left. split; [reflexivity|]. intros j. rewrite drop_nil. exact E.
  - cbn [IndexFrom]. destruct (HasPrefix (r :: s) sep) eqn:E.
    + right. exists 0. rewrite Z.add_0_r. repeat split; [|exact E|intros j Hj; lia].
      apply HasPrefix_spec in E. apply (f_equal length) in E.
      rewrite length_app in E. simpl in *. lia.
    + destruct (IH (i + 1)%Z) as [[H1 H2]|(k & H1 & H2 & H3 & H4)].
      * left. split; [exact H1|]. intros [|j]; [exact E|apply H2].
      * right. exists (S k). repeat split.
        -- rewrite H1. lia.
        -- simpl. lia.
        -- exact H3.
        -- intros [|j] Hj; [exact E|]. apply H4. lia.
Qed.

Lemma Contains_occurrence s sep k :
  HasPrefix (drop k s) sep = true -> Contains s sep = true.
Proof.
  intros H. unfold Contains, Index.
  destruct (IndexFrom_spec sep s 0) as [[_ Hno]|(j & Hj & _)].
  - rewrite Hno in H. discriminate.
  - rewrite Hj. apply Z.leb_le. lia.
Qed.

(** A string that contains [)=] contains [=]. *)
Lemma Contains_rparenEquals s : Contains s rparenEquals = true -> Contains s equals = true.
Proof.
  unfold Contains at 1. unfold Index.
  destruct (IndexFrom_spec rparenEquals s 0) as [[H _]|(k & Hk & _ & Hp & _)].
  - rewrite H. discriminate.
  - intros _. apply (Contains_occurrence s equals (S k)).
    apply HasPrefix_spec in Hp. cbn [length rparenEquals] in Hp.
    apply HasPrefix_spec.
    assert (Hd : drop (S k) s = drop 1 (drop k s)) by (rewrite drop_drop; f_equal; lia).
    rewrite Hd, Hp. cbn. rewrite drop_0. reflexivity.
Qed.

(** X3.  [strings.SplitN(s, sep, 2)] on a string that contains [sep] cuts at
    the first occurrence: there are two parts, they give back [s] with [sep]
    between them, and [sep] starts nowhere before the cut.  So an assignment
    [a = b = c] has the name [a] and the expression [b = c]. *)
Theorem split_at_first_occurrence :
  forall s sep,
    Contains s sep = true ->
    exists k,
      Index s sep = Z.of_nat k
      /\ SplitN2 s sep = [take k s; drop (k + length sep) s]
      /\ s = take k s ++ sep ++ drop (k + length sep) s
      /\ forall j, j < k -> HasPrefix (drop j s) sep = false.
Proof.
  intros s sep Hc. unfold Contains, Index in Hc.
  destruct (IndexFrom_spec sep s 0) as [[H _]|(k & Hk & Hlen & Hp & Hfirst)].
  { rewrite H in Hc. discriminate. }
  exists k. rewrite Z.add_0_l in Hk. repeat split.
  - exact Hk.
  - unfold SplitN2, Index. rewrite Hk.
    destruct (Z.ltb_spec (Z.of_nat k) 0) as [Hneg|_]; [lia|].
    rewrite Nat2Z.id. reflexivity.
  - apply HasPrefix_spec in Hp. rewrite drop_drop in Hp.
    rewrite <- Hp. symmetry. apply take_drop.
  - exact Hfirst.
Qed.

(** ** Trimming twice *)

Lemma TrimLeftSpace_idempotent s : TrimLeftSpace (TrimLeftSpace s) = TrimLeftSpace s.
Proof.
  destruct (TrimLeftSpace s) as [|r t] eqn:E; [reflexivity|].
  apply TrimLeftSpace_fixed. eapply TrimLeftSpace_head. exact E.
Qed.

Lemma TrimSpace_idempotent s : TrimSpace (TrimSpace s) = TrimSpace s.
Proof.
  assert (Hl : TrimLeftSpace (TrimSpace s) = TrimSpace s).
  { destruct (TrimSpace s) as [|r t] eqn:E; [reflexivity|].
    apply TrimLeftSpace_fixed. eapply TrimSpace_head. exact E. }
  unfold TrimSpace at 1. rewrite Hl. unfold TrimSpace.
  rewrite rev_involutive, TrimLeftSpace_idempotent. reflexivity.
Qed.

(** ** Indices and slices of [processLine] *)

Lemma Index_found s sep :
  Contains s sep = true ->
  exists k, Index s sep = Z.of_nat k /\ k + length sep <= length s
            /\ HasPrefix (drop k s) sep = true.
Proof.
  intros Hc. unfold Contains, Index in *.
  destruct (IndexFrom_spec sep s 0) as [[H _]|(k & Hk & Hlen & Hp & _)].
  - rewrite H in Hc. discriminate.
  - exists k. rewrite Z.add_0_l in Hk. auto.
Qed.

Lemma Index_ge s sep : (-1 <= Index s sep)%Z.
Proof.
  unfold Index. destruct (IndexFrom_spec sep s 0) as [[H _]|(k & Hk & _)]; rewrite ?H, ?Hk; lia.
Qed.

(** X4.  The indexing and slicing of [processLine] stay in range, so none of
    them can panic: [parts[1]] exists whenever the line contains the
    separator; [rest[0]] exists in the [print] block; a function header that
    passes the format test has [idxOpenParen + 1 <= idxCloseParen <=
    len(left)]; and a line with the suffix [;] has a last byte to drop. *)
Theorem indices_stay_in_range :
  (forall s sep,
      Contains s sep = true ->
      length (SplitN2 s sep) = 2
      /\ (0 <= Index s sep)%Z
      /\ Z.to_nat (Index s sep) + length sep <= length s)
  /\ (forall line,
      TrimSpace (drop (length kwPrint) line) <> [] ->
      TrimSpace (TrimSpace (drop (length kwPrint) line)) <> [])
  /\ (forall left0,
      (Index left0 lparen =? -1)%Z || (Index left0 rparen =? -1)%Z
      || (Index left0 rparen <? Index left0 lparen)%Z = false ->
      (0 <= Index left0 lparen)%Z
      /\ Z.to_nat (Index left0 lparen) + 1 <= Z.to_nat (Index left0 rparen)
      /\ Z.to_nat (Index left0 rparen) <= length left0)
  /\ (forall line, HasSuffix line semicolon = true -> 1 <= length line).
Proof.
  split; [|split; [|split]].
  - intros s sep Hc. destruct (Index_found s sep Hc) as (k & Hk & Hlen & _).
    unfold SplitN2. rewrite Hk.
    destruct (Z.ltb_spec (Z.of_nat k) 0) as [Hneg|_]; [lia|].
    rewrite Nat2Z.id. split; [reflexivity|]. split; [lia|exact Hlen].
  - intros line H. rewrite TrimSpace_idempotent. exact H.
  - intros left0 H.
    apply orb_false_iff in H as [H Hlt]. apply orb_false_iff in H as [Ho Hc].
    apply Z.eqb_neq in Ho, Hc. apply Z.ltb_ge in Hlt.
    pose proof (Index_ge left0 lparen). pose proof (Index_ge left0 rparen).
    destruct (Index_found left0 lparen) as (ko & Hko & Hlo & Hpo);
      [unfold Contains; apply Z.leb_le; lia|].
    destruct (Index_found left0 rparen) as (kc & Hkc & Hlc & Hpc);
      [unfold Contains; apply Z.leb_le; lia|].
    rewrite Hko, Hkc in *. rewrite !Nat2Z.id. cbn [length lparen rparen] in *.
    split; [lia|]. split; [|lia].
    destruct (decide (ko = kc)) as [->|Hne]; [|lia].
    apply HasPrefix_spec in Hpo, Hpc. rewrite Hpo in Hpc. discriminate.
  - intros line H. destruct line; [discriminate|simpl; lia].
Qed.

(** ** Which lines write where *)

(** X5.  The dispatch of [processLine] fences the two maps: a line made of
    white space changes nothing; the functions change only on a line that
    contains [:] and does not start with [print]; the variables are left as
    they are by every line that starts with [print], contains [:] or
    contains no [=]. *)
Theorem statement_frame :
  forall fuel line w w',
    processLine fuel line w = Some w' ->
    (TrimSpace line = [] -> w' = w)
    /\ (HasPrefix (stripLine (TrimSpace line)) kwPrint = true
        \/ Contains (stripLine (TrimSpace line)) colon = false ->
        functions w' = functions w)
    /\ (HasPrefix (stripLine (TrimSpace line)) kwPrint = true
        \/ Contains (stripLine (TrimSpace line)) colon = true
        \/ Contains (stripLine (TrimSpace line)) equals = false ->
        variables w' = variables w).
Proof.
  intros fuel line w w'. unfold processLine.
  destruct (TrimSpace line) as [|r t] eqn:Et.
  { intros H. inversion H; subst. repeat split; auto. }
  set (l := stripLine (r :: t)).
  intros H. split; [discriminate|].
  destruct (HasPrefix l kwPrint) eqn:Ep.
  { inversion H; subst. destruct (printStatement_store l w) as [Hv Hf]. split; auto. }
  destruct (Contains l colon) eqn:Ec.
  { inversion H; subst. split.
    - intros [Hx|Hx]; discriminate.
    - intros _. unfold functionDefinition. destruct (_ || _); reflexivity. }
  destruct (Contains l rparenEquals) eqn:Er.
  { pose proof (Contains_rparenEquals l Er) as He. split.
    2:{ intros [Hx|[Hx|Hx]]; congruence. }
    intros _. unfold typedInitialization in H.
    destruct (Index _ lparen =? -1)%Z; [inversion H; reflexivity|].
    destruct (evaluateExpression fuel _ w) as [[[val ok] w1]|] eqn:E; [|discriminate].
    destruct (evaluateExpression_sameStore _ _ _ _ _ _ E) as [Hf _].
    destruct ok; cbn [negb] in H; [|inversion H; subst; exact Hf].
    destruct (text_eqb _ tagInt); [|destruct (text_eqb _ tagFloat)];
      inversion H; subst; rewrite ?setVariable_functions; exact Hf. }
  destruct (Contains l equals) eqn:Ee.
  { split.
    2:{ intros [Hx|[Hx|Hx]]; congruence. }
    intros _. unfold plainAssignment in H.
    destruct (evaluateExpression fuel _ w) as [[[val ok] w1]|] eqn:E; [|discriminate].
    destruct (evaluateExpression_sameStore _ _ _ _ _ _ E) as [Hf _].
    destruct ok; cbn [negb] in H; [|inversion H; subst; exact Hf].
    unfold getVariable in H.
    destruct (variables w1 !! assignTarget l) as [v|]; [destruct (isInt v)|];
      inversion H; subst; rewrite ?setVariable_functions; exact Hf. }
  inversion H; subst. split; reflexivity.
Qed.

(** ** The lexer moves forward, within the input *)

Lemma nextRune_input l : input (nextRune l) = input l.
Proof. unfold nextRune. destruct (Nat.leb _ _); reflexivity. Qed.

Lemma nextRune_pos l :
  pos l <= length (input l) ->
  pos l <= pos (nextRune l) <= length (input l).
Proof.
  unfold nextRune. intros H.
  destruct (Nat.leb_spec (length (input l)) (pos l)); simpl; lia.
Qed.

Lemma nextRune_step l : peekRune l <> 0%Z -> pos (nextRune l) = S (pos l).
Proof.
  unfold nextRune, peekRune. intros H.
  destruct (Nat.leb_spec (length (input l)) (pos l)) as [Hle|Hlt]; [|reflexivity].
  exfalso. apply H. apply nth_overflow. exact Hle.
Qed.

Lemma skipSpaces_bounds n : forall l,
  pos l <= length (input l) ->
  input (skipSpaces n l) = input l
  /\ pos l <= pos (skipSpaces n l) <= length (input l).
Proof.
  induction n as [|n IH]; intros l Hl; simpl; [split; [reflexivity|lia]|].
  destruct (IsSpace (peekRune l)); [|split; [reflexivity|lia]].
  pose proof (nextRune_pos l Hl) as Hn. pose proof (nextRune_input l) as Hi.
  destruct (IH (nextRune l)) as [H1 H2]; [rewrite Hi; lia|].
  rewrite H1, Hi in *. split; [reflexivity|lia].
Qed.

Lemma scanIdent_bounds n : forall l,
  pos l <= length (input l) ->
  input (scanIdent n l) = input l
  /\ pos l <= pos (scanIdent n l) <= length (input l).
Proof.
  induction n as [|n IH]; intros l Hl; simpl; [split; [reflexivity|lia]|].
  destruct (_ || _); [|split; [reflexivity|lia]].
  pose proof (nextRune_pos l Hl) as Hn. pose proof (nextRune_input l) as Hi.
  destruct (IH (nextRune l)) as [H1 H2]; [rewrite Hi; lia|].
  rewrite H1, Hi in *. split; [reflexivity|lia].
Qed.

Lemma scanNumber_bounds n : forall dotCount l,
  pos l <= length (input l) ->
  input (scanNumber n dotCount l) = input l
  /\ pos l <= pos (scanNumber n dotCount l) <= length (input l).
Proof.
  induction n as [|n IH]; intros dotCount l Hl; simpl; [split; [reflexivity|lia]|].
  pose proof (nextRune_pos l Hl) as Hn. pose proof (nextRune_input l) as Hi.
  destruct (_ || _); [|split; [reflexivity|lia]].
  destruct (peekRune l =? 46)%Z; [destruct (Nat.ltb 1 (S dotCount))|];
    try (split; [reflexivity|lia]);
    match goal with |- context [scanNumber n ?d (nextRune l)] =>
      destruct (IH d (nextRune l)) as [H1 H2]; [rewrite Hi; lia|];
      rewrite H1, Hi in *; split; [reflexivity|lia]
    end.
Qed.

Lemma skipSpaces_stays n l : IsSpace (peekRune l) = false -> skipSpaces n l = l.
Proof. intros H. destruct n; simpl; [reflexivity|]. rewrite H. reflexivity. Qed.

Lemma NextToken_bounds l :
  pos l <= length (input l) ->
  input (snd (NextToken l)) = input l
  /\ pos l <= pos (snd (NextToken l)) <= length (input l)
  /\ (isEndToken (typ (fst (NextToken l))) = false -> pos l < pos (snd (NextToken l)))
  /\ (isEndToken (typ (fst (NextToken l))) = true ->
      NextToken (snd (NextToken l)) = NextToken l).
Proof.
  intros Hl.
  destruct (skipSpaces_bounds (remaining l) l Hl) as [Hi Hp].
  pose proof (skipSpaces_done (remaining l) l (le_n _)) as Hs.
  assert (Hstuck : NextToken (skipSpaces (remaining l) l) = NextToken l).
  { unfold NextToken at 1. rewrite (skipSpaces_stays _ _ Hs). reflexivity. }
  unfold NextToken in *.
  set (l1 := skipSpaces (remaining l) l) in *.
  assert (Hl1 : pos l1 <= length (input l1)) by (rewrite Hi; lia).
  pose proof (nextRune_pos l1 Hl1) as Hn. pose proof (nextRune_input l1) as Hni.
  destruct (peekRune l1 =? 0)%Z eqn:E0.
  { cbn [fst snd typ isEndToken]. repeat split; try lia; try discriminate; auto. }
  apply Z.eqb_neq in E0. pose proof (nextRune_step l1 E0) as Hstep.
  repeat (match goal with
          | |- context [if (peekRune l1 =? ?c)%Z then _ else _] =>
              destruct (peekRune l1 =? c)%Z;
              [cbn [fst snd typ isEndToken]; rewrite Hni, Hi in *;
               repeat split; try lia; discriminate|]
          end).
  destruct (IsDigit (peekRune l1)) eqn:Ed.
  { cbn [fst snd typ isEndToken].
    destruct (scanNumber_bounds (remaining l1) 0 l1 Hl1) as [H1 H2].
    rewrite H1, Hi in *. repeat split; try lia; try discriminate.
    intros _. destruct (remaining l1) as [|n] eqn:Er.
    { unfold remaining in Er. rewrite Hi in Er. lia. }
    cbn [scanNumber]. rewrite Ed. cbn [orb].
    destruct (peekRune l1 =? 46)%Z eqn:E46.
    { apply Z.eqb_eq in E46. rewrite E46 in Ed. discriminate. }
    destruct (scanNumber_bounds n 0 (nextRune l1)) as [_ H3]; [rewrite Hni; lia|].
    lia. }
  destruct (IsLetter (peekRune l1) || (peekRune l1 =? 95)%Z) eqn:El.
  { cbn [fst snd typ isEndToken].
    destruct (scanIdent_bounds (remaining l1) l1 Hl1) as [H1 H2].
    rewrite H1, Hi in *. repeat split; try lia; try discriminate.
    intros _. destruct (remaining l1) as [|n] eqn:Er.
    { unfold remaining in Er. rewrite Hi in Er. lia. }
    cbn [scanIdent].
    assert (Hc : IsLetter (peekRune l1) || IsDigit (peekRune l1) || (peekRune l1 =? 95)%Z
                 = true).
    { rewrite Ed, orb_false_r. exact El. }
    rewrite Hc.
    destruct (scanIdent_bounds n (nextRune l1)) as [_ H3]; [rewrite Hni; lia|].
    lia. }
  cbn [fst snd typ isEndToken]. repeat split; try lia; try discriminate; auto.
Qed.

(** X6.  [NextToken] never changes the input and never moves the position
    backwards or past the end.  A token other than the end and the error
    token takes at least one rune, so that every loop of the parser, which
    reads a token in each round, comes to an end; on the end of the input and
    on an unrecognized rune the lexer stays where it is and every further call
    returns the same token. *)
Theorem lexer_moves_forward :
  forall l,
    pos l <= length (input l) ->
    input (snd (NextToken l)) = input l
    /\ pos l <= pos (snd (NextToken l)) <= length (input l)
    /\ (isEndToken (typ (fst (NextToken l))) = false -> pos l < pos (snd (NextToken l)))
    /\ (isEndToken (typ (fst (NextToken l))) = true ->
        NextToken (snd (NextToken l)) = NextToken l).
Proof. intros l Hl. exact (NextToken_bounds l Hl). Qed.

(** ** What a number token and an identifier token hold *)

Lemma drop_peek (s : text) a :
  a < length s -> drop a s = nth a s 0%Z :: drop (S a) s.
Proof.
  revert a. induction s as [|x s IH]; intros a Ha; [simpl in Ha; lia|].
  destruct a as [|a]; [reflexivity|]. simpl. apply IH. simpl in Ha. lia.
Qed.

(** The runes between two positions, the first of which is in the input and
    strictly before the second. *)
Lemma slice_peek l b :
  peekRune l <> 0%Z -> pos l < b ->
  slice (input l) (pos l) b = peekRune l :: slice (input l) (S (pos l)) b.
Proof.
  intros H0 Hb. unfold slice, peekRune in *.
  assert (Hlt : pos l < length (input l)).
  { destruct (Nat.lt_ge_cases (pos l) (length (input l))) as [Hlt|Hge]; [exact Hlt|].
    exfalso. apply H0. apply nth_overflow. exact Hge. }
  rewrite (drop_peek _ _ Hlt).
  replace (b - pos l) with (S (b - S (pos l))) by lia. reflexivity.
Qed.

Lemma slice_empty (s : text) a : slice s a a = [].
Proof. unfold slice. rewrite Nat.sub_diag. reflexivity. Qed.

Lemma scanIdent_run n : forall l,
  pos l <= length (input l) ->
  Forall (fun r => identRune r = true)
         (slice (input l) (pos l) (pos (scanIdent n l))).
Proof.
  induction n as [|n IH]; intros l Hl; cbn [scanIdent].
  { rewrite slice_empty. constructor. }
  destruct (IsLetter (peekRune l) || IsDigit (peekRune l) || (peekRune l =? 95)%Z) eqn:E.
  2:{ rewrite slice_empty. constructor. }
  assert (H0 : peekRune l <> 0%Z) by (intros H0; rewrite H0 in E; discriminate).
  pose proof (nextRune_step l H0) as Hstep. pose proof (nextRune_input l) as Hi.
  pose proof (nextRune_pos l Hl) as Hn.
  destruct (scanIdent_bounds n (nextRune l)) as [_ Hb]; [rewrite Hi; lia|].
  rewrite (slice_peek l _ H0) by lia.
  constructor; [exact E|].
  specialize (IH (nextRune l)). rewrite Hi, Hstep in IH. apply IH. lia.
Qed.

Lemma scanNumber_run n : forall dotCount l,
  pos l <= length (input l) ->
  Forall (fun r => numberRune r = true)
         (slice (input l) (pos l) (pos (scanNumber n dotCount l)))
  /\ countDots (slice (input l) (pos l) (pos (scanNumber n dotCount l))) <= 1 - dotCount
  /\ ((peekRune (scanNumber n dotCount l) =? 46)%Z = true ->
      remaining l <= n ->
      1 <= dotCount
           + countDots (slice (input l) (pos l) (pos (scanNumber n dotCount l)))).
Proof.
  induction n as [|n IH]; intros dotCount l Hl; cbn [scanNumber].
  { rewrite slice_empty. split; [constructor|]. split; [simpl; lia|].
    intros H46 Hr. rewrite peekRune_end in H46 by lia. discriminate. }
  destruct (IsDigit (peekRune l) || (peekRune l =? 46)%Z) eqn:E.
  2:{ rewrite slice_empty. split; [constructor|]. split; [simpl; lia|].
      intros H46 _. apply orb_false_iff in E as [_ E]. congruence. }
  assert (H0 : peekRune l <> 0%Z) by (intros H0; rewrite H0 in E; discriminate).
  assert (Hnum : numberRune (peekRune l) = true) by exact E.
  pose proof (nextRune_step l H0) as Hstep. pose proof (nextRune_input l) as Hi.
  pose proof (nextRune_pos l Hl) as Hn. pose proof (remaining_nextRune l H0) as Hrem.
  destruct (peekRune l =? 46)%Z eqn:E46.
  - destruct (Nat.ltb_spec 1 (S dotCount)) as [Hd|Hd].
    + rewrite slice_empty. split; [constructor|]. split; [simpl; lia|].
      intros _ _. lia.
    + destruct (scanNumber_bounds n (S dotCount) (nextRune l)) as [_ Hb]; [rewrite Hi; lia|].
      destruct (IH (S dotCount) (nextRune l)) as (H1 & H2 & H3); [rewrite Hi; lia|].
      rewrite Hi, Hstep in H1, H2, H3.
      rewrite (slice_peek l _ H0) by lia. cbn [countDots]. rewrite E46.
      split; [constructor; [exact Hnum|exact H1]|]. split; [lia|]. intros _ _. lia.
  - destruct (scanNumber_bounds n dotCount (nextRune l)) as [_ Hb]; [rewrite Hi; lia|].
    destruct (IH dotCount (nextRune l)) as (H1 & H2 & H3); [rewrite Hi; lia|].
    rewrite Hi, Hstep in H1, H2, H3.
    rewrite (slice_peek l _ H0) by lia. cbn [countDots]. rewrite E46.
    split; [constructor; [exact Hnum|exact H1]|]. split; [simpl; lia|].
    intros H46 Hr. simpl. apply H3; [exact H46|lia].
Qed.

(** X7.  A number token starts with a digit, consists of digits and dots and
    holds at most one dot; the rune behind it is no digit, and is a dot only
    when the token holds one already.  An identifier token starts with a
    letter or an underscore and consists of letters, digits and underscores;
    the rune behind it is none of these.  Both are the runes of the input
    between the position where the token starts and the position reached. *)
Theorem tokens_are_maximal_runs :
  forall l,
    pos l <= length (input l) ->
    (typ (fst (NextToken l)) = TokenNumber ->
     tokValue (fst (NextToken l))
     = slice (input l) (pos (skipSpaces (remaining l) l)) (pos (snd (NextToken l)))
     /\ (exists r rest, tokValue (fst (NextToken l)) = r :: rest /\ IsDigit r = true)
     /\ Forall (fun r => numberRune r = true) (tokValue (fst (NextToken l)))
     /\ countDots (tokValue (fst (NextToken l))) <= 1
     /\ IsDigit (peekRune (snd (NextToken l))) = false
     /\ ((peekRune (snd (NextToken l)) =? 46)%Z = true ->
         countDots (tokValue (fst (NextToken l))) = 1))
    /\ (typ (fst (NextToken l)) = TokenIdent ->
        tokValue (fst (NextToken l))
        = slice (input l) (pos (skipSpaces (remaining l) l)) (pos (snd (NextToken l)))
        /\ (exists r rest, tokValue (fst (NextToken l)) = r :: rest
                           /\ IsLetter r || (r =? 95)%Z = true)
        /\ Forall (fun r => identRune r = true) (tokValue (fst (NextToken l)))
        /\ identRune (peekRune (snd (NextToken l))) = false).
Proof.
  intros l Hl.
  destruct (skipSpaces_bounds (remaining l) l Hl) as [Hi Hp].
  unfold NextToken.
  set (l1 := skipSpaces (remaining l) l) in *.
  assert (Hl1 : pos l1 <= length (input l1)) by (rewrite Hi; lia).
  destruct (peekRune l1 =? 0)%Z eqn:E0; [split; discriminate|].
  apply Z.eqb_neq in E0.
  repeat (match goal with
          | |- context [if (peekRune l1 =? ?c)%Z then _ else _] =>
              destruct (peekRune l1 =? c)%Z; [split; discriminate|]
          end).
  pose proof (nextRune_step l1 E0) as Hstep. pose proof (nextRune_input l1) as Hni.
  pose proof (nextRune_pos l1 Hl1) as Hn.
  destruct (IsDigit (peekRune l1)) eqn:Ed.
  - split; [|discriminate]. intros _. cbn [fst snd tokValue].
    destruct (scanNumber_bounds (remaining l1) 0 l1 Hl1) as [H1 H2].
    destruct (scanNumber_run (remaining l1) 0 l1 Hl1) as (Hall & Hdots & Hdot).
    pose proof (scanNumber_done (remaining l1) 0 l1 (le_n _)) as Hdone.
    rewrite H1 in *. rewrite <- Hi.
    split; [reflexivity|]. split.
    + destruct (remaining l1) as [|n] eqn:Er.
      { unfold remaining in Er. pose proof (remaining_nextRune l1 E0) as Hx.
        unfold remaining in Hx. lia. }
      cbn [scanNumber]. rewrite Ed. cbn [orb].
      destruct (peekRune l1 =? 46)%Z eqn:E46.
      { apply Z.eqb_eq in E46. rewrite E46 in Ed. discriminate. }
      destruct (scanNumber_bounds n 0 (nextRune l1)) as [_ H3]; [rewrite Hni; lia|].
      rewrite (slice_peek l1 _ E0) by lia. eauto.
    + split; [exact Hall|]. split; [lia|]. split; [exact Hdone|].
      intros H46. specialize (Hdot H46 (le_n _)). lia.
  - destruct (IsLetter (peekRune l1) || (peekRune l1 =? 95)%Z) eqn:El;
      [|split; discriminate].
    split; [discriminate|]. intros _. cbn [fst snd tokValue].
    destruct (scanIdent_bounds (remaining l1) l1 Hl1) as [H1 H2].
    pose proof (scanIdent_run (remaining l1) l1 Hl1) as Hall.
    pose proof (scanIdent_done (remaining l1) l1 (le_n _)) as Hdone.
    rewrite H1 in *. rewrite <- Hi.
    split; [reflexivity|]. split.
    + destruct (remaining l1) as [|n] eqn:Er.
      { unfold remaining in Er. pose proof (remaining_nextRune l1 E0) as Hx.
        unfold remaining in Hx. lia. }
      cbn [scanIdent].
      assert (Hc : IsLetter (peekRune l1) || IsDigit (peekRune l1) || (peekRune l1 =? 95)%Z
                   = true).
      { rewrite Ed, orb_false_r. exact El. }
      rewrite Hc.
      destruct (scanIdent_bounds n (nextRune l1)) as [_ H3]; [rewrite Hni; lia|].
      rewrite (slice_peek l1 _ E0) by lia. eauto.
    + split; [exact Hall|exact Hdone].
Qed.

(** ** The evaluator on expressions without calls *)

Lemma after_add a : forall b p, after (a + b) p = after b (after a p).
Proof. induction a as [|a IH]; intros b p; [reflexivity|]. simpl. apply IH. Qed.

Lemma reads_app ts1 : forall ts2 p,
  reads (ts1 ++ ts2) p <-> reads ts1 p /\ reads ts2 (after (length ts1) p).
Proof.
  induction ts1 as [|t ts1 IH]; intros ts2 p; simpl; [tauto|].
  rewrite IH. tauto.
Qed.

Lemma errMsg_after n : forall p, errMsg (after n p) = errMsg p.
Proof.
  induction n as [|n IH]; intros p; [reflexivity|]. simpl. rewrite IH. apply errMsg_next.
Qed.

Lemma endsExpression_stops t :
  endsExpression t = true ->
  isPlusMinus t = false /\ isStarSlash t = false /\ t <> TokenLParen.
Proof. destruct t; simpl; intros H; try discriminate; repeat split; discriminate. Qed.

(** In front of the rest of an expression stands [+], [-] or the token that
    ends it: nothing that continues a term or opens a call. *)
Lemma exprRest_head r p :
  reads (tokensExprRest r) p ->
  endsExpression (typ (curr (after (length (tokensExprRest r)) p))) = true ->
  isStarSlash (typ (curr p)) = false /\ typ (curr p) <> TokenLParen.
Proof.
  destruct r as [|t rest|t rest]; simpl.
  - intros _ H. apply endsExpression_stops in H. tauto.
  - intros [H _] _. rewrite H. split; [reflexivity|discriminate].
  - intros [H _] _. rewrite H. split; [reflexivity|discriminate].
Qed.

Lemma termRest_head r p :
  reads (tokensTermRest r) p ->
  isStarSlash (typ (curr (after (length (tokensTermRest r)) p))) = false
  /\ typ (curr (after (length (tokensTermRest r)) p)) <> TokenLParen ->
  typ (curr p) <> TokenLParen.
Proof.
  destruct r as [|f rest|f rest]; simpl.
  - tauto.
  - intros [H _] _. rewrite H. discriminate.
  - intros [H _] _. rewrite H. discriminate.
Qed.

Lemma derivations_evaluate :
  (forall e p w,
      closedExpr w e -> reads (tokensExpr e) p ->
      endsExpression (typ (curr (after (length (tokensExpr e)) p))) = true ->
      exists n, forall fuel, n <= fuel ->
        parseExpression fuel p w
        = Some (valueExpr w e, after (length (tokensExpr e)) p, w))
  /\ (forall r val p w,
      closedExprRest w r -> reads (tokensExprRest r) p ->
      endsExpression (typ (curr (after (length (tokensExprRest r)) p))) = true ->
      exists n, forall fuel, n <= fuel ->
        parseExpressionLoop fuel val p w
        = Some (valueExprRest w val r, after (length (tokensExprRest r)) p, w))
  /\ (forall t p w,
      closedTerm w t -> reads (tokensTerm t) p ->
      isStarSlash (typ (curr (after (length (tokensTerm t)) p))) = false
      /\ typ (curr (after (length (tokensTerm t)) p)) <> TokenLParen ->
      exists n, forall fuel, n <= fuel ->
        parseTerm fuel p w = Some (valueTerm w t, after (length (tokensTerm t)) p, w))
  /\ (forall r val p w,
      closedTermRest w r -> reads (tokensTermRest r) p ->
      isStarSlash (typ (curr (after (length (tokensTermRest r)) p))) = false
      /\ typ (curr (after (length (tokensTermRest r)) p)) <> TokenLParen ->
      exists n, forall fuel, n <= fuel ->
        parseTermLoop fuel val p w
        = Some (valueTermRest w val r, after (length (tokensTermRest r)) p, w))
  /\ (forall f p w,
      closedFactor w f -> reads (tokensFactor f) p ->
      typ (curr (after (length (tokensFactor f)) p)) <> TokenLParen ->
      exists n, forall fuel, n <= fuel ->
        parseFactor fuel p w = Some (valueFactor w f, after (length (tokensFactor f)) p, w)).
Proof.
  apply Expr_mutind.
  - (* a term and the rest of the expression *)
    intros t IHt rest IHr p w [Ct Cr] Hreads Hend. cbn [tokensExpr] in *.
    apply reads_app in Hreads as [Rt Rr]. rewrite length_app, after_add in *.
    destruct (IHt p w Ct Rt (exprRest_head _ _ Rr Hend)) as [nt Ht].
    destruct (IHr (valueTerm w t) _ w Cr Rr Hend) as [nr Hr].
    exists (S (Nat.max nt nr)). intros fuel Hf.
    destruct fuel as [|fuel]; [lia|].
    rewrite parseExpression_S, Ht by lia. apply Hr. lia.
  - intros val p w _ _ Hend. cbn in Hend. apply endsExpression_stops in Hend as (H & _ & _).
    exists 1. intros fuel Hf. destruct fuel as [|fuel]; [lia|].
    rewrite parseExpressionLoop_S, H. reflexivity.
  - intros t IHt rest IHr val p w [Ct Cr] [Hc Hreads] Hend.
    cbn [tokensExprRest length after] in *.
    apply reads_app in Hreads as [Rt Rr]. rewrite length_app, after_add in *.
    destruct (IHt (next p) w Ct Rt (exprRest_head _ _ Rr Hend)) as [nt Ht].
    destruct (IHr (val + valueTerm w t)%float _ w Cr Rr Hend) as [nr Hr].
    exists (S (Nat.max nt nr)). intros fuel Hf.
    destruct fuel as [|fuel]; [lia|].
    rewrite parseExpressionLoop_S, Hc. cbn [typ token isPlusMinus].
    rewrite Ht by lia. apply Hr. lia.
  - intros t IHt rest IHr val p w [Ct Cr] [Hc Hreads] Hend.
    cbn [tokensExprRest length after] in *.
    apply reads_app in Hreads as [Rt Rr]. rewrite length_app, after_add in *.
    destruct (IHt (next p) w Ct Rt (exprRest_head _ _ Rr Hend)) as [nt Ht].
    destruct (IHr (val - valueTerm w t)%float _ w Cr Rr Hend) as [nr Hr].
    exists (S (Nat.max nt nr)). intros fuel Hf.
    destruct fuel as [|fuel]; [lia|].
    rewrite parseExpressionLoop_S, Hc. cbn [typ token isPlusMinus].
    rewrite Ht by lia. apply Hr. lia.
  - (* a factor and the rest of the term *)
    intros f IHf rest IHr p w [Cf Cr] Hreads Hend. cbn [tokensTerm] in *.
    apply reads_app in Hreads as [Rf Rr]. rewrite length_app, after_add in *.
    destruct (IHf p w Cf Rf (termRest_head _ _ Rr Hend)) as [nf Hf].
    destruct (IHr (valueFactor w f) _ w Cr Rr Hend) as [nr Hr].
    exists (S (Nat.max nf nr)). intros fuel Hfuel.
    destruct fuel as [|fuel]; [lia|].
    rewrite parseTerm_S, Hf by lia. apply Hr. lia.
  - intros val p w _ _ [Hend _]. cbn in Hend.
    exists 1. intros fuel Hf. destruct fuel as [|fuel]; [lia|].
    rewrite parseTermLoop_S, Hend. reflexivity.
  - intros f IHf rest IHr val p w [Cf Cr] [Hc Hreads] Hend.
    cbn [tokensTermRest length after] in *.
    apply reads_app in Hreads as [Rf Rr]. rewrite length_app, after_add in *.
    destruct (IHf (next p) w Cf Rf (termRest_head _ _ Rr Hend)) as [nf Hf].
    destruct (IHr (val * valueFactor w f)%float _ w Cr Rr Hend) as [nr Hr].
    exists (S (Nat.max nf nr)). intros fuel Hfuel.
    destruct fuel as [|fuel]; [lia|].
    rewrite parseTermLoop_S, Hc. cbn [typ token isStarSlash].
    rewrite Hf by lia. apply Hr. lia.
  - intros f IHf rest IHr val p w [Cf Cr] [Hc Hreads] Hend.
    cbn [tokensTermRest length after] in *.
    apply reads_app in Hreads as [Rf Rr]. rewrite length_app, after_add in *.
    destruct (IHf (next p) w Cf Rf (termRest_head _ _ Rr Hend)) as [nf Hf].
    destruct (IHr (divide val (valueFactor w f)) _ w Cr Rr Hend) as [nr Hr].
    exists (S (Nat.max nf nr)). intros fuel Hfuel.
    destruct fuel as [|fuel]; [lia|].
    rewrite parseTermLoop_S, Hc. cbn [typ token isStarSlash].
    rewrite Hf by lia. apply Hr. lia.
  - (* the factors *)
    intros tok p w Hc [Hcurr _] _. cbn in Hc.
    exists 1. intros fuel Hf. destruct fuel as [|fuel]; [lia|].
    rewrite parseFactor_S, Hcurr. cbn [typ tokValue valueFactor].
    destruct (ParseFloat tok); [reflexivity|contradiction].
  - intros name p w Hc [Hcurr _] Hnext. cbn in Hc. cbn [tokensFactor length after] in Hnext.
    exists 1. intros fuel Hf. destruct fuel as [|fuel]; [lia|].
    rewrite parseFactor_S, Hcurr. cbn [typ tokValue valueFactor]. unfold getVariable.
    destruct (variables w !! name); [|contradiction].
    destruct (typ (curr (next p))); try reflexivity. contradiction.
  - intros e IHe p w Hc [Hcurr Hreads] _.
    cbn [tokensFactor length after] in *.
    apply reads_app in Hreads as [Re [Hr _]].
    rewrite length_app, after_add. cbn [length after].
    destruct (IHe (next p) w Hc Re) as [ne He]; [rewrite Hr; reflexivity|].
    exists (S ne). intros fuel Hf. destruct fuel as [|fuel]; [lia|].
    rewrite parseFactor_S, Hcurr. cbn [typ token]. rewrite He by lia.
    rewrite Hr. reflexivity.
Qed.

(** X8.  On an expression without calls the evaluator computes the value its
    grammar gives it: for every derivation [e] of the grammar whose numbers
    convert and whose variables are declared, if the text yields the tokens
    of [e] followed by a token that is no operator and no opening
    parenthesis, then [evaluateExpression] returns, with enough fuel, the
    value of [e] (products and quotients before sums and differences, each
    from the left), reports no error and leaves the world as it is. *)
Theorem evaluation_follows_the_grammar :
  forall e expr w,
    closedExpr w e ->
    reads (tokensExpr e) (NewParser expr) ->
    endsExpression (typ (curr (after (length (tokensExpr e)) (NewParser expr)))) = true ->
    exists n, forall fuel, n <= fuel ->
      evaluateExpression fuel expr w = Some (valueExpr w e, true, w).
Proof.
  intros e expr w Hc Hr Hend.
  destruct (proj1 derivations_evaluate e (NewParser expr) w Hc Hr Hend) as [n Hn].
  exists n. intros fuel Hf. unfold evaluateExpression. rewrite (Hn fuel Hf).
  rewrite errMsg_after. unfold NewParser. rewrite errMsg_next. reflexivity.
Qed.

(** ** What evaluation leaves as it is *)

Lemma outputGrows_refl w : outputGrows w w.
Proof. exists []. rewrite app_nil_r. reflexivity. Qed.

Lemma outputGrows_trans w1 w2 w3 : outputGrows w1 w2 -> outputGrows w2 w3 -> outputGrows w1 w3.
Proof.
  intros [o1 H1] [o2 H2]. exists (o1 ++ o2). rewrite H2, H1, app_assoc. reflexivity.
Qed.

Lemma outputGrows_print o w : outputGrows w (print o w).
Proof. exists [o]. reflexivity. Qed.

Lemma outputGrows_call ps args w w2 :
  length ps = length args ->
  outputGrows (snd (bindParams ps args ∅ w)) w2 ->
  outputGrows w
    (withVariables (restoreParams ps (fst (bindParams ps args ∅ w)) (variables w2)) w2).
Proof.
  intros _ [o H]. exists o. cbn [stdout withVariables]. rewrite H.
  rewrite (proj1 (proj2 (bindParams_frame ps args ∅ w))). reflexivity.
Qed.

(** X9.  The evaluation of an expression defines no function and removes
    none, it takes back nothing of what was printed, and when no function of
    the store names two parameters alike it leaves every variable as it was:
    the bindings of all calls are undone, whether the expression is accepted
    or not. *)
Theorem evaluation_keeps_the_store :
  forall fuel expr w val ok w1,
    evaluateExpression fuel expr w = Some (val, ok, w1) ->
    functions w1 = functions w
    /\ (exists out, stdout w1 = stdout w ++ out)
    /\ (distinctParams w -> variables w1 = variables w).
Proof.
  intros fuel expr w val ok w1 H.
  destruct (evaluateExpression_sameStore _ _ _ _ _ _ H) as [Hf Hv].
  split; [exact Hf|]. split; [|exact Hv].
  exact (evaluateExpression_respects outputGrows outputGrows_refl outputGrows_trans
           outputGrows_print outputGrows_call _ _ _ _ _ _ H).
Qed.

(** ** The parameters of one call *)

Lemma bindParams_binds ps : forall args backup w i name a,
  NoDup ps -> ps !! i = Some name -> args !! i = Some a ->
  variables w !! name = None ->
  variables (snd (bindParams ps args backup w)) !! name
  = Some (number (truncate a =? a)%float
            (if (truncate a =? a)%float then truncate a else a)).
Proof.
  induction ps as [|x ps IH]; intros args backup w i name a Hnd Hp Ha Hv.
  { destruct i; discriminate. }
  destruct args as [|b args]; [destruct i; discriminate|].
  apply NoDup_cons in Hnd as [Hx Hnd]. cbn [bindParams].
  destruct i as [|i]; simpl in Hp, Ha.
  - inversion Hp; inversion Ha; subst.
    match goal with |- context [bindParams ps args ?b0 ?w1] =>
      destruct (bindParams_frame ps args b0 w1) as (_ & _ & Hk) end.
    rewrite (proj2 (Hk name Hx)). apply setVariable_fresh. exact Hv.
  - assert (Hne : x <> name).
    { intros ->. apply Hx. eapply list_elem_of_lookup_2. exact Hp. }
    eapply IH; eauto. rewrite setVariable_other by exact Hne. exact Hv.
Qed.

(** X10.  One call of a function whose parameter names are distinct: the
    body is evaluated in a world where every parameter that was no variable
    holds its argument, as an integer when the argument is a whole number;
    after the call every parameter name is what it was before it (the old
    variable, or no variable), and every other name is what the body left. *)
Theorem parameters_are_bound_and_restored :
  forall fuel fn args w val w',
    NoDup (params fn) ->
    length (params fn) = length args ->
    evaluateFunction fuel fn args w = Some (val, w') ->
    exists n p wb,
      fuel = S n
      /\ parseExpression n (NewParser (expression fn))
           (snd (bindParams (params fn) args ∅ w)) = Some (val, p, wb)
      /\ (forall i name a,
            params fn !! i = Some name -> args !! i = Some a ->
            variables w !! name = None ->
            variables (snd (bindParams (params fn) args ∅ w)) !! name
            = Some (number (truncate a =? a)%float
                      (if (truncate a =? a)%float then truncate a else a)))
      /\ (forall name, name ∈ params fn -> variables w' !! name = variables w !! name)
      /\ (forall name, name ∉ params fn -> variables w' !! name = variables wb !! name).
Proof.
  intros fuel fn args w val w' Hnd Hlen Hev.
  pose proof (evaluateFunction_restores _ _ _ _ _ _ Hnd Hlen Hev) as Hres.
  destruct fuel as [|n]; [discriminate|].
  rewrite evaluateFunction_S in Hev.
  destruct (parseExpression n _ _) as [[[v p] wb]|] eqn:E; [|discriminate].
  inversion Hev; subst; clear Hev.
  exists n, p, wb. split; [reflexivity|]. split; [exact E|].
  split; [|split; [exact Hres|]].
  - intros i name a Hp Ha Hv. eapply bindParams_binds; eauto.
  - intros name Hin. cbn [variables withVariables].
    rewrite (restoreParams_other _ _ _ _ Hin). destruct (errMsg p); reflexivity.
Qed.

(** ** A function that calls itself *)

(** X11.  A function without parameters whose body begins with a call of
    itself never returns: no amount of fuel gives its call a result. *)
Theorem self_call_never_returns :
  forall name fn,
    params fn = [] ->
    reads [ {| typ := TokenIdent; tokValue := name |};
            token TokenLParen "("; token TokenRParen ")" ]
          (NewParser (expression fn)) ->
    forall fuel args w,
      functions w !! name = Some fn -> evaluateFunction fuel fn args w = None.
Proof.
  intros name fn Hps (Hc1 & Hc2 & Hc3 & _) fuel.
  induction fuel as [fuel IH] using lt_wf_ind. intros args w Hfn.
  destruct fuel as [|n]; [reflexivity|].
  rewrite evaluateFunction_S, Hps. cbn [bindParams snd fst].
  destruct n as [|n]; [reflexivity|]. rewrite parseExpression_S.
  destruct n as [|n]; [reflexivity|]. rewrite parseTerm_S.
  destruct n as [|n]; [reflexivity|]. rewrite parseFactor_S.
  rewrite Hc1, Hc2. cbn [typ tokValue token]. unfold callArguments.
  rewrite Hc3. cbn [typ token isRParen negb].
  rewrite Hc3. cbn [typ token isRParen negb]. unfold getFunction.
  rewrite Hfn, Hps. cbn [length Nat.eqb negb].
  rewrite (IH n) by (auto; lia). reflexivity.
Qed.

(** ** What decides whether an expression is accepted *)

Lemma arities_lookup w name :
  arities w !! name = (fun fn => length (params fn)) <$> (functions w !! name).
Proof. unfold arities. apply lookup_fmap. Qed.

Lemma arities_functions w w' : functions w' = functions w -> arities w' = arities w.
Proof. unfold arities. intros ->. reflexivity. Qed.

Lemma evaluateFunction_arities fuel fn args w val w' :
  evaluateFunction fuel fn args w = Some (val, w') -> arities w' = arities w.
Proof.
  intros H. apply arities_functions.
  destruct (evaluator_preserves_store fuel) as (_ & _ & _ & _ & _ & _ & Hc).
  apply (Hc _ _ _ _ _ H).
Qed.

Ltac path_close H H' Ha :=
  inversion H; inversion H'; subst; split; [reflexivity|exact Ha].

(** The way of the parser through a text, and the error it records, depend
    on the arities of the functions only: not on the variables, not on the
    bodies of the functions, not on the values computed on the way. *)
Lemma parser_path fuel : forall fuel',
  samePath (parseExpression fuel) (parseExpression fuel')
  /\ (forall val val', samePath (parseExpressionLoop fuel val) (parseExpressionLoop fuel' val'))
  /\ samePath (parseTerm fuel) (parseTerm fuel')
  /\ (forall val val', samePath (parseTermLoop fuel val) (parseTermLoop fuel' val'))
  /\ samePath (parseFactor fuel) (parseFactor fuel')
  /\ (forall args args' p w w' v p1 w1 v' p1' w1',
        length args = length args' ->
        arities w = arities w' ->
        parseArgs fuel args p w = Some (v, p1, w1) ->
        parseArgs fuel' args' p w' = Some (v', p1', w1') ->
        length v = length v' /\ p1 = p1' /\ arities w1 = arities w1').
Proof.
  induction fuel as [|n IH]; intros fuel'.
  { repeat split; repeat intro; discriminate. }
  destruct fuel' as [|n'].
  { repeat split; repeat intro; discriminate. }
  destruct (IH n') as (IHe & IHel & IHt & IHtl & IHf & IHa).
  split; [|split; [|split; [|split; [|split]]]];
    [intros p w w' v p1 w1 v' p1' w1' Ha H H'
    |intros val val' p w w' v p1 w1 v' p1' w1' Ha H H'
    |intros p w w' v p1 w1 v' p1' w1' Ha H H'
    |intros val val' p w w' v p1 w1 v' p1' w1' Ha H H'
    |intros p w w' v p1 w1 v' p1' w1' Ha H H'
    |intros args args' p w w' v p1 w1 v' p1' w1' Hl Ha H H'].
  - rewrite parseExpression_S in H, H'.
    destruct (parseTerm n p w) as [[[a pa] wa]|] eqn:E; [|discriminate].
    destruct (parseTerm n' p w') as [[[b pb] wb]|] eqn:E'; [|discriminate].
    destruct (IHt _ _ _ _ _ _ _ _ _ Ha E E') as [<- Ha1].
    eapply IHel; eauto.
  - rewrite parseExpressionLoop_S in H, H'.
    destruct (isPlusMinus _); [|path_close H H' Ha].
    destruct (parseTerm n (next p) w) as [[[a pa] wa]|] eqn:E; [|discriminate].
    destruct (parseTerm n' (next p) w') as [[[b pb] wb]|] eqn:E'; [|discriminate].
    destruct (IHt _ _ _ _ _ _ _ _ _ Ha E E') as [<- Ha1].
    eapply IHel; eauto.
  - rewrite parseTerm_S in H, H'.
    destruct (parseFactor n p w) as [[[a pa] wa]|] eqn:E; [|discriminate].
    destruct (parseFactor n' p w') as [[[b pb] wb]|] eqn:E'; [|discriminate].
    destruct (IHf _ _ _ _ _ _ _ _ _ Ha E E') as [<- Ha1].
    eapply IHtl; eauto.
  - rewrite parseTermLoop_S in H, H'.
    destruct (isStarSlash _); [|path_close H H' Ha].
    destruct (parseFactor n (next p) w) as [[[a pa] wa]|] eqn:E; [|discriminate].
    destruct (parseFactor n' (next p) w') as [[[b pb] wb]|] eqn:E'; [|discriminate].
    destruct (IHf _ _ _ _ _ _ _ _ _ Ha E E') as [<- Ha1].
    eapply IHtl; eauto.
  - rewrite parseFactor_S in H, H'.
    destruct (typ (curr p)); try (path_close H H' Ha; fail).
    + destruct (ParseFloat _); path_close H H' Ha.
    + destruct (typ (curr (next p)));
        try (destruct (getVariable _ w); destruct (getVariable _ w');
             path_close H H' Ha; fail).
      destruct (callArguments n (next (next p)) w) as [[[args p2] w2]|] eqn:E;
        [|discriminate].
      destruct (callArguments n' (next (next p)) w') as [[[args' p2'] w2']|] eqn:E';
        [|discriminate].
      assert (H2 : length args = length args' /\ p2 = p2' /\ arities w2 = arities w2').
      { unfold callArguments in E, E'.
        destruct (isRParen (typ (curr (next (next p))))).
        - inversion E; inversion E'; subst. auto.
        - eapply (IHa [] []); eauto. }
      destruct H2 as (Hl & <- & Ha2).
      destruct (negb (isRParen (typ (curr p2)))); [path_close H H' Ha2|].
      pose proof (f_equal (fun m => m !! tokValue (curr p)) Ha2) as Hn.
      cbn beta in Hn. rewrite !arities_lookup in Hn. unfold getFunction in *.
      destruct (functions w2 !! tokValue (curr p)) as [fn|];
        destruct (functions w2' !! tokValue (curr p)) as [fn'|];
        try discriminate Hn; [|path_close H H' Ha2].
      simpl in Hn. injection Hn as Hn. rewrite <- Hn, <- Hl in H'.
      destruct (negb (Nat.eqb (length (params fn)) (length args)));
        [path_close H H' Ha2|].
      destruct (evaluateFunction n fn args w2) as [[v3 w3]|] eqn:Ev; [|discriminate].
      destruct (evaluateFunction n' fn' args' w2') as [[v3' w3']|] eqn:Ev'; [|discriminate].
      inversion H; inversion H'; subst. split; [reflexivity|].
      rewrite (evaluateFunction_arities _ _ _ _ _ _ Ev),
        (evaluateFunction_arities _ _ _ _ _ _ Ev'). exact Ha2.
    + destruct (parseExpression n (next p) w) as [[[a pa] wa]|] eqn:E; [|discriminate].
      destruct (parseExpression n' (next p) w') as [[[b pb] wb]|] eqn:E'; [|discriminate].
      destruct (IHe _ _ _ _ _ _ _ _ _ Ha E E') as [<- Ha1].
      destruct (negb _); path_close H H' Ha1.
  - rewrite parseArgs_S in H, H'.
    destruct (parseExpression n p w) as [[[a pa] wa]|] eqn:E; [|discriminate].
    destruct (parseExpression n' p w') as [[[b pb] wb]|] eqn:E'; [|discriminate].
    destruct (IHe _ _ _ _ _ _ _ _ _ Ha E E') as [<- Ha1].
    assert (Hl1 : length (args ++ [a]) = length (args' ++ [b]))
      by (rewrite !length_app; simpl; lia).
    destruct (typ (curr pa));
      try (inversion H; inversion H'; subst; auto; fail).
    eapply IHa; [exact Hl1|exact Ha1|exact H|exact H'].
Qed.

(** X12.  Whether an expression is accepted, and with which message it is
    refused, is decided by its text and by the number of parameters of each
    function alone: two evaluations of one text, in worlds whose functions
    have the same names and arities, end with the same flag, whatever the
    variables hold and whatever the bodies of the functions are.  So an
    error in the body of a called function, an undeclared variable or a
    division by zero never makes a line fail. *)
Theorem acceptance_depends_on_arities_only :
  forall fuel fuel' expr w w' val ok w1 val' ok' w1',
    arities w = arities w' ->
    evaluateExpression fuel expr w = Some (val, ok, w1) ->
    evaluateExpression fuel' expr w' = Some (val', ok', w1') ->
    ok = ok'
    /\ (ok = false ->
        exists msg out out',
          stdout w1 = out ++ [ExpressionError msg]
          /\ stdout w1' = out' ++ [ExpressionError msg]).
Proof.
  intros fuel fuel' expr w w' val ok w1 val' ok' w1' Ha H H'.
  unfold evaluateExpression in H, H'.
  destruct (parseExpression fuel (NewParser expr) w) as [[[a pa] wa]|] eqn:E; [|discriminate].
  destruct (parseExpression fuel' (NewParser expr) w') as [[[b pb] wb]|] eqn:E'; [|discriminate].
  destruct (proj1 (parser_path fuel fuel') _ _ _ _ _ _ _ _ _ Ha E E') as [<- _].
  destruct (errMsg pa) as [|r msg]; inversion H; inversion H'; subst.
  - split; [reflexivity|discriminate].
  - split; [reflexivity|]. intros _.
    exists (r :: msg), (stdout wa), (stdout wb). split; reflexivity.
Qed.

(** ** Scripts that define no function *)

Lemma next_pending p :
  wellPlaced p ->
  wellPlaced (next p)
  /\ pending (next p) <= pending p
  /\ (isEndToken (typ (curr p)) = false -> pending (next p) < pending p).
Proof.
  unfold wellPlaced, pending, next, remaining. intros Hw.
  destruct (NextToken_bounds (lexer p) Hw) as (Hi & Hp & Hlt & _).
  destruct (NextToken (lexer p)) as [t l]. cbn [fst snd lexer curr] in *.
  rewrite Hi.
  destruct (isEndToken (typ t)) eqn:Et; destruct (isEndToken (typ (curr p)));
    try specialize (Hlt eq_refl); repeat split; try lia; intros _; lia.
Qed.

Lemma returns_mono {A : Type} k m (r : option (A * Parser * World)) :
  k <= m -> returns k r -> returns m r.
Proof.
  intros Hk (v & p' & w' & Hr & Hw & Hp & Hf).
  exists v, p', w'. repeat split; auto. lia.
Qed.

Lemma pending_error msg p : pending (error msg p) = pending p.
Proof. reflexivity. Qed.

Ltac returns_at p :=
  eexists _, p, _; split; [reflexivity|]; split; [|split];
  [ first [assumption | idtac]
  | rewrite ?pending_error; first [lia | idtac]
  | cbn [functions print]; auto ].

(** Without functions in the store every operation of the evaluator returns,
    on a fuel that is linear in what is pending. *)
Lemma evaluator_returns m :
  (forall p w fuel, functions w = ∅ -> wellPlaced p -> pending p <= m ->
     4 * m + 1 <= fuel -> returns m (parseFactor fuel p w))
  /\ (forall p w fuel val, functions w = ∅ -> wellPlaced p -> pending p <= m ->
     4 * m + 1 <= fuel -> returns m (parseTermLoop fuel val p w))
  /\ (forall p w fuel, functions w = ∅ -> wellPlaced p -> pending p <= m ->
     4 * m + 2 <= fuel -> returns m (parseTerm fuel p w))
  /\ (forall p w fuel val, functions w = ∅ -> wellPlaced p -> pending p <= m ->
     4 * m + 1 <= fuel -> returns m (parseExpressionLoop fuel val p w))
  /\ (forall p w fuel, functions w = ∅ -> wellPlaced p -> pending p <= m ->
     4 * m + 3 <= fuel -> returns m (parseExpression fuel p w))
  /\ (forall p w fuel args, functions w = ∅ -> wellPlaced p -> pending p <= m ->
     4 * m + 4 <= fuel -> returns m (parseArgs fuel args p w)).
Proof.
  induction m as [m IH] using lt_wf_ind.
  assert (HF : forall p w fuel, functions w = ∅ -> wellPlaced p -> pending p <= m ->
             4 * m + 1 <= fuel -> returns m (parseFactor fuel p w)).
  { intros p w fuel Hf Hw Hm Hfuel. destruct fuel as [|n]; [lia|].
    destruct (next_pending p Hw) as (Hnw & Hnle & Hnlt).
    rewrite parseFactor_S. destruct (typ (curr p)) eqn:Et;
      try (returns_at (error (msgUnexpected ++ tokValue (curr p)) p); fail).
    - destruct (ParseFloat _).
      + returns_at (next p).
      + returns_at (error (msgBadNumber ++ tokValue (curr p)) p).
    - specialize (Hnlt eq_refl).
      destruct (typ (curr (next p))) eqn:Et2;
        try (destruct (getVariable _ w); returns_at (next p); fail).
      destruct (next_pending (next p) Hnw) as (Hnw2 & Hnle2 & Hnlt2).
      assert (He2 : isEndToken (typ (curr (next p))) = false) by (rewrite Et2; reflexivity).
      specialize (Hnlt2 He2).
      assert (Hargs : returns (m - 1) (callArguments n (next (next p)) w)).
      { unfold callArguments. destruct (isRParen _).
        - returns_at (next (next p)).
        - apply (proj2 (proj2 (proj2 (proj2 (proj2 (IH (m - 1) ltac:(lia))))))); auto; lia. }
      destruct Hargs as (args & p2 & w2 & -> & Hw2 & Hp2 & Hf2).
      destruct (negb (isRParen (typ (curr p2)))).
      + returns_at (error msgCallParen p2).
      + unfold getFunction. rewrite Hf2, lookup_empty.
        destruct (next_pending p2 Hw2) as (Hw3 & Hle3 & _).
        returns_at (next p2).
    - specialize (Hnlt eq_refl).
      destruct (proj1 (proj2 (proj2 (proj2 (proj2 (IH (m - 1) ltac:(lia))))))
                  (next p) w n Hf Hnw ltac:(lia) ltac:(lia))
        as (v & p1 & w1 & -> & Hw1 & Hp1 & Hf1).
      destruct (next_pending p1 Hw1) as (Hw3 & Hle3 & _).
      destruct (negb _).
      + returns_at (error msgParen p1).
      + returns_at (next p1). }
  assert (HTL : forall p w fuel val, functions w = ∅ -> wellPlaced p -> pending p <= m ->
             4 * m + 1 <= fuel -> returns m (parseTermLoop fuel val p w)).
  { intros p w fuel val Hf Hw Hm Hfuel. destruct fuel as [|n]; [lia|].
    destruct (next_pending p Hw) as (Hnw & Hnle & Hnlt).
    rewrite parseTermLoop_S. destruct (isStarSlash (typ (curr p))) eqn:Et;
      [|returns_at p].
    assert (He : isEndToken (typ (curr p)) = false) by (destruct (typ (curr p)); easy).
    specialize (Hnlt He).
    destruct (IH (m - 1) ltac:(lia)) as (IHf & IHtl & _).
    destruct (IHf (next p) w n Hf Hnw ltac:(lia) ltac:(lia))
      as (v & p1 & w1 & -> & Hw1 & Hp1 & Hf1).
    apply (returns_mono (m - 1)); [lia|]. apply IHtl; auto. lia. }
  assert (HT : forall p w fuel, functions w = ∅ -> wellPlaced p -> pending p <= m ->
             4 * m + 2 <= fuel -> returns m (parseTerm fuel p w)).
  { intros p w fuel Hf Hw Hm Hfuel. destruct fuel as [|n]; [lia|].
    rewrite parseTerm_S.
    destruct (HF p w n Hf Hw Hm ltac:(lia)) as (v & p1 & w1 & -> & Hw1 & Hp1 & Hf1).
    apply HTL; auto. lia. }
  assert (HEL : forall p w fuel val, functions w = ∅ -> wellPlaced p -> pending p <= m ->
             4 * m + 1 <= fuel -> returns m (parseExpressionLoop fuel val p w)).
  { intros p w fuel val Hf Hw Hm Hfuel. destruct fuel as [|n]; [lia|].
    destruct (next_pending p Hw) as (Hnw & Hnle & Hnlt).
    rewrite parseExpressionLoop_S. destruct (isPlusMinus (typ (curr p))) eqn:Et;
      [|returns_at p].
    assert (He : isEndToken (typ (curr p)) = false) by (destruct (typ (curr p)); easy).
    specialize (Hnlt He).
    destruct (IH (m - 1) ltac:(lia)) as (_ & _ & IHt & IHel & _).
    destruct (IHt (next p) w n Hf Hnw ltac:(lia) ltac:(lia))
      as (v & p1 & w1 & -> & Hw1 & Hp1 & Hf1).
    apply (returns_mono (m - 1)); [lia|]. apply IHel; auto. lia. }
  assert (HE : forall p w fuel, functions w = ∅ -> wellPlaced p -> pending p <= m ->
             4 * m + 3 <= fuel -> returns m (parseExpression fuel p w)).
  { intros p w fuel Hf Hw Hm Hfuel. destruct fuel as [|n]; [lia|].
    rewrite parseExpression_S.
    destruct (HT p w n Hf Hw Hm ltac:(lia)) as (v & p1 & w1 & -> & Hw1 & Hp1 & Hf1).
    apply HEL; auto. lia. }
  repeat split; auto.
  intros p w fuel args Hf Hw Hm Hfuel. destruct fuel as [|n]; [lia|].
  rewrite parseArgs_S.
  destruct (HE p w n Hf Hw Hm ltac:(lia)) as (v & p1 & w1 & -> & Hw1 & Hp1 & Hf1).
  destruct (next_pending p1 Hw1) as (Hnw & Hnle & Hnlt).
  destruct (typ (curr p1)) eqn:Et; try (returns_at p1; fail).
  specialize (Hnlt eq_refl).
  apply (returns_mono (m - 1)); [lia|].
  apply (proj2 (proj2 (proj2 (proj2 (proj2 (IH (m - 1) ltac:(lia))))))); auto; lia.
Qed.

Lemma NewParser_pending s :
  wellPlaced (NewParser s) /\ pending (NewParser s) <= length s.
Proof.
  unfold NewParser.
  match goal with |- context [next ?p0] =>
    destruct (next_pending p0) as (Hw & _ & Hlt); [unfold wellPlaced; simpl; lia|];
    specialize (Hlt eq_refl); split; [exact Hw|];
    unfold pending at 2 in Hlt; unfold remaining in Hlt; simpl in Hlt
  end.
  lia.
Qed.

Lemma evaluateExpression_returns expr w fuel :
  functions w = ∅ -> 4 * length expr + 3 <= fuel ->
  exists val ok w', evaluateExpression fuel expr w = Some (val, ok, w') /\ functions w' = ∅.
Proof.
  intros Hf Hfuel. destruct (NewParser_pending expr) as [Hw Hp].
  destruct (evaluator_returns (length expr)) as (_ & _ & _ & _ & HE & _).
  destruct (HE (NewParser expr) w fuel Hf Hw Hp Hfuel) as (v & p & w1 & Hr & _ & _ & Hf1).
  unfold evaluateExpression. rewrite Hr.
  destruct (errMsg p); do 3 eexists; (split; [reflexivity|exact Hf1]).
Qed.

Lemma TrimLeftSpace_length s : length (TrimLeftSpace s) <= length s.
Proof.
  destruct (TrimLeftSpace_suffix s) as [pre H].
  apply (f_equal length) in H. rewrite length_app in H. lia.
Qed.

Lemma TrimSpace_length s : length (TrimSpace s) <= length s.
Proof.
  unfold TrimSpace. rewrite length_rev.
  pose proof (TrimLeftSpace_length (rev (TrimLeftSpace s))) as H1.
  rewrite length_rev in H1. pose proof (TrimLeftSpace_length s). lia.
Qed.

Lemma stripLine_length s : length (stripLine s) <= length s.
Proof.
  unfold stripLine. destruct (HasSuffix s semicolon).
  - pose proof (TrimSpace_length (take (length s - 1) s)) as H.
    rewrite length_take in H. lia.
  - apply TrimSpace_length.
Qed.

Lemma SplitN2_second_length s sep :
  length (TrimSpace (nth 1 (SplitN2 s sep) [])) <= length s.
Proof.
  pose proof (TrimSpace_length (nth 1 (SplitN2 s sep) [])) as H.
  unfold SplitN2 in *. destruct (Index s sep <? 0)%Z; cbn [nth] in *.
  - apply Nat.le_0_l.
  - rewrite length_drop in H. lia.
Qed.

Lemma processLine_returns fuel line w :
  functions w = ∅ -> definesFunction line = false -> 4 * length line + 3 <= fuel ->
  exists w', processLine fuel line w = Some w' /\ functions w' = ∅.
Proof.
  intros Hf Hd Hfuel. unfold processLine, definesFunction in *.
  pose proof (TrimSpace_length line) as Hl.
  destruct (TrimSpace line) as [|r t]; [exists w; auto|].
  pose proof (stripLine_length (r :: t)) as Hs.
  set (l := stripLine (r :: t)) in *.
  destruct (HasPrefix l kwPrint).
  { eexists. split; [reflexivity|]. rewrite (proj2 (printStatement_store l w)). exact Hf. }
  cbn [negb andb] in Hd. rewrite Hd.
  destruct (Contains l rparenEquals).
  { unfold typedInitialization. destruct (Index _ lparen =? -1)%Z.
    { eexists. split; [reflexivity|exact Hf]. }
    pose proof (SplitN2_second_length l rparenEquals) as Hx.
    destruct (evaluateExpression_returns (typedExpr l) w fuel Hf)
      as (val & ok & w1 & -> & Hf1); [unfold typedExpr; lia|].
    destruct ok; cbn [negb]; [|eexists; split; [reflexivity|exact Hf1]].
    destruct (text_eqb _ tagInt); [|destruct (text_eqb _ tagFloat)];
      (eexists; split; [reflexivity|]); rewrite ?setVariable_functions; exact Hf1. }
  destruct (Contains l equals); [|eexists; split; [reflexivity|exact Hf]].
  unfold plainAssignment.
  pose proof (SplitN2_second_length l equals) as Hx.
  destruct (evaluateExpression_returns (assignExpr l) w fuel Hf)
    as (val & ok & w1 & -> & Hf1); [unfold assignExpr; lia|].
  destruct ok; cbn [negb]; [|eexists; split; [reflexivity|exact Hf1]].
  unfold getVariable.
  destruct (variables w1 !! assignTarget l) as [v|]; [destruct (isInt v)|];
    (eexists; split; [reflexivity|]); rewrite ?setVariable_functions; exact Hf1.
Qed.

(** X13.  A script that defines no function runs to its end: started in a
    store without functions, with four units of fuel for each rune of its
    longest line and three more, every line returns, whatever it holds
    (unbalanced parentheses, unknown runes, calls, divisions by zero), and
    the store has no function afterwards.  An evaluation that does not
    return needs a function. *)
Theorem scripts_without_functions_run_to_their_end :
  forall lines w fuel,
    functions w = ∅ ->
    Forall (fun line => definesFunction line = false /\ 4 * length line + 3 <= fuel) lines ->
    exists w', processLines fuel lines w = Some w' /\ functions w' = ∅.
Proof.
  intros lines. induction lines as [|line lines IH]; intros w fuel Hf Hall.
  - exists w. split; [reflexivity|exact Hf].
  - apply Forall_cons in Hall as [[Hd Hfuel] Hall]. cbn [processLines].
    destruct (processLine_returns fuel line w Hf Hd Hfuel) as (w1 & -> & Hf1).
    apply IH; assumption.
Qed.

(** ** The definition of a function *)

Lemma headerRune_spec r :
  headerRune r = true ->
  IsSpace r = false /\ (r =? 40)%Z = false /\ (r =? 41)%Z = false
  /\ (r =? 44)%Z = false /\ (r =? 58)%Z = false.
Proof.
  unfold headerRune. intros H. apply negb_true_iff in H.
  repeat (apply orb_false_iff in H as [H ?]). auto.
Qed.

Lemma HasPrefix_nil s : HasPrefix s [] = true.
Proof. destruct s; reflexivity. Qed.

Lemma IndexFrom_rune c a : forall b i,
  Forall (fun r => (r =? c)%Z = false) a ->
  IndexFrom (a ++ c :: b) [c] i = (i + Z.of_nat (length a))%Z.
Proof.
  induction a as [|x a IH]; intros b i H.
  - cbn [app IndexFrom HasPrefix length]. rewrite Z.eqb_refl, HasPrefix_nil. cbn. lia.
  - apply Forall_cons in H as [Hx H].
    cbn [app IndexFrom HasPrefix]. rewrite Hx. cbn [andb].
    rewrite (IH b _ H). cbn [length]. lia.
Qed.

Lemma IndexFrom_no_rune c a : forall i,
  Forall (fun r => (r =? c)%Z = false) a -> IndexFrom a [c] i = (-1)%Z.
Proof.
  induction a as [|x a IH]; intros i H; [reflexivity|].
  apply Forall_cons in H as [Hx H].
  cbn [IndexFrom HasPrefix]. rewrite Hx. cbn [andb]. apply IH. exact H.
Qed.

Lemma Index_rune c a b :
  Forall (fun r => (r =? c)%Z = false) a ->
  Index (a ++ c :: b) [c] = Z.of_nat (length a).
Proof. intros H. unfold Index. rewrite IndexFrom_rune by exact H. lia. Qed.

Lemma SplitN2_rune c a b :
  Forall (fun r => (r =? c)%Z = false) a -> SplitN2 (a ++ c :: b) [c] = [a; b].
Proof.
  intros H. unfold SplitN2. rewrite (Index_rune c a b H).
  destruct (Z.ltb_spec (Z.of_nat (length a)) 0) as [Hneg|_]; [lia|].
  rewrite Nat2Z.id, take_app_length. cbn [length].
  replace (a ++ c :: b) with ((a ++ [c]) ++ b) by (rewrite <- app_assoc; reflexivity).
  replace (length a + 1) with (length (a ++ [c])) by (rewrite length_app; reflexivity).
  rewrite drop_app_length. reflexivity.
Qed.

Lemma TrimSpace_fixed s r t u z :
  s = r :: t -> s = u ++ [z] -> IsSpace r = false -> IsSpace z = false ->
  TrimSpace s = s.
Proof.
  intros Hs Hu Hr Hz. unfold TrimSpace.
  rewrite Hs, (TrimLeftSpace_fixed _ _ Hr), <- Hs, Hu, rev_unit.
  rewrite (TrimLeftSpace_fixed _ _ Hz). cbn [rev]. rewrite rev_involutive. reflexivity.
Qed.

Lemma TrimSpace_last s u z : TrimSpace s = u ++ [z] -> IsSpace z = false.
Proof.
  unfold TrimSpace. intros H. apply (f_equal (@rev rune)) in H.
  rewrite rev_involutive, rev_unit in H. eapply TrimLeftSpace_head. exact H.
Qed.

Lemma last_rune (s : text) : s = [] \/ exists u z, s = u ++ [z].
Proof.
  destruct (rev s) as [|z t] eqn:E.
  - left. apply (f_equal (@rev rune)) in E. rewrite rev_involutive in E. exact E.
  - right. exists (rev t), z. apply (f_equal (@rev rune)) in E.
    rewrite rev_involutive in E. exact E.
Qed.

Lemma TrimSpace_no_space s : Forall (fun r => IsSpace r = false) s -> TrimSpace s = s.
Proof.
  intros H. destruct s as [|r t]; [reflexivity|].
  destruct (last_rune (r :: t)) as [Hnil|(u & z & Hu)]; [discriminate|].
  apply (TrimSpace_fixed _ r t u z); auto.
  - apply Forall_cons in H as [Hr _]. exact Hr.
  - rewrite Hu in H. apply Forall_app in H as [_ Hz].
    apply Forall_cons in Hz as [Hz _]. exact Hz.
Qed.

Lemma headerName_no_space s : headerName s -> Forall (fun r => IsSpace r = false) s.
Proof.
  intros H. eapply Forall_impl; [exact H|].
  intros r Hr. apply headerRune_spec in Hr. tauto.
Qed.

Lemma Join_cons e rest sep :
  rest <> [] -> Join (e :: rest) sep = e ++ sep ++ Join rest sep.
Proof. destruct rest; [contradiction|reflexivity]. Qed.

(** The runes of joined names are runes of names, or commas. *)
Lemma Join_runes (P : rune -> Prop) ps :
  Forall (fun p => p <> [] /\ headerName p) ps ->
  (forall r, headerRune r = true -> P r) -> P 44%Z ->
  Forall P (Join ps comma).
Proof.
  intros Hps Hh Hc. induction ps as [|p ps IH]; [constructor|].
  apply Forall_cons in Hps as [[_ Hp] Hps].
  assert (HP : Forall P p) by (eapply Forall_impl; [exact Hp|exact Hh]).
  destruct ps as [|q ps]; [exact HP|].
  rewrite Join_cons by discriminate.
  apply Forall_app. split; [exact HP|].
  apply Forall_app. split; [repeat constructor; exact Hc|]. apply IH. exact Hps.
Qed.

Lemma Join_separators ps : length ps <= S (length (Join ps comma)).
Proof.
  induction ps as [|p ps IH]; [simpl; lia|].
  destruct ps as [|q ps]; [simpl; lia|].
  rewrite Join_cons by discriminate. rewrite !length_app.
  change (length comma) with 1. cbn [length] in *. lia.
Qed.

Lemma drop_rune (a : text) c b : drop (length a + 1) (a ++ c :: b) = b.
Proof.
  replace (a ++ c :: b) with ((a ++ [c]) ++ b) by (rewrite <- app_assoc; reflexivity).
  replace (length a + 1) with (length (a ++ [c])) by (rewrite length_app; reflexivity).
  apply drop_app_length.
Qed.

Lemma SplitFrom_Join ps : forall n,
  ps <> [] ->
  Forall (fun p => p <> [] /\ headerName p) ps ->
  length ps <= S n ->
  SplitFrom n (Join ps comma) comma = ps.
Proof.
  induction ps as [|p ps IH]; intros n Hne Hps Hn; [contradiction|].
  apply Forall_cons in Hps as [[_ Hp] Hps].
  assert (Hp44 : Forall (fun r => (r =? 44)%Z = false) p).
  { eapply Forall_impl; [exact Hp|]. intros r Hr. apply headerRune_spec in Hr. tauto. }
  destruct ps as [|q ps].
  - cbn [Join]. change comma with [44%Z].
    assert (Hi : Index p [44%Z] = (-1)%Z) by (apply IndexFrom_no_rune; exact Hp44).
    destruct n; cbn [SplitFrom]; rewrite ?Hi; reflexivity.
  - rewrite Join_cons by discriminate.
    destruct n as [|n]; [cbn [length] in Hn; lia|].
    change comma with [44%Z] at 1 3. cbn [app SplitFrom].
    rewrite (Index_rune 44 p _ Hp44).
    destruct (Z.ltb_spec (Z.of_nat (length p)) 0) as [Hneg|_]; [lia|].
    rewrite Nat2Z.id, take_app_length. cbn [length]. rewrite drop_rune.
    f_equal. apply IH; [discriminate|exact Hps|cbn [length] in *; lia].
Qed.

Lemma map_TrimSpace_names ps :
  Forall (fun p => p <> [] /\ headerName p) ps -> map TrimSpace ps = ps.
Proof.
  induction 1 as [|p ps [_ Hp] _ IH]; [reflexivity|].
  cbn [map]. rewrite IH, (TrimSpace_no_space p (headerName_no_space p Hp)). reflexivity.
Qed.

Lemma HasPrefix_longer kw : forall s c rest,
  Forall (fun k => (c =? k)%Z = false) kw ->
  HasPrefix s kw = false -> HasPrefix (s ++ c :: rest) kw = false.
Proof.
  induction kw as [|k kw IH]; intros s c rest Hc H.
  { rewrite HasPrefix_nil in H. discriminate. }
  apply Forall_cons in Hc as [Hk Hc].
  destruct s as [|x s]; cbn [app HasPrefix] in *.
  - rewrite Hk. reflexivity.
  - destruct (x =? k)%Z; [|reflexivity]. cbn [andb] in *. apply IH; assumption.
Qed.

(** The header [name(p1,...,pn)] and the body, cut out of the line. *)
Lemma functionDefinition_written name ps body w :
  headerName name ->
  Forall (fun p => p <> [] /\ headerName p) ps ->
  functionDefinition (name ++ lparen ++ Join ps comma ++ rparen ++ colon ++ body) w
  = setFunction name ps (TrimSpace body) w.
Proof.
  intros Hname Hps.
  set (J := Join ps comma).
  assert (HL : name ++ lparen ++ J ++ rparen ++ colon ++ body
               = (name ++ 40%Z :: J ++ [41%Z]) ++ 58%Z :: body).
  { change lparen with [40%Z]. change rparen with [41%Z]. change colon with [58%Z].
    repeat (rewrite <- app_assoc; cbn [app]). reflexivity. }
  assert (HJ : forall P : rune -> Prop,
             (forall r, headerRune r = true -> P r) -> P 44%Z -> Forall P J).
  { intros P. apply Join_runes. exact Hps. }
  assert (Hn : forall P : rune -> Prop,
             (forall r, headerRune r = true -> P r) -> Forall P name).
  { intros P HP. eapply Forall_impl; [exact Hname|exact HP]. }
  assert (H58 : Forall (fun r => (r =? 58)%Z = false) (name ++ 40%Z :: J ++ [41%Z])).
  { apply Forall_app. split; [apply Hn; intros r Hr; apply headerRune_spec in Hr; tauto|].
    apply Forall_cons. split; [reflexivity|].
    apply Forall_app. split; [|repeat constructor].
    apply HJ; [intros r Hr; apply headerRune_spec in Hr; tauto|reflexivity]. }
  assert (H40 : Forall (fun r => (r =? 40)%Z = false) name).
  { apply Hn. intros r Hr. apply headerRune_spec in Hr. tauto. }
  assert (H41 : Forall (fun r => (r =? 41)%Z = false) (name ++ 40%Z :: J)).
  { apply Forall_app. split; [apply Hn; intros r Hr; apply headerRune_spec in Hr; tauto|].
    apply Forall_cons. split; [reflexivity|].
    apply HJ; [intros r Hr; apply headerRune_spec in Hr; tauto|reflexivity]. }
  assert (Hleft : TrimSpace (name ++ 40%Z :: J ++ [41%Z]) = name ++ 40%Z :: J ++ [41%Z]).
  { assert (Hhead : exists r t, name ++ 40%Z :: J ++ [41%Z] = r :: t /\ IsSpace r = false).
    { destruct name as [|r name'].
      - eexists _, _. split; [reflexivity|reflexivity].
      - eexists _, _. split; [reflexivity|].
        apply Forall_cons in Hname as [Hr _]. apply headerRune_spec in Hr. tauto. }
    destruct Hhead as (r & t & Hrt & Hr).
    apply (TrimSpace_fixed _ r t (name ++ 40%Z :: J) 41%Z); auto.
    rewrite <- app_assoc. reflexivity. }
  unfold functionDefinition. rewrite HL. change colon with [58%Z].
  rewrite (SplitN2_rune 58 _ body H58). cbn [nth].
  rewrite Hleft.
  change lparen with [40%Z]. change rparen with [41%Z].
  rewrite (Index_rune 40 name (J ++ [41%Z]) H40).
  replace (name ++ 40%Z :: J ++ [41%Z]) with ((name ++ 40%Z :: J) ++ 41%Z :: [])
    by (rewrite <- app_assoc; reflexivity).
  rewrite (Index_rune 41 (name ++ 40%Z :: J) [] H41).
  rewrite length_app. cbn [length].
  replace (Z.of_nat (length name) =? -1)%Z with false by (symmetry; apply Z.eqb_neq; lia).
  replace (Z.of_nat (length name + S (length J)) =? -1)%Z with false
    by (symmetry; apply Z.eqb_neq; lia).
  replace (Z.of_nat (length name + S (length J)) <? Z.of_nat (length name))%Z with false
    by (symmetry; apply Z.ltb_ge; lia).
  cbn [orb]. rewrite !Nat2Z.id.
  replace ((name ++ 40%Z :: J) ++ [41%Z]) with (name ++ 40%Z :: J ++ [41%Z])
    by (rewrite <- app_assoc; reflexivity).
  rewrite take_app_length.
  rewrite (TrimSpace_no_space name (headerName_no_space name Hname)).
  unfold slice. rewrite drop_rune.
  replace (length name + S (length J) - (length name + 1)) with (length J) by lia.
  rewrite take_app_length.
  rewrite (TrimSpace_no_space J)
    by (apply HJ; [intros r Hr; apply headerRune_spec in Hr; tauto|reflexivity]).
  f_equal.
  destruct ps as [|p ps']; [reflexivity|].
  assert (HJne : J <> []).
  { apply Forall_cons in Hps as [[Hp _] _]. subst J.
    destruct ps'; [exact Hp|].
    rewrite Join_cons by discriminate. destruct p; [contradiction|discriminate]. }
  destruct J as [|r J'] eqn:EJ; [contradiction|]. rewrite <- EJ.
  unfold Split. subst J. rewrite EJ at 1. rewrite <- EJ.
  rewrite SplitFrom_Join; [apply map_TrimSpace_names; exact Hps|discriminate|exact Hps|].
  apply Join_separators.
Qed.

Lemma stripLine_semicolon line : TrimSpace line = line -> stripLine (line ++ semicolon) = line.
Proof.
  intros H. unfold stripLine, HasSuffix. change semicolon with [59%Z].
  rewrite rev_unit. cbn [rev app HasPrefix]. rewrite Z.eqb_refl, HasPrefix_nil.
  cbn [andb]. rewrite length_app. cbn [length].
  replace (length line + 1 - 1) with (length line) by lia.
  rewrite take_app_length. exact H.
Qed.

Lemma TrimLeftSpace_padding pad s :
  Forall (fun r => IsSpace r = true) pad -> TrimLeftSpace (pad ++ s) = TrimLeftSpace s.
Proof.
  induction 1 as [|r pad Hr _ IH]; [reflexivity|].
  cbn [app TrimLeftSpace]. rewrite Hr. exact IH.
Qed.

(** X14.  A definition written as [name(p1,...,pn): body;] stores what is
    written: when the name and the parameters are made of runes other than
    white space, parentheses, commas and colons, the parameters are not
    empty, the body is not empty and has white space only in front of it,
    and the name does not begin with [print], the line gives the function
    [name] the parameters [p1], ..., [pn] in this order and the text of the
    body, unevaluated; it changes no variable and prints nothing, and it
    replaces an earlier function of the name. *)
Theorem definition_stores_what_is_written :
  forall fuel name ps pad body w,
    headerName name ->
    Forall (fun p => p <> [] /\ headerName p) ps ->
    Forall (fun r => IsSpace r = true) pad ->
    TrimSpace body = body ->
    body <> [] ->
    HasPrefix name kwPrint = false ->
    processLine fuel
      (name ++ lparen ++ Join ps comma ++ rparen ++ colon ++ pad ++ body ++ semicolon) w
    = Some {| variables := variables w;
              functions := <[name := {| params := ps; expression := body |}]> (functions w);
              stdout := stdout w |}.
Proof.
  intros fuel name ps pad body w Hname Hps Hpad Hbody Hne Hprint.
  set (J := Join ps comma).
  set (L := name ++ lparen ++ J ++ rparen ++ colon ++ pad ++ body).
  assert (HLs : name ++ lparen ++ J ++ rparen ++ colon ++ pad ++ body ++ semicolon
                = L ++ semicolon).
  { unfold L. repeat rewrite <- app_assoc. reflexivity. }
  assert (Hhead : exists r t, L = r :: t /\ IsSpace r = false).
  { unfold L. change lparen with [40%Z]. destruct name as [|r name'].
    - eexists _, _. split; [reflexivity|reflexivity].
    - eexists _, _. split; [reflexivity|].
      apply Forall_cons in Hname as [Hr _]. apply headerRune_spec in Hr. tauto. }
  destruct Hhead as (r & t & Hrt & Hr).
  assert (Hlast : exists u z, L = u ++ [z] /\ IsSpace z = false).
  { destruct (last_rune body) as [->|(u & z & Hu)]; [contradiction|].
    exists (name ++ lparen ++ J ++ rparen ++ colon ++ pad ++ u), z. split.
    - unfold L. rewrite Hu. repeat rewrite <- app_assoc. reflexivity.
    - rewrite Hu in Hbody. exact (TrimSpace_last _ _ _ Hbody). }
  destruct Hlast as (u & z & Huz & Hz).
  assert (HL : TrimSpace L = L) by (apply (TrimSpace_fixed _ r t u z); auto).
  assert (HLt : TrimSpace (L ++ semicolon) = L ++ semicolon).
  { apply (TrimSpace_fixed _ r (t ++ semicolon) L 59%Z); auto.
    rewrite Hrt. reflexivity. }
  rewrite HLs. unfold processLine. rewrite HLt.
  destruct (L ++ semicolon) as [|r0 t0] eqn:E.
  { rewrite Hrt in E. discriminate. }
  rewrite <- E, (stripLine_semicolon L HL).
  assert (Hp : HasPrefix L kwPrint = false).
  { unfold L. change lparen with [40%Z]. cbn [app].
    apply HasPrefix_longer; [repeat constructor|exact Hprint]. }
  rewrite Hp.
  assert (Hc : Contains L colon = true).
  { apply (Contains_occurrence L colon (length (name ++ lparen ++ J ++ rparen))).
    unfold L.
    replace (name ++ lparen ++ J ++ rparen ++ colon ++ pad ++ body)
      with ((name ++ lparen ++ J ++ rparen) ++ colon ++ pad ++ body)
      by (repeat rewrite <- app_assoc; reflexivity).
    rewrite drop_app_length. change colon with [58%Z]. cbn [app HasPrefix].
    rewrite Z.eqb_refl, HasPrefix_nil. reflexivity. }
  rewrite Hc. f_equal. unfold L, J.
  rewrite (functionDefinition_written name ps (pad ++ body) w Hname Hps).
  assert (Ht : TrimSpace (pad ++ body) = body).
  { unfold TrimSpace. rewrite (TrimLeftSpace_padding pad body Hpad). exact Hbody. }
  rewrite Ht. reflexivity.
Qed.

End Interpreter.

(** * Instances *)




(** C6 at the expression [1 + 2], parsed by a parser that holds an error. *)
Lemma error_flag_is_never_cleared_witness :
  exists p',
    parseExpression latinOnly latinOnly 10
      (error (lit "e") (NewParser latinOnly latinOnly (lit "1 + 2"))) emptyWorld
    = Some (3%float, p', emptyWorld)
    /\ errMsg p' <> [].
Proof.
  assert (H : exists p',
             parseExpression latinOnly latinOnly 10
               (error (lit "e") (NewParser latinOnly latinOnly (lit "1 + 2"))) emptyWorld
             = Some (3%float, p', emptyWorld))
    by (vm_compute; eexists; reflexivity).
  destruct H as [p' H]. exists p'. split; [exact H|].
  apply (proj1 (error_flag_is_never_cleared latinOnly latinOnly 10)
           (error (lit "e") (NewParser latinOnly latinOnly (lit "1 + 2")))
           emptyWorld 3%float p' emptyWorld H).
  discriminate.
Defined.

(** C6 as stated fails on the expression [+].  The first term records
    "unexpected token: +"; the loop of [parseExpression], entered with that
    message, ends with "unexpected token: " (for the end of the input), and
    this second message is what [evaluateExpression] reports. *)
Lemma later_error_replaces_message :
  exists v1 p1 v2 p2,
    parseTerm latinOnly latinOnly 5 (NewParser latinOnly latinOnly (lit "+")) emptyWorld
    = Some (v1, p1, emptyWorld)
    /\ errMsg p1 = msgUnexpected ++ lit "+"
    /\ parseExpressionLoop latinOnly latinOnly 5 v1 p1 emptyWorld = Some (v2, p2, emptyWorld)
    /\ errMsg p2 = msgUnexpected
    /\ errMsg p2 <> errMsg p1
    /\ evaluateExpression latinOnly latinOnly 6 (lit "+") emptyWorld
       = Some (0%float, false, print (ExpressionError msgUnexpected) emptyWorld).
Proof.
  do 4 eexists.
  split; [vm_compute; reflexivity|].
  split; [vm_compute; reflexivity|].
  split; [vm_compute; reflexivity|].
  split; [vm_compute; reflexivity|].
  split; [vm_compute; discriminate|vm_compute; reflexivity].
Qed.

(** C8 at [a / b] with [a] holding 1 and [b] holding negative zero: the
    quotient is by [+0.0], positive infinity. *)
Lemma division_sets_no_error_witness :
  evaluateExpression latinOnly latinOnly 4 (lit "a / b")
    (withVariables {[ lit "a" := number true 1; lit "b" := number false (-0) ]} emptyWorld)
  = Some (infinity, true,
          withVariables {[ lit "a" := number true 1; lit "b" := number false (-0) ]}
            emptyWorld).
Proof.
  destruct (division_sets_no_error latinOnly latinOnly) as (_ & Hzero & _ & Hq & _).
  refine (eq_trans
            (Hq 0%nat
               (withVariables {[ lit "a" := number true 1; lit "b" := number false (-0) ]}
                  emptyWorld)
               (number true 1) (number false (-0)) _ _) _).
  - vm_compute. reflexivity.
  - vm_compute. reflexivity.
  - rewrite (Hzero (value (number true 1)) (value (number false (-0))));
      vm_compute; reflexivity.
Defined.

(** C8 as stated fails on the expression [-1 / 0]: the grammar has no unary
    minus, so the leading [-] is an unexpected token.  The value computed is
    negative infinity, but the error message is set and [evaluateExpression]
    reports failure. *)
Lemma unary_minus_sets_error_flag :
  exists p,
    parseExpression latinOnly latinOnly 10 (NewParser latinOnly latinOnly (lit "-1 / 0"))
      emptyWorld
    = Some (neg_infinity, p, emptyWorld)
    /\ errMsg p = msgUnexpected ++ lit "-"
    /\ evaluateExpression latinOnly latinOnly 10 (lit "-1 / 0") emptyWorld
       = Some (0%float, false,
               print (ExpressionError (msgUnexpected ++ lit "-")) emptyWorld).
Proof.
  eexists.
  split; [vm_compute; reflexivity|].
  split; vm_compute; reflexivity.
Qed.

(** The dispatch on [print] at the lines [printer = 5] and [sprint = 5 ;]. *)
Lemma print_prefix_routes_to_print_witness :
  processLine latinOnly latinOnly 10 (lit "printer = 5") emptyWorld
  = Some (print (NotDeclared (lit "er = 5")) emptyWorld)
  /\ HasPrefix (assignTarget (lit "sprint = 5")) kwPrint = false.
Proof.
  destruct (print_prefix_routes_to_print latinOnly latinOnly) as [Hprint Hother].
  split.
  - refine (eq_trans (proj1 (Hprint 10%nat (lit "printer = 5") emptyWorld _)) _);
      vm_compute; reflexivity.
  - refine (proj1 (Hother (lit "sprint = 5 ;") _)). vm_compute. reflexivity.
Defined.

(** X1 at a script that initializes [x] again with the other type, calls a
    function whose two parameters are both named [x], and fails on a line. *)
Lemma variables_keep_their_type_witness :
  exists v',
    variableOf "x"
      (processLines latinOnly latinOnly 10
         [lit "x(i)=2.5"; lit "f(x,x): x + 0.5"; lit "y = f(1.5, 2)"; lit "x = 1 +"]
         (withVariables {[ lit "x" := number false 7 ]} emptyWorld))
    = Some v'
    /\ isInt v' = false.
Proof.
  assert (H : exists w',
             processLines latinOnly latinOnly 10
               [lit "x(i)=2.5"; lit "f(x,x): x + 0.5"; lit "y = f(1.5, 2)"; lit "x = 1 +"]
               (withVariables {[ lit "x" := number false 7 ]} emptyWorld)
             = Some w')
    by (vm_compute; eexists; reflexivity).
  destruct H as [w' H].
  destruct (variables_keep_their_type latinOnly latinOnly 10
              [lit "x(i)=2.5"; lit "f(x,x): x + 0.5"; lit "y = f(1.5, 2)"; lit "x = 1 +"]
              (withVariables {[ lit "x" := number false 7 ]} emptyWorld)
              w' (lit "x") (number false 7) H)
    as (v' & Hv' & Hf').
  - vm_compute. reflexivity.
  - exists v'. rewrite H. split; [exact Hv'|exact Hf'].
Defined.

(** X2 at a script that writes to the integer [n] by a typed initialization,
    a plain assignment and the binding of a parameter. *)
Lemma integer_variables_hold_integers_witness :
  exists v x,
    variableOf "n"
      (processLines latinOnly latinOnly 10
         [lit "n(i)=7.9"; lit "g(n): n / 2"; lit "n = g(5.5) + 0.75"] emptyWorld)
    = Some v
    /\ isInt v = true
    /\ value v = truncate x.
Proof.
  assert (H : exists w',
             processLines latinOnly latinOnly 10
               [lit "n(i)=7.9"; lit "g(n): n / 2"; lit "n = g(5.5) + 0.75"] emptyWorld
             = Some w'
             /\ variables w' !! lit "n" = Some (number true 3))
    by (vm_compute; eexists; split; reflexivity).
  destruct H as (w' & H & Hn).
  destruct (integer_variables_hold_integers latinOnly latinOnly 10
              [lit "n(i)=7.9"; lit "g(n): n / 2"; lit "n = g(5.5) + 0.75"]
              w' (lit "n") (number true 3) H Hn eq_refl) as [x Hx].
  exists (number true 3), x. rewrite H. split; [exact Hn|]. split; [reflexivity|exact Hx].
Defined.

(** X3 at the line [a = b = c]. *)
Lemma split_at_first_occurrence_witness :
  exists k,
    Index (lit "a = b = c") equals = Z.of_nat k
    /\ SplitN2 (lit "a = b = c") equals = [lit "a "; lit " b = c"]
    /\ assignTarget (lit "a = b = c") = lit "a"
    /\ assignExpr (lit "a = b = c") = lit "b = c".
Proof.
  destruct (split_at_first_occurrence (lit "a = b = c") equals) as (k & Hk & Hs & _ & _).
  - vm_compute. reflexivity.
  - exists k. split; [exact Hk|]. split; [|split; vm_compute; reflexivity].
    vm_compute. reflexivity.
Defined.

(** X4 at the header [f(x, y)] and the line [f(x, y): x * y]. *)
Lemma indices_stay_in_range_witness :
  length (SplitN2 (lit "f(x, y): x * y") colon) = 2
  /\ Z.to_nat (Index (lit "f(x, y)") lparen) + 1 <= Z.to_nat (Index (lit "f(x, y)") rparen)
  /\ Z.to_nat (Index (lit "f(x, y)") rparen) <= length (lit "f(x, y)")
  /\ TrimSpace (TrimSpace (drop (length kwPrint) (lit "print  x"))) <> []
  /\ 1 <= length (lit "x = 1;").
Proof.
  destruct indices_stay_in_range as (Hsplit & Hrest & Hslice & Hsemi).
  split; [apply (Hsplit (lit "f(x, y): x * y") colon); vm_compute; reflexivity|].
  split; [apply (Hslice (lit "f(x, y)")); vm_compute; reflexivity|].
  split; [apply (Hslice (lit "f(x, y)")); vm_compute; reflexivity|].
  split; [apply (Hrest (lit "print  x")); vm_compute; discriminate|].
  apply (Hsemi (lit "x = 1;")). vm_compute. reflexivity.
Defined.

(** X5 at a definition, which leaves the variables, and at an assignment,
    which leaves the functions. *)
Lemma statement_frame_witness :
  (exists w',
     processLine latinOnly latinOnly 10 (lit "f(x): x + n")
       (withVariables {[ lit "n" := number true 1 ]} emptyWorld) = Some w'
     /\ variables w' = {[ lit "n" := number true 1 ]})
  /\ (exists w',
        processLine latinOnly latinOnly 10 (lit "n = f(2)")
          (setFunction (lit "f") [lit "x"] (lit "x + 1") emptyWorld) = Some w'
        /\ functions w' = functions (setFunction (lit "f") [lit "x"] (lit "x + 1") emptyWorld)).
Proof.
  split.
  - assert (H : exists w',
               processLine latinOnly latinOnly 10 (lit "f(x): x + n")
                 (withVariables {[ lit "n" := number true 1 ]} emptyWorld) = Some w')
      by (vm_compute; eexists; reflexivity).
    destruct H as [w' H]. exists w'. split; [exact H|].
    apply (proj2 (proj2 (statement_frame latinOnly latinOnly 10 (lit "f(x): x + n")
                           (withVariables {[ lit "n" := number true 1 ]} emptyWorld) w' H))).
    right. left. vm_compute. reflexivity.
  - assert (H : exists w',
               processLine latinOnly latinOnly 10 (lit "n = f(2)")
                 (setFunction (lit "f") [lit "x"] (lit "x + 1") emptyWorld) = Some w')
      by (vm_compute; eexists; reflexivity).
    destruct H as [w' H]. exists w'. split; [exact H|].
    apply (proj1 (proj2 (statement_frame latinOnly latinOnly 10 (lit "n = f(2)")
                           (setFunction (lit "f") [lit "x"] (lit "x + 1") emptyWorld)
                           w' H))).
    right. vm_compute. reflexivity.
Defined.

(** X6 at the input [ab + 1 $], read from its start and in front of [$]. *)
Lemma lexer_moves_forward_witness :
  pos (snd (NextToken latinOnly latinOnly (NewLexer (lit "ab + 1 $")))) = 2
  /\ NextToken latinOnly latinOnly
       (snd (NextToken latinOnly latinOnly {| input := lit "ab + 1 $"; pos := 6 |}))
     = ({| typ := TokenError; tokValue := lit "$" |}, {| input := lit "ab + 1 $"; pos := 7 |}).
Proof.
  split; [vm_compute; reflexivity|].
  refine (eq_trans
            (proj2 (proj2 (proj2
               (lexer_moves_forward latinOnly latinOnly
                  {| input := lit "ab + 1 $"; pos := 6 |} _))) _) _);
    vm_compute; first [reflexivity|lia].
Defined.

(** X7 at the input [1.2.3]: the token is [1.2], in front of the second
    dot. *)
Lemma tokens_are_maximal_runs_witness :
  tokValue (fst (NextToken latinOnly latinOnly (NewLexer (lit "1.2.3")))) = lit "1.2"
  /\ countDots (tokValue (fst (NextToken latinOnly latinOnly (NewLexer (lit "1.2.3"))))) = 1.
Proof.
  destruct (proj1 (tokens_are_maximal_runs latinOnly latinOnly (NewLexer (lit "1.2.3"))
                     ltac:(vm_compute; lia)))
    as (Hv & _ & _ & _ & _ & Hdot); [vm_compute; reflexivity|].
  split; [rewrite Hv; vm_compute; reflexivity|].
  apply Hdot. vm_compute. reflexivity.
Defined.

(** X8 at the text [a - b - 2 * (c + 1.5)], with [a], [b] and [c] holding 10,
    3 and 0.5: the value is [(10 - 3) - 2 * (0.5 + 1.5)]. *)
Lemma evaluation_follows_the_grammar_witness :
  exists n, forall fuel, n <= fuel ->
    evaluateExpression latinOnly latinOnly fuel (lit "a - b - 2 * (c + 1.5)")
      (withVariables
         {[ lit "a" := number true 10; lit "b" := number true 3; lit "c" := number false 0.5 ]}
         emptyWorld)
    = Some (3%float, true,
            withVariables
              {[ lit "a" := number true 10; lit "b" := number true 3;
                 lit "c" := number false 0.5 ]}
              emptyWorld).
Proof.
  destruct (evaluation_follows_the_grammar latinOnly latinOnly
              (MkExpr (MkTerm (Var (lit "a")) TermEnd)
                 (MinusThen (MkTerm (Var (lit "b")) TermEnd)
                    (MinusThen
                       (MkTerm (Number (lit "2"))
                          (TimesThen
                             (Paren (MkExpr (MkTerm (Var (lit "c")) TermEnd)
                                       (PlusThen (MkTerm (Number (lit "1.5")) TermEnd)
                                          ExprEnd)))
                             TermEnd))
                       ExprEnd)))
              (lit "a - b - 2 * (c + 1.5)")
              (withVariables
                 {[ lit "a" := number true 10; lit "b" := number true 3;
                    lit "c" := number false 0.5 ]}
                 emptyWorld))
    as [n Hn].
  - vm_compute. repeat split; discriminate.
  - vm_compute. repeat split; reflexivity.
  - vm_compute. reflexivity.
  - exists n. intros fuel Hf. rewrite (Hn fuel Hf). f_equal.
Defined.

(** X9 at the call [g(2) * undeclared +], which binds a parameter, prints
    two messages and is refused: [x] is what it was. *)
Lemma evaluation_keeps_the_store_witness :
  exists val ok w1,
    evaluateExpression latinOnly latinOnly 12 (lit "g(2) * undeclared +")
      {| variables := {[ lit "x" := number false 0.5 ]};
         functions := {[ lit "g" := {| params := [lit "x"]; expression := lit "x * x" |} ]};
         stdout := [] |}
    = Some (val, ok, w1)
    /\ ok = false
    /\ variables w1 = {[ lit "x" := number false 0.5 ]}
    /\ exists out, stdout w1 = [] ++ out.
Proof.
  assert (H : exists val w1,
             evaluateExpression latinOnly latinOnly 12 (lit "g(2) * undeclared +")
               {| variables := {[ lit "x" := number false 0.5 ]};
                  functions := {[ lit "g" := {| params := [lit "x"];
                                                expression := lit "x * x" |} ]};
                  stdout := [] |}
             = Some (val, false, w1))
    by (vm_compute; do 2 eexists; reflexivity).
  destruct H as (val & w1 & H).
  destruct (evaluation_keeps_the_store latinOnly latinOnly _ _ _ _ _ _ H) as (_ & Hout & Hv).
  exists val, false, w1. split; [exact H|]. split; [reflexivity|].
  split; [|exact Hout].
  apply Hv. intros name fn Hfn. cbn [functions] in Hfn.
  apply lookup_singleton_Some in Hfn as [_ <-]. cbn [params].
  apply NoDup_singleton.
Defined.

(** X10 at a call of [f(a, x): a + x] with the arguments 2 and 0.5, in a
    world where [x] is an integer and [a] is no variable. *)
Lemma parameters_are_bound_and_restored_witness :
  exists val w',
    evaluateFunction latinOnly latinOnly 10
      {| params := [lit "a"; lit "x"]; expression := lit "a + x" |} [2%float; 0.5%float]
      (withVariables {[ lit "x" := number true 7 ]} emptyWorld)
    = Some (val, w')
    /\ variables w' !! lit "x" = Some (number true 7)
    /\ variables w' !! lit "a" = None.
Proof.
  assert (H : exists val w',
             evaluateFunction latinOnly latinOnly 10
               {| params := [lit "a"; lit "x"]; expression := lit "a + x" |}
               [2%float; 0.5%float]
               (withVariables {[ lit "x" := number true 7 ]} emptyWorld)
             = Some (val, w'))
    by (vm_compute; do 2 eexists; reflexivity).
  destruct H as (val & w' & H).
  assert (Hnd : NoDup [lit "a"; lit "x"]).
  { apply NoDup_cons. split; [|apply NoDup_singleton].
    intros Hin. apply list_elem_of_singleton in Hin. vm_compute in Hin. discriminate. }
  destruct (parameters_are_bound_and_restored latinOnly latinOnly 10
              {| params := [lit "a"; lit "x"]; expression := lit "a + x" |}
              [2%float; 0.5%float]
              (withVariables {[ lit "x" := number true 7 ]} emptyWorld)
              val w' Hnd eq_refl H)
    as (n & p & wb & _ & _ & _ & Hres & _).
  exists val, w'. split; [exact H|]. split.
  - rewrite (Hres (lit "x")); [vm_compute; reflexivity|].
    apply elem_of_cons. right. apply list_elem_of_singleton. reflexivity.
  - rewrite (Hres (lit "a")); [vm_compute; reflexivity|].
    apply elem_of_cons. left. reflexivity.
Defined.

(** X11 at [loop(): loop() + 1]. *)
Lemma self_call_never_returns_witness :
  evaluateFunction latinOnly latinOnly 50
    {| params := []; expression := lit "loop() + 1" |} []
    {| variables := ∅;
       functions := {[ lit "loop" := {| params := []; expression := lit "loop() + 1" |} ]};
       stdout := [] |}
  = None.
Proof.
  apply (self_call_never_returns latinOnly latinOnly (lit "loop")
           {| params := []; expression := lit "loop() + 1" |}).
  - reflexivity.
  - vm_compute. repeat split; reflexivity.
  - apply lookup_singleton_eq.
Defined.

(** X12 at the text [f() / 0 + x]: in one world the body of [f] is in error
    and [x] is no variable, in the other [f] and [x] are fine; the text is
    accepted in both. *)
Lemma acceptance_depends_on_arities_only_witness :
  exists val w1 val' w1',
    evaluateExpression latinOnly latinOnly 12 (lit "f() / 0 + x")
      {| variables := ∅;
         functions := {[ lit "f" := {| params := []; expression := lit "* 2 )" |} ]};
         stdout := [] |}
    = Some (val, true, w1)
    /\ evaluateExpression latinOnly latinOnly 20 (lit "f() / 0 + x")
         {| variables := {[ lit "x" := number true 1 ]};
            functions := {[ lit "f" := {| params := []; expression := lit "1" |} ]};
            stdout := [] |}
       = Some (val', true, w1').
Proof.
  assert (H : exists val w1,
             evaluateExpression latinOnly latinOnly 12 (lit "f() / 0 + x")
               {| variables := ∅;
                  functions := {[ lit "f" := {| params := []; expression := lit "* 2 )" |} ]};
                  stdout := [] |}
             = Some (val, true, w1))
    by (vm_compute; do 2 eexists; reflexivity).
  assert (H' : exists val' ok' w1',
             evaluateExpression latinOnly latinOnly 20 (lit "f() / 0 + x")
               {| variables := {[ lit "x" := number true 1 ]};
                  functions := {[ lit "f" := {| params := []; expression := lit "1" |} ]};
                  stdout := [] |}
             = Some (val', ok', w1'))
    by (vm_compute; do 3 eexists; reflexivity).
  destruct H as (val & w1 & H). destruct H' as (val' & ok' & w1' & H').
  assert (Ha : arities
                 {| variables := ∅;
                    functions := {[ lit "f" := {| params := []; expression := lit "* 2 )" |} ]};
                    stdout := [] |}
               = arities
                   {| variables := {[ lit "x" := number true 1 ]};
                      functions := {[ lit "f" := {| params := []; expression := lit "1" |} ]};
                      stdout := [] |}).
  { unfold arities. cbn [functions]. rewrite !map_fmap_singleton. reflexivity. }
  destruct (acceptance_depends_on_arities_only latinOnly latinOnly _ _ _ _ _ _ _ _ _ _ _ Ha H H')
    as [Hok _].
  exists val, w1, val', w1'. split; [exact H|].
  exact (eq_trans H' (f_equal (fun b => Some (val', b, w1')) (eq_sym Hok))).
Defined.

(** X13 at three lines with an open parenthesis, a call of an unknown
    function, a division by zero and an unknown rune. *)
Lemma scripts_without_functions_run_to_their_end_witness :
  exists w',
    processLines latinOnly latinOnly 100
      [lit "x = 1 + (2 * 3"; lit "print x"; lit "y(i) = x / 0 + g(1, 2) ?"] emptyWorld
    = Some w'
    /\ functions w' = ∅.
Proof.
  apply (scripts_without_functions_run_to_their_end latinOnly latinOnly).
  - reflexivity.
  - repeat (apply Forall_cons; split; [split; [vm_compute; reflexivity|vm_compute; lia]|]).
    constructor.
Defined.

(** X14 at the line [area(w,h): w * h;]. *)
Lemma definition_stores_what_is_written_witness :
  processLine latinOnly latinOnly 0 (lit "area(w,h): w * h;") emptyWorld
  = Some {| variables := ∅;
            functions := <[ lit "area" := {| params := [lit "w"; lit "h"];
                                             expression := lit "w * h" |} ]> ∅;
            stdout := [] |}.
Proof.
  assert (Hname : headerName (lit "area")) by (unfold headerName; repeat constructor).
  assert (Hps : Forall (fun p => p <> [] /\ headerName p) [lit "w"; lit "h"])
    by (repeat constructor; discriminate).
  assert (Hpad : Forall (fun r => IsSpace r = true) (lit " ")) by (repeat constructor).
  assert (Hne : lit "w * h" <> []) by discriminate.
  exact (definition_stores_what_is_written latinOnly latinOnly 0
           (lit "area") [lit "w"; lit "h"] (lit " ") (lit "w * h") emptyWorld
           Hname Hps Hpad eq_refl Hne eq_refl).
Defined.
